(** * Curio-Shorts: a shallow embedding of [index.tsx]

    The development follows the layout of the source file: JavaScript
    strings and the built-ins the code calls on them, the records of the
    "Interfaces" block, the module-level state, then the functions in
    source order (persistence, generation, rendering, playback).

    Asynchronous functions are split at their [await]s: the part that
    runs up to an [await] is one function, the part that runs when the
    awaited promise settles is another one that takes the outcome as an
    argument.  Calls to the external collaborators (the generative
    service, the object store, the speech engine, the audio elements)
    are recorded, in order, in the [log] field of the state. *)

From Stdlib Require Import String Ascii.
From stdpp Require Import base decidable option list numbers sorting gmap.
From Equations Require Import Equations.
From Equations.Prop Require Import Logic.

Local Open Scope N_scope.

(** ** JavaScript strings *)

(** A string is the list of its code points.  The regular expression of
    [getInstructionsForSong] carries the [u] flag and so reads code
    points; [charAt(0)] reads a UTF-16 code unit, see [capitalize]. *)
Definition jsstring := list N.

(** A literal of the source, written with its Basic Latin characters. *)
Definition lit (s : string) : jsstring := N_of_ascii <$> list_ascii_of_string s.

Definition dquote : jsstring := [34].
Definition newline : jsstring := [10].

(** The code points of [WhiteSpace] and [LineTerminator]; both
    [String.prototype.trim] and the class [\s] use this set. *)
Definition isWhiteSpace (c : N) : bool :=
  (c =? 9) || (c =? 10) || (c =? 11) || (c =? 12) || (c =? 13) || (c =? 32)
  || (c =? 160) || (c =? 5760) || ((8192 <=? c) && (c <=? 8202))
  || (c =? 8232) || (c =? 8233) || (c =? 8239) || (c =? 8287)
  || (c =? 12288) || (c =? 65279).

Fixpoint trimStart (s : jsstring) : jsstring :=
  match s with
  | c :: s' => if isWhiteSpace c then trimStart s' else s
  | [] => []
  end.

Definition trimEnd (s : jsstring) : jsstring := reverse (trimStart (reverse s)).

(** [s.trim()] *)
Definition trim (s : jsstring) : jsstring := trimEnd (trimStart s).

Fixpoint startsWith (s kw : jsstring) {struct kw} : bool :=
  match kw, s with
  | [], _ => true
  | k :: kw', c :: s' => (c =? k) && startsWith s' kw'
  | _ :: _, [] => false
  end.

(** [s.includes(kw)] *)
Fixpoint includes (s kw : jsstring) : bool :=
  startsWith s kw ||
  match s with
  | [] => false
  | _ :: s' => includes s' kw
  end.

(** The Unicode tables behind [\p{Emoji}], [toLowerCase] and
    [toUpperCase] belong to the JavaScript engine, not to the
    repository: the functions that use them take them as a parameter. *)
Class Unicode := {
  Emoji : N → bool;
  toLowerCase : jsstring → jsstring;
  toUpperCase : jsstring → jsstring;
}.

(** The part of these tables used to evaluate the functions on concrete
    inputs: the case pairs of Basic Latin, and of the code points with
    the Emoji property '#', '*', the digits, U+1F400 to U+1F43E (animals),
    U+1F577 and U+1F578, U+1F600 to U+1F64F (emoticons) and U+1F980 to
    U+1F984. *)
Definition latin_lower (c : N) : N := if (65 <=? c) && (c <=? 90) then c + 32 else c.
Definition latin_upper (c : N) : N := if (97 <=? c) && (c <=? 122) then c - 32 else c.
Definition sample_emoji (c : N) : bool :=
  (c =? 35) || (c =? 42) || ((48 <=? c) && (c <=? 57))
  || ((128000 <=? c) && (c <=? 128062)) || ((128375 <=? c) && (c <=? 128376))
  || ((128512 <=? c) && (c <=? 128591)) || ((129408 <=? c) && (c <=? 129412)).

Definition BasicLatin : Unicode :=
  {| Emoji := sample_emoji;
     toLowerCase := fmap latin_lower;
     toUpperCase := fmap latin_upper |}.

(** ** Core generation functions: the background track *)

Section App.
Context {U : Unicode}.

Definition selectBeatForStyle (style : jsstring) : jsstring :=
  let lowerStyle := toLowerCase style in
  if includes lowerStyle (lit "upbeat")
     || includes lowerStyle (lit "pop")
     || includes lowerStyle (lit "happy")
     || includes lowerStyle (lit "rock")
  then lit "beat-upbeat"
  else if includes lowerStyle (lit "ballad")
          || includes lowerStyle (lit "gentle")
          || includes lowerStyle (lit "slow")
          || includes lowerStyle (lit "acoustic")
  then lit "beat-ballad"
  else if includes lowerStyle (lit "epic")
          || includes lowerStyle (lit "cinematic")
          || includes lowerStyle (lit "score")
  then lit "beat-epic"
  else lit "beat-upbeat".

(** The track table as the specification words it: keyword groups in
    priority order, each with its track, and track A as the default. *)
Definition track_A : jsstring := lit "beat-upbeat".
Definition track_B : jsstring := lit "beat-ballad".
Definition track_C : jsstring := lit "beat-epic".

Definition keyword_groups : list (list jsstring * jsstring) :=
  [ ([lit "upbeat"; lit "pop"; lit "happy"; lit "rock"], track_A);
    ([lit "ballad"; lit "gentle"; lit "slow"; lit "acoustic"], track_B);
    ([lit "epic"; lit "cinematic"; lit "score"], track_C) ].

(** [style], once lower-cased, reads [kw] somewhere inside. *)
Definition mentions (style kw : jsstring) : Prop :=
  ∃ before after, toLowerCase style = before ++ kw ++ after.

(** First matching group wins; no group matching gives the default. *)
Inductive picks (style : jsstring) : list (list jsstring * jsstring) → jsstring → Prop :=
| picks_default : picks style [] track_A
| picks_here kws track rest :
    Exists (mentions style) kws → picks style ((kws, track) :: rest) track
| picks_later kws track rest track' :
    Forall (λ kw, ¬ mentions style kw) kws →
    picks style rest track' → picks style ((kws, track) :: rest) track'.

(** The same reading, as a function. *)
Fixpoint first_match (style : jsstring) (groups : list (list jsstring * jsstring))
  : jsstring :=
  match groups with
  | [] => track_A
  | (kws, track) :: rest =>
      if existsb (includes (toLowerCase style)) kws then track
      else first_match style rest
  end.

(** ** Core generation functions: the narrator *)

(** A line of the template literal, with the line break and the
    indentation that precede it in the source. *)
Definition line (s : jsstring) : jsstring := newline ++ lit "    " ++ s.
Definition quoted (s : string) : jsstring := dquote ++ lit s ++ dquote.

Definition baseInstructions : jsstring :=
  line (lit "You are a creative songwriter and visual artist.")
  ++ line (lit "Your task is to create a short, catchy, and simple song that explains the user's query.")
  ++ line (lit "The song must be from the perspective of the specified character.")
  ++ line (lit "Generate a response in JSON format.")
  ++ line (lit "The JSON object must contain two keys:")
  ++ line (lit "1. " ++ quoted "slides" ++ lit ": An array of slide objects, where each slide contains a short line of "
           ++ quoted "lyrics" ++ lit " and a corresponding descriptive " ++ quoted "image_prompt"
           ++ lit " for an illustration to match that line.")
  ++ line (lit "2. " ++ quoted "music_style"
           ++ lit ": A short string describing the musical style of the song (e.g., "
           ++ quoted "upbeat pop" ++ lit ", " ++ quoted "gentle acoustic ballad" ++ lit ", "
           ++ quoted "epic cinematic score" ++ lit ").")
  ++ line (lit "Do NOT include any text, words, or letters in the image prompt itself.")
  ++ line (lit "The song should have between 6 and 8 slides.")
  ++ line (lit "No commentary, just the JSON object.").

(** [character.replace(/^\p{Emoji}\s*/u, '')]: one code point with the
    Emoji property at the start, and the white space after it. *)
Definition stripLeadingEmoji (character : jsstring) : jsstring :=
  match character with
  | c :: rest => if Emoji c then trimStart rest else character
  | [] => []
  end.

Definition logicName (character : jsstring) : jsstring :=
  trim (stripLeadingEmoji character).

(** [s.charAt(0).toUpperCase() + s.slice(1)].  [charAt] and [slice] count
    UTF-16 code units: of a code point above U+FFFF [charAt(0)] is the
    lone high surrogate, which has no upper case, and [slice(1)] starts
    with the low surrogate, so the string comes back as it was. *)
Definition capitalize (s : jsstring) : jsstring :=
  match s with
  | [] => []
  | c :: rest => if c <? 65536 then toUpperCase [c] ++ rest else s
  end.

Definition spiderManSpecifics : jsstring :=
  lit "Use concepts like web-slinging, spider-sense, and great responsibility in the lyrics.".
Definition barbieSpecifics : jsstring :=
  lit "Use themes of fashion, friendship, and her many careers in the lyrics.".
Definition simbaSpecifics : jsstring :=
  lit "Use themes of the circle of life, the pride lands, and his jungle friends in the lyrics.".

(** The [default] branch of the switch, for the name it is given. *)
Definition genericSpecifics (name : jsstring) : jsstring :=
  lit "Incorporate " ++ name
  ++ lit "'s unique personality, skills, and famous concepts into the lyrics.".

Definition characterSpecifics (character : jsstring) : jsstring :=
  let characterNameForPrompt := capitalize (logicName character) in
  let key := toLowerCase (logicName character) in
  if bool_decide (key = lit "spider-man") then spiderManSpecifics
  else if bool_decide (key = lit "barbie") then barbieSpecifics
  else if bool_decide (key = lit "simba") then simbaSpecifics
  else genericSpecifics characterNameForPrompt.

(** The narrators with curated guidance, as the switch spells them. *)
Definition curatedNarrators : list jsstring :=
  [lit "spider-man"; lit "barbie"; lit "simba"].

Definition getInstructionsForSong (character : jsstring) : jsstring :=
  baseInstructions ++ lit " " ++ characterSpecifics character.

(** The characters of the keyboard that have the Emoji property: [#],
    [*] and the digits, which begin the keycap sequences. *)
Definition keycapBase (c : N) : bool :=
  (c =? 35) || (c =? 42) || ((48 <=? c) && (c <=? 57)).

Definition startsWithKeycapBase (character : jsstring) : bool :=
  match character with
  | c :: _ => keycapBase c
  | [] => false
  end.


(** ** Interfaces *)

Record SlideData := { lyrics : jsstring; imageSrc : jsstring }.

Record SongSlide := { song_lyrics : jsstring; image_prompt : jsstring }.

(** [SongStructure], as the code reads it off [JSON.parse]: it tests
    [songData.slides] and [songData.music_style] for presence. *)
Record SongStructure := {
  song_slides : option (list SongSlide);
  music_style : option jsstring;
}.

(** A slide element built by [createSlideElement]; the lyrics are kept as
    given to the Markdown renderer. *)
Record SlideElement := {
  img_src : jsstring;
  creator_name : jsstring;
  slide_prompt : jsstring;
  slide_answer : jsstring;
}.

(** A [.tiktok-item-container]: its [dataset.tiktokId] and the children of
    its [.horizontal-slider]. *)
Record Container := { tiktokId : N; slider : list SlideElement }.

(** [id] is [Date.now().toString()]; it is kept as the number that
    [Number(id)] reads back. *)
Record TikTok := {
  id : N;
  slides : list SlideData;
  character : jsstring;
  prompt : jsstring;
  instrumentalId : option jsstring;
  voiceName : option jsstring;
  element : option Container;
}.

(** A [.gallery-thumbnail]. *)
Record Thumbnail := {
  thumb_tiktokId : N;
  thumb_src : jsstring;
  thumb_prompt : jsstring;
}.

(** ** What the environment answers *)

(** The text request of [generate], followed by [JSON.parse(result.text)]:
    the request rejects; or [JSON.parse] throws [e] on the text (an absent
    text is [undefined], which does not parse); or it returns [null] or an
    object. *)
Inductive SongResult :=
| SongRejected (e : jsstring)
| SongUnparsed (text : option jsstring) (e : jsstring)
| SongParsed (songData : option SongStructure).

Record InlineData := { data : jsstring; mimeType : jsstring }.
Record Part := { inlineData : option InlineData }.

Inductive ImageResult :=
| ImageRejected (e : jsstring)
| ImageResponse (parts : list Part).

Inductive PutResult := PutSucceeds | PutFails (e : jsstring).
Inductive GetAllResult := GetAllSucceeds | GetAllFails (e : jsstring).

(** How a promise of the program ends. *)
Inductive Settled := Resolves | Rejects (e : jsstring) | NeverSettles.

(** ** State *)

Inductive Effect :=
| TextRequest (contents : jsstring)
| ImageRequest (finalPrompt : jsstring)
| StorePut (record : TikTok)
| StoreGetAll
| Speak (text : jsstring) (voice : option jsstring)
| SpeechCancel
| AudioPause (audio : jsstring)
| AudioPlay (audio : jsstring)
| ScrollFeedToTop
| ScrollSlideIntoView (container : N) (index : nat)
| FocusInput
| Console (message : jsstring).

(** What an invocation of [generate] suspended at an [await] still holds
    in its local variables. *)
Inductive Suspended :=
| AwaitSong (message voiceChoice finalCharacter : jsstring)
| AwaitImages (message voiceChoice finalCharacter : jsstring)
    (songStructure : list SongSlide) (instrumental : jsstring)
| AwaitPut (tiktok : TikTok).

Record State := mkState {
  (** Module-level variables. *)
  isPlaying : bool;
  isGenerating : bool;
  selectedStyle : jsstring;
  savedTikToks : list TikTok;
  activeTikTokContainer : option Container;
  backgroundAudio : option jsstring;
  (** [ai]: whether a client is installed ([undefined] otherwise). *)
  ai : bool;
  (** [db]: whether the database handle is set, and the records of the
      object store [tiktoks], keyed by [id]. *)
  db : bool;
  store : gmap N TikTok;
  (** The [value] of the input elements. *)
  userInput : jsstring;
  voiceSelector : jsstring;
  characterSelector : jsstring;
  customCharacterInput : jsstring;
  (** The children of [#slideshow], first child first, and the [hidden]
      attributes. *)
  slideshow : list Container;
  slideshowHidden : bool;
  initialMessageHidden : bool;
  (** The thumbnails of [#history-gallery] (none: the placeholder, or
      nothing yet). *)
  historyGallery : list Thumbnail;
  (** The message of the error modal while it is shown. *)
  errorModal : option jsstring;
  generateBtnDisabled : bool;
  generateBtnText : jsstring;
  (** The class [slideshow-paused] of the body. *)
  slideshowPaused : bool;
  (** [speechSynthesis.speaking] and the names of [getVoices()]. *)
  speaking : bool;
  voices : list jsstring;
  (** The ids of the audio elements of the page. *)
  audioElements : list jsstring;
  (** The calls made to the external collaborators, oldest first. *)
  log : list Effect;
  (** The invocations of [generate] suspended at an [await]. *)
  inflight : list Suspended;
}.

Definition set_isPlaying (v : bool) (st : State) : State :=
  mkState v (isGenerating st) (selectedStyle st) (savedTikToks st)
    (activeTikTokContainer st) (backgroundAudio st) (ai st) (db st) (store st)
    (userInput st) (voiceSelector st) (characterSelector st)
    (customCharacterInput st) (slideshow st) (slideshowHidden st)
    (initialMessageHidden st) (historyGallery st) (errorModal st)
    (generateBtnDisabled st) (generateBtnText st) (slideshowPaused st)
    (speaking st) (voices st) (audioElements st) (log st) (inflight st).
Definition set_isGenerating (v : bool) (st : State) : State :=
  mkState (isPlaying st) v (selectedStyle st) (savedTikToks st)
    (activeTikTokContainer st) (backgroundAudio st) (ai st) (db st) (store st)
    (userInput st) (voiceSelector st) (characterSelector st)
    (customCharacterInput st) (slideshow st) (slideshowHidden st)
    (initialMessageHidden st) (historyGallery st) (errorModal st)
    (generateBtnDisabled st) (generateBtnText st) (slideshowPaused st)
    (speaking st) (voices st) (audioElements st) (log st) (inflight st).
Definition set_savedTikToks (v : list TikTok) (st : State) : State :=
  mkState (isPlaying st) (isGenerating st) (selectedStyle st) v
    (activeTikTokContainer st) (backgroundAudio st) (ai st) (db st) (store st)
    (userInput st) (voiceSelector st) (characterSelector st)
    (customCharacterInput st) (slideshow st) (slideshowHidden st)
    (initialMessageHidden st) (historyGallery st) (errorModal st)
    (generateBtnDisabled st) (generateBtnText st) (slideshowPaused st)
    (speaking st) (voices st) (audioElements st) (log st) (inflight st).
Definition set_backgroundAudio (v : option jsstring) (st : State) : State :=
  mkState (isPlaying st) (isGenerating st) (selectedStyle st)
    (savedTikToks st) (activeTikTokContainer st) v (ai st) (db st) (store st)
    (userInput st) (voiceSelector st) (characterSelector st)
    (customCharacterInput st) (slideshow st) (slideshowHidden st)
    (initialMessageHidden st) (historyGallery st) (errorModal st)
    (generateBtnDisabled st) (generateBtnText st) (slideshowPaused st)
    (speaking st) (voices st) (audioElements st) (log st) (inflight st).
Definition set_store (v : gmap N TikTok) (st : State) : State :=
  mkState (isPlaying st) (isGenerating st) (selectedStyle st)
    (savedTikToks st) (activeTikTokContainer st) (backgroundAudio st) (ai st)
    (db st) v (userInput st) (voiceSelector st) (characterSelector st)
    (customCharacterInput st) (slideshow st) (slideshowHidden st)
    (initialMessageHidden st) (historyGallery st) (errorModal st)
    (generateBtnDisabled st) (generateBtnText st) (slideshowPaused st)
    (speaking st) (voices st) (audioElements st) (log st) (inflight st).
Definition set_slideshow (v : list Container) (st : State) : State :=
  mkState (isPlaying st) (isGenerating st) (selectedStyle st)
    (savedTikToks st) (activeTikTokContainer st) (backgroundAudio st) (ai st)
    (db st) (store st) (userInput st) (voiceSelector st)
    (characterSelector st) (customCharacterInput st) v (slideshowHidden st)
    (initialMessageHidden st) (historyGallery st) (errorModal st)
    (generateBtnDisabled st) (generateBtnText st) (slideshowPaused st)
    (speaking st) (voices st) (audioElements st) (log st) (inflight st).
Definition set_slideshowHidden (v : bool) (st : State) : State :=
  mkState (isPlaying st) (isGenerating st) (selectedStyle st)
    (savedTikToks st) (activeTikTokContainer st) (backgroundAudio st) (ai st)
    (db st) (store st) (userInput st) (voiceSelector st)
    (characterSelector st) (customCharacterInput st) (slideshow st) v
    (initialMessageHidden st) (historyGallery st) (errorModal st)
    (generateBtnDisabled st) (generateBtnText st) (slideshowPaused st)
    (speaking st) (voices st) (audioElements st) (log st) (inflight st).
Definition set_initialMessageHidden (v : bool) (st : State) : State :=
  mkState (isPlaying st) (isGenerating st) (selectedStyle st)
    (savedTikToks st) (activeTikTokContainer st) (backgroundAudio st) (ai st)
    (db st) (store st) (userInput st) (voiceSelector st)
    (characterSelector st) (customCharacterInput st) (slideshow st)
    (slideshowHidden st) v (historyGallery st) (errorModal st)
    (generateBtnDisabled st) (generateBtnText st) (slideshowPaused st)
    (speaking st) (voices st) (audioElements st) (log st) (inflight st).
Definition set_historyGallery (v : list Thumbnail) (st : State) : State :=
  mkState (isPlaying st) (isGenerating st) (selectedStyle st)
    (savedTikToks st) (activeTikTokContainer st) (backgroundAudio st) (ai st)
    (db st) (store st) (userInput st) (voiceSelector st)
    (characterSelector st) (customCharacterInput st) (slideshow st)
    (slideshowHidden st) (initialMessageHidden st) v (errorModal st)
    (generateBtnDisabled st) (generateBtnText st) (slideshowPaused st)
    (speaking st) (voices st) (audioElements st) (log st) (inflight st).
Definition set_errorModal (v : option jsstring) (st : State) : State :=
  mkState (isPlaying st) (isGenerating st) (selectedStyle st)
    (savedTikToks st) (activeTikTokContainer st) (backgroundAudio st) (ai st)
    (db st) (store st) (userInput st) (voiceSelector st)
    (characterSelector st) (customCharacterInput st) (slideshow st)
    (slideshowHidden st) (initialMessageHidden st) (historyGallery st) v
    (generateBtnDisabled st) (generateBtnText st) (slideshowPaused st)
    (speaking st) (voices st) (audioElements st) (log st) (inflight st).
Definition set_generateBtnDisabled (v : bool) (st : State) : State :=
  mkState (isPlaying st) (isGenerating st) (selectedStyle st)
    (savedTikToks st) (activeTikTokContainer st) (backgroundAudio st) (ai st)
    (db st) (store st) (userInput st) (voiceSelector st)
    (characterSelector st) (customCharacterInput st) (slideshow st)
    (slideshowHidden st) (initialMessageHidden st) (historyGallery st)
    (errorModal st) v (generateBtnText st) (slideshowPaused st) (speaking st)
    (voices st) (audioElements st) (log st) (inflight st).
Definition set_generateBtnText (v : jsstring) (st : State) : State :=
  mkState (isPlaying st) (isGenerating st) (selectedStyle st)
    (savedTikToks st) (activeTikTokContainer st) (backgroundAudio st) (ai st)
    (db st) (store st) (userInput st) (voiceSelector st)
    (characterSelector st) (customCharacterInput st) (slideshow st)
    (slideshowHidden st) (initialMessageHidden st) (historyGallery st)
    (errorModal st) (generateBtnDisabled st) v (slideshowPaused st)
    (speaking st) (voices st) (audioElements st) (log st) (inflight st).
Definition set_slideshowPaused (v : bool) (st : State) : State :=
  mkState (isPlaying st) (isGenerating st) (selectedStyle st)
    (savedTikToks st) (activeTikTokContainer st) (backgroundAudio st) (ai st)
    (db st) (store st) (userInput st) (voiceSelector st)
    (characterSelector st) (customCharacterInput st) (slideshow st)
    (slideshowHidden st) (initialMessageHidden st) (historyGallery st)
    (errorModal st) (generateBtnDisabled st) (generateBtnText st) v
    (speaking st) (voices st) (audioElements st) (log st) (inflight st).
Definition set_speaking (v : bool) (st : State) : State :=
  mkState (isPlaying st) (isGenerating st) (selectedStyle st)
    (savedTikToks st) (activeTikTokContainer st) (backgroundAudio st) (ai st)
    (db st) (store st) (userInput st) (voiceSelector st)
    (characterSelector st) (customCharacterInput st) (slideshow st)
    (slideshowHidden st) (initialMessageHidden st) (historyGallery st)
    (errorModal st) (generateBtnDisabled st) (generateBtnText st)
    (slideshowPaused st) v (voices st) (audioElements st) (log st)
    (inflight st).
Definition set_log (v : list Effect) (st : State) : State :=
  mkState (isPlaying st) (isGenerating st) (selectedStyle st)
    (savedTikToks st) (activeTikTokContainer st) (backgroundAudio st) (ai st)
    (db st) (store st) (userInput st) (voiceSelector st)
    (characterSelector st) (customCharacterInput st) (slideshow st)
    (slideshowHidden st) (initialMessageHidden st) (historyGallery st)
    (errorModal st) (generateBtnDisabled st) (generateBtnText st)
    (slideshowPaused st) (speaking st) (voices st) (audioElements st) v
    (inflight st).
Definition set_inflight (v : list Suspended) (st : State) : State :=
  mkState (isPlaying st) (isGenerating st) (selectedStyle st)
    (savedTikToks st) (activeTikTokContainer st) (backgroundAudio st) (ai st)
    (db st) (store st) (userInput st) (voiceSelector st)
    (characterSelector st) (customCharacterInput st) (slideshow st)
    (slideshowHidden st) (initialMessageHidden st) (historyGallery st)
    (errorModal st) (generateBtnDisabled st) (generateBtnText st)
    (slideshowPaused st) (speaking st) (voices st) (audioElements st) (log st)
    v.

Definition emit (e : Effect) (st : State) : State := set_log (log st ++ [e]) st.

Definition suspend (k : Suspended) (st : State) : State :=
  set_inflight (inflight st ++ [k]) st.

(** [String(e)] for [new Error(message)]. *)
Definition Error (message : string) : jsstring := lit "Error: " ++ lit message.

(** ** Modal controls *)

Definition showErrorPopup (message : jsstring) (st : State) : State :=
  set_errorModal (Some message) st.

(** ** Playback controls: stopping *)

(** [currentAudio] is only ever assigned [null], so its branch never
    runs. *)
Definition stopSlideshow (st : State) : State :=
  let st := set_isPlaying false st in
  let st := set_slideshowPaused true st in
  if speaking st then set_speaking false (emit SpeechCancel st) else st.

(** ** Data persistence *)

(** [const {element, ...savableTikTok} = tiktok] *)
Definition savable (tiktok : TikTok) : TikTok :=
  {| id := id tiktok; slides := slides tiktok; character := character tiktok;
     prompt := prompt tiktok; instrumentalId := instrumentalId tiktok;
     voiceName := voiceName tiktok; element := None |}.

(** [saveTikTokToDB] up to [store.put]: without a database handle the
    promise rejects at once and nothing is sent. *)
Definition saveTikTokToDB_request (tiktok : TikTok) (st : State) : option State :=
  if db st then Some (emit (StorePut (savable tiktok)) st) else None.

(** [request.onsuccess] and [request.onerror]: the object store holds the
    record, under its [id], once the request has succeeded. *)
Definition saveTikTokToDB_settle (tiktok : TikTok) (r : PutResult) (st : State)
  : State * Settled :=
  match r with
  | PutSucceeds =>
      (set_store (<[id tiktok := savable tiktok]> (store st)) st, Resolves)
  | PutFails e =>
      (emit (Console (lit "Failed to save TikTok to DB:")) st, Rejects e)
  end.

Definition saveTikTokToDB (tiktok : TikTok) (r : PutResult) (st : State)
  : State * Settled :=
  match saveTikTokToDB_request tiktok st with
  | None => (st, Rejects (Error "Database is not initialized."))
  | Some st => saveTikTokToDB_settle tiktok r st
  end.

(** ** Rendering *)

Definition createSlideElement (slideData : SlideData) (prompt character : jsstring)
  : SlideElement :=
  {| img_src := imageSrc slideData;
     creator_name := capitalize character;
     slide_prompt := prompt;
     slide_answer := lyrics slideData |}.

Definition set_element (e : Container) (tiktok : TikTok) : TikTok :=
  {| id := id tiktok; slides := slides tiktok; character := character tiktok;
     prompt := prompt tiktok; instrumentalId := instrumentalId tiktok;
     voiceName := voiceName tiktok; element := Some e |}.

(** [addTikTokToFeed(tiktok)].  Every caller passes an object of
    [savedTikToks], and the function writes its [element] field: the
    argument is given by its position [i] in the array, so that the write
    lands in the array as it does in the source. *)
Definition addTikTokToFeed (i : nat) (st : State) : State :=
  match savedTikToks st !! i with
  | None => st
  | Some tiktok =>
      let tiktokContainer :=
        {| tiktokId := id tiktok;
           slider := (λ slideData,
                        createSlideElement slideData (prompt tiktok) (character tiktok))
                     <$> slides tiktok |} in
      let st := set_slideshow (tiktokContainer :: slideshow st) st in
      set_savedTikToks (<[i := set_element tiktokContainer tiktok]> (savedTikToks st)) st
  end.

(** The thumbnail of a short; [tiktok.slides[0].imageSrc] raises a
    [TypeError] on a short without slides. *)
Definition thumbnail (tiktok : TikTok) : option Thumbnail :=
  match slides tiktok with
  | [] => None
  | first :: _ =>
      Some {| thumb_tiktokId := id tiktok;
              thumb_src := imageSrc first;
              thumb_prompt := prompt tiktok |}
  end.

(** The loop of [renderHistoryGallery]; an exception leaves the
    thumbnails appended so far ([false]: raised). *)
Fixpoint appendThumbnails (tiktoks : list TikTok) (gallery : list Thumbnail)
  : list Thumbnail * bool :=
  match tiktoks with
  | [] => (gallery, true)
  | tiktok :: rest =>
      match thumbnail tiktok with
      | None => (gallery, false)
      | Some thumb => appendThumbnails rest (gallery ++ [thumb])
      end
  end.

Definition renderHistoryGallery (st : State) : State * bool :=
  let (gallery, completed) := appendThumbnails (savedTikToks st) [] in
  (set_historyGallery gallery st, completed).

(** [catch] of [saveAndRenderNewTikTok] *)
Definition saveAndRender_catch (st : State) : State :=
  let st := set_savedTikToks (tail (savedTikToks st)) st in
  let st := emit (Console (lit "Failed to save TikTok:")) st in
  showErrorPopup
    (lit "Failed to save your new Short. Storage might be full or corrupted.") st.

(** [saveAndRenderNewTikTok] up to its [await]; [true] when it is
    suspended there with a put in flight. *)
Definition saveAndRender_start (tiktok : TikTok) (st : State) : State * bool :=
  let st := set_savedTikToks (tiktok :: savedTikToks st) st in
  match saveTikTokToDB_request tiktok st with
  | None => (saveAndRender_catch st, false)
  | Some st => (st, true)
  end.

(** [saveAndRenderNewTikTok] from its [await] on. *)
Definition saveAndRender_resume (tiktok : TikTok) (r : PutResult) (st : State) : State :=
  match saveTikTokToDB_settle tiktok r st with
  | (st, Resolves) =>
      let st := addTikTokToFeed 0 st in
      match renderHistoryGallery st with
      | (st, true) => emit ScrollFeedToTop st
      | (st, false) => saveAndRender_catch st
      end
  | (st, _) => saveAndRender_catch st
  end.

Definition saveAndRenderNewTikTok (tiktok : TikTok) (r : PutResult) (st : State) : State :=
  match saveAndRender_start tiktok st with
  | (st, true) => saveAndRender_resume tiktok r st
  | (st, false) => st
  end.

(** The comparator [(a, b) => Number(b.id) - Number(a.id)] puts [a]
    before [b] when [b.id <= a.id]. *)
Definition newer_first (a b : TikTok) : Prop := id b ≤ id a.

#[export] Instance newer_first_dec a b : Decision (newer_first a b) := N.le_dec _ _.

(** [store.getAll()] *)
Definition getAll (st : State) : list TikTok := (map_to_list (store st)).*2.

Definition loadHistoryFromDB (r : GetAllResult) (st : State) : State * Settled :=
  if negb (db st) then (emit (Console (lit "Database is not initialized.")) st, Resolves)
  else
    let st := emit StoreGetAll st in
    match r with
    | GetAllFails e =>
        (emit (Console (lit "Failed to load history from DB:")) st, Rejects e)
    | GetAllSucceeds =>
        let loadedTikToks := merge_sort newer_first (getAll st) in
        let st := set_savedTikToks loadedTikToks st in
        if bool_decide (0 < length (savedTikToks st))%nat then
          let st := set_initialMessageHidden true st in
          let st := set_slideshowHidden false st in
          let st := foldr addTikTokToFeed st (seq 0 (length (savedTikToks st))) in
          match renderHistoryGallery st with
          | (st, true) => (st, Resolves)
          | (st, false) => (st, NeverSettles)
          end
        else (st, Resolves)
    end.

(** ** Core generation functions: images *)

Definition STYLE_PROMPTS : list (jsstring * jsstring) :=
  [ (lit "anime",
     lit "In the style of modern vibrant anime, detailed characters and backgrounds, cinematic lighting:");
    (lit "comic",
     lit "In the style of a classic American comic book, with bold lines, Ben-Day dots, and a dynamic panel layout:");
    (lit "photoreal", lit "A photorealistic, high-detail, cinematic 4K photo:");
    (lit "storybook",
     lit "A whimsical and charming children's storybook illustration, with soft textures and a warm color palette:");
    (lit "retro",
     lit "In the style of 16-bit pixel art, vibrant color palette, reminiscent of a classic SNES RPG game:");
    (lit "cinematic",
     lit "A cinematic movie still, dramatic lighting, epic scope, high detail, wide-angle shot:") ].

(** [STYLE_PROMPTS[selectedStyle] || ''], among the keys of the table. *)
Definition stylePrefix (selectedStyle : jsstring) : jsstring :=
  match list_find (λ entry, entry.1 = selectedStyle) STYLE_PROMPTS with
  | Some (_, entry) => entry.2
  | None => []
  end.

Definition finalPrompt (selectedStyle prompt : jsstring) : jsstring :=
  stylePrefix selectedStyle ++ lit " A 9:16 aspect ratio image of: " ++ prompt.

(** What [ai.models] raises when [ai] is [undefined]; the wording is the
    engine's. *)
Definition noClientError : jsstring :=
  lit "TypeError: Cannot read properties of undefined (reading 'models')".

(** [generateImageFromPrompt] up to its [await]: the request goes out,
    unless there is no client, in which case the call has already
    failed. *)
Definition generateImageFromPrompt_request (prompt : jsstring) (st : State) : State :=
  if ai st then emit (ImageRequest (finalPrompt (selectedStyle st) prompt)) st else st.

(** The loop over [response.candidates[0].content.parts]: the first part
    with inline data gives the data URI. *)
Fixpoint firstInlineImage (parts : list Part) : option jsstring :=
  match parts with
  | [] => None
  | part :: rest =>
      match inlineData part with
      | Some d =>
          if bool_decide (data d = []) then firstInlineImage rest
          else Some (lit "data:" ++ mimeType d ++ lit ";base64," ++ data d)
      | None => firstInlineImage rest
      end
  end.

(** [generateImageFromPrompt] from its [await] on. *)
Definition generateImageFromPrompt_settle (r : ImageResult) : jsstring + jsstring :=
  match r with
  | ImageRejected e => inr e
  | ImageResponse parts =>
      match firstInlineImage parts with
      | Some image => inl image
      | None => inr (Error "Image generation failed. The model did not return an image.")
      end
  end.

(** [Promise.all]: the values in order, or a rejection.  The reason kept
    is that of the first rejected promise of the list; it only feeds the
    text of the popup. *)
Fixpoint promiseAll {A} (settled : list (A + jsstring)) : list A + jsstring :=
  match settled with
  | [] => inl []
  | inr e :: _ => inr e
  | inl a :: rest =>
      match promiseAll rest with
      | inl values => inl (a :: values)
      | inr e => inr e
      end
  end.

(** ** Core generation functions: [generate] *)

(** [finally] of [generate] *)
Definition generate_finally (st : State) : State :=
  let st := set_isGenerating false st in
  let st := set_generateBtnDisabled false st in
  let st := set_generateBtnText (lit "Generate Shorts") st in
  emit FocusInput st.

(** The outer [catch] of [generate], for [String(e)]. *)
Definition generate_catch (e : jsstring) (st : State) : State :=
  let st := showErrorPopup (lit "Something went wrong: " ++ e) st in
  if bool_decide (length (slideshow st) = 0%nat) then
    set_initialMessageHidden false (set_slideshowHidden true st)
  else st.

(** The [catch] of the image step, which returns from [generate]. *)
Definition images_catch (imageError : jsstring) (st : State) : State :=
  showErrorPopup
    (lit "Failed to generate images: " ++ imageError ++ lit ". Please try again.") st.

(** [generate] up to its first [await].  The element [#error] is only
    ever cleared and hidden, and is left out. *)
Definition generate (st : State) : State :=
  let message := trim (userInput st) in
  let voiceChoice := voiceSelector st in
  if bool_decide (message = []) || isGenerating st then st
  else if negb (ai st) then
    showErrorPopup
      (lit "The Gemini client is not initialized. Please add your Gemini API key using the key icon in the header.")
      st
  else
    let st := set_isGenerating true st in
    let st := set_generateBtnDisabled true st in
    let st := set_generateBtnText (lit "Generating...") st in
    let st := stopSlideshow st in
    let st := set_initialMessageHidden true st in
    let st := set_slideshowHidden false st in
    let customCharacter := trim (customCharacterInput st) in
    let finalCharacter :=
      if bool_decide (characterSelector st = lit "custom") then customCharacter
      else characterSelector st in
    if bool_decide (finalCharacter = []) then
      generate_finally (showErrorPopup (lit "Please enter or select a narrator.") st)
    else
      let instructions := getInstructionsForSong finalCharacter in
      suspend (AwaitSong message voiceChoice finalCharacter)
        (emit (TextRequest (message ++ newline ++ instructions)) st).

(** The background music started once the song has arrived. *)
Definition startBackgroundMusic (instrumental : jsstring) (st : State) : State :=
  let st :=
    match backgroundAudio st with
    | Some audio => emit (AudioPause audio) st
    | None => st
    end in
  if bool_decide (instrumental ∈ audioElements st) then
    emit (AudioPlay instrumental) (set_backgroundAudio (Some instrumental) st)
  else st.

(** [songData.music_style || 'a catchy song'] *)
Definition musicStyle (songData : SongStructure) : jsstring :=
  match music_style songData with
  | Some (c :: style) => c :: style
  | _ => lit "a catchy song"
  end.

(** [generate] from the text request to the image requests. *)
Definition generate_song (message voiceChoice finalCharacter : jsstring)
    (r : SongResult) (st : State) : State :=
  let failed := generate_finally
    (generate_catch (Error "Could not generate song structure from model.") st) in
  match r with
  | SongRejected e | SongUnparsed _ e => generate_finally (generate_catch e st)
  | SongParsed None => failed
  | SongParsed (Some songData) =>
      match song_slides songData with
      | None | Some [] => failed
      | Some songStructure =>
          let instrumental := selectBeatForStyle (musicStyle songData) in
          let st := startBackgroundMusic instrumental st in
          let imagePrompts := image_prompt <$> songStructure in
          let requested := foldl (λ st prompt, generateImageFromPrompt_request prompt st)
                                 st imagePrompts in
          if ai st then
            suspend (AwaitImages message voiceChoice finalCharacter songStructure instrumental)
                    requested
          else generate_finally (images_catch noClientError requested)
      end
  end.

(** [generate] from the images to the save: [respond i] is what the
    [i]-th image request comes back with, [now] is [Date.now()]. *)
Definition generate_images (message voiceChoice finalCharacter : jsstring)
    (songStructure : list SongSlide) (instrumental : jsstring)
    (respond : nat → ImageResult) (now : N) (st : State) : State :=
  let settled := (λ i, generateImageFromPrompt_settle (respond i))
                 <$> seq 0 (length songStructure) in
  match promiseAll settled with
  | inr imageError => generate_finally (images_catch imageError st)
  | inl images =>
      let newTikTok :=
        {| id := now;
           slides := zip_with (λ part image,
                                 {| lyrics := song_lyrics part; imageSrc := image |})
                              songStructure images;
           character := finalCharacter;
           prompt := message;
           instrumentalId := Some instrumental;
           voiceName := Some voiceChoice;
           element := None |} in
      if bool_decide (0 < length (slides newTikTok))%nat then
        match saveAndRender_start newTikTok st with
        | (st, true) => suspend (AwaitPut newTikTok) st
        | (st, false) => generate_finally st
        end
      else
        generate_finally
          (generate_catch (Error "No content was generated. Please try again.") st)
  end.

(** [generate] from the save to its end. *)
Definition generate_saved (tiktok : TikTok) (r : PutResult) (st : State) : State :=
  generate_finally (saveAndRender_resume tiktok r st).

(** ** The event loop around [generate] *)

(** A click on the button, or the settling of what the oldest suspended
    invocation awaits. *)
Inductive Input :=
| ClickGenerate
| SongArrives (r : SongResult)
| ImagesArrive (respond : nat → ImageResult) (now : N)
| PutSettles (r : PutResult).

Definition step (st : State) (i : Input) : State :=
  match i, inflight st with
  | ClickGenerate, _ => generate st
  | SongArrives r, AwaitSong message voiceChoice finalCharacter :: rest =>
      generate_song message voiceChoice finalCharacter r (set_inflight rest st)
  | ImagesArrive respond now,
    AwaitImages message voiceChoice finalCharacter songStructure instrumental :: rest =>
      generate_images message voiceChoice finalCharacter songStructure instrumental
        respond now (set_inflight rest st)
  | PutSettles r, AwaitPut tiktok :: rest =>
      generate_saved tiktok r (set_inflight rest st)
  | _, _ => st
  end.

Definition run (st : State) (inputs : list Input) : State := foldl step st inputs.

(** ** Playback controls *)

(** The variables that the closures of one call of [startSlideshow]
    share: the short found in [savedTikToks], the active container and
    the index of the slide being narrated. *)
Record Session := {
  playing : TikTok;
  playingIn : Container;
  currentSlideIndex : nat;
}.

Definition advance (s : Session) : Session :=
  {| playing := playing s; playingIn := playingIn s;
     currentSlideIndex := S (currentSlideIndex s) |}.

(** The voice of the utterance: the one named by the short when the
    engine has it, the engine's default otherwise. *)
Definition selectedVoice (tiktok : TikTok) (st : State) : option jsstring :=
  match voiceName tiktok with
  | Some (c :: name) =>
      if bool_decide (c :: name ∈ voices st) then Some (c :: name) else None
  | _ => None
  end.

(** [speechSynthesis.speak(utterance)] *)
Definition speak (text : jsstring) (voice : option jsstring) (st : State) : State :=
  set_speaking true (emit (Speak text voice) st).

(** [slide?.scrollIntoView(...)] on [slider.children[index]] *)
Definition scrollSlideIntoView (s : Session) (st : State) : State :=
  match slider (playingIn s) !! currentSlideIndex s with
  | Some _ => emit (ScrollSlideIntoView (tiktokId (playingIn s)) (currentSlideIndex s)) st
  | None => st
  end.

Equations? speakAndAdvance (s : Session) (st : State) : Session * State
  by wf (length (slides (playing s)) - currentSlideIndex s)%nat lt :=
speakAndAdvance s st with inspect (slides (playing s) !! currentSlideIndex s) := {
  | exist _ None _ := (s, stopSlideshow st)
  | exist _ (Some slide) Hslide :=
      if negb (isPlaying st) then (s, stopSlideshow st)
      else
        let st := scrollSlideIntoView s st in
        if bool_decide (trim (lyrics slide) = []) then speakAndAdvance (advance s) st
        else (s, speak (lyrics slide) (selectedVoice (playing s) st) st) }.
Proof.
  apply lookup_lt_Some in Hslide. simpl. lia.
Qed.

(** [utterance.onend]; the engine has finished its only utterance. *)
Definition utterance_onend (s : Session) (st : State) : Session * State :=
  speakAndAdvance (advance s) (set_speaking false st).

(** [utterance.onerror], for [e.error] *)
Definition utterance_onerror (s : Session) (e : jsstring) (st : State) : State :=
  if bool_decide (e = lit "canceled") || bool_decide (e = lit "interrupted") then
    emit (Console (lit "Speech synthesis event: " ++ e)) st
  else
    let st := emit (Console (lit "SpeechSynthesis Error:")) st in
    let st := showErrorPopup (lit "Speech synthesis failed: " ++ e) st in
    stopSlideshow st.

Definition startSlideshow (st : State) : option Session * State :=
  match activeTikTokContainer st with
  | None => (None, st)
  | Some container =>
      match list_find (λ t, id t = tiktokId container) (savedTikToks st) with
      | Some (_, tiktok) =>
          if bool_decide (length (slider container) = 0%nat) then (None, st)
          else
            let st := stopSlideshow st in
            let st := set_isPlaying true st in
            let st := set_slideshowPaused false st in
            let (s, st) := speakAndAdvance
              {| playing := tiktok; playingIn := container; currentSlideIndex := 0 |} st in
            (Some s, st)
      | None => (None, st)
      end
  end.

(** The speech engine completing [n] utterances in a row: [onend] is
    delivered while a slide is being narrated. *)
Fixpoint completions (n : nat) (s : Session) (st : State) : Session * State :=
  match n with
  | O => (s, st)
  | S n =>
      if isPlaying st then
        let (s, st) := utterance_onend s st in completions n s st
      else (s, st)
  end.

(** A text that is empty or made of white space only. *)
Definition whitespaceOnly (text : jsstring) : bool := forallb isWhiteSpace text.

(** The slides from the one being narrated on. *)
Definition remaining (s : Session) : list SlideData :=
  drop (currentSlideIndex s) (slides (playing s)).

(** The texts handed to the speech engine, oldest first. *)
Definition spoken (effects : list Effect) : list jsstring :=
  omap (λ e, match e with Speak text _ => Some text | _ => None end) effects.

(** ** Sequences of loads and saves *)

Inductive Operation :=
| LoadFromStore (r : GetAllResult)
| Save (tiktok : TikTok) (r : PutResult).

Definition perform (st : State) (op : Operation) : State :=
  match op with
  | LoadFromStore r => (loadHistoryFromDB r st).1
  | Save tiktok r => saveAndRenderNewTikTok tiktok r st
  end.

Definition performAll (st : State) (ops : list Operation) : State :=
  foldl perform st ops.

(** ** Vocabulary of the statements *)

(** The object store keeps each record under its own [id], every record
    has a slide, and every key is below [bound]. *)
Definition well_kept (bound : N) (persisted : gmap N TikTok) : Prop :=
  ∀ k tiktok, persisted !! k = Some tiktok →
    id tiktok = k ∧ slides tiktok ≠ [] ∧ k < bound.

(** Every short saved has a slide and an [id] that is at least [bound]
    and above the [id]s of the shorts saved before it. *)
Fixpoint saves_increasing (bound : N) (ops : list Operation) : Prop :=
  match ops with
  | [] => True
  | LoadFromStore _ :: ops => saves_increasing bound ops
  | Save tiktok _ :: ops =>
      bound ≤ id tiktok ∧ slides tiktok ≠ [] ∧ saves_increasing (id tiktok + 1) ops
  end.

(** Strictly descending numbers. *)
Definition descending (ids : list N) : Prop := StronglySorted (λ a b, b < a) ids.

(** The gallery shows the in-memory list, which is newest first and as
    long as the store is large. *)
Definition gallery_in_step (bound : N) (st : State) : Prop :=
  db st = true
  ∧ well_kept bound (store st)
  ∧ thumbnail <$> savedTikToks st = Some <$> historyGallery st
  ∧ descending (id <$> savedTikToks st)
  ∧ Forall (λ k, k < bound) (id <$> savedTikToks st)
  ∧ length (savedTikToks st) = size (store st).

(** No generation under way. *)
Definition idle (st : State) : Prop := isGenerating st = false ∧ inflight st = [].

(** At most one invocation is suspended, the busy flag is set exactly
    while one is, and the invocation found a client when it started. *)
Definition exclusive (st : State) : Prop :=
  match inflight st with
  | [] => isGenerating st = false
  | [_] => isGenerating st = true ∧ ai st = true
  | _ => False
  end.

(** The prompts of the image requests sent so far, oldest first. *)
Definition imageRequests (effects : list Effect) : list jsstring :=
  omap (λ e, match e with ImageRequest p => Some p | _ => None end) effects.

(** The records handed to [store.put] so far. *)
Definition storePuts (effects : list Effect) : list TikTok :=
  omap (λ e, match e with StorePut t => Some t | _ => None end) effects.

(** The promise of [generateImageFromPrompt] rejects on this answer. *)
Definition rejects (r : ImageResult) : Prop :=
  ∃ e, generateImageFromPrompt_settle r = inr e.

(** The answers to the text request on which there is no song: the text
    is absent, it does not parse, or what it parses to has no slide. *)
Inductive NoSong : SongResult → Prop :=
| request_rejected e : NoSong (SongRejected e)
| text_absent e : NoSong (SongUnparsed None e)
| text_unparseable text e : NoSong (SongUnparsed (Some text) e)
| parsed_null : NoSong (SongParsed None)
| slides_missing style :
    NoSong (SongParsed (Some {| song_slides := None; music_style := style |}))
| slides_empty style :
    NoSong (SongParsed (Some {| song_slides := Some []; music_style := style |})).

End App.

(** The user typing: the input element takes a new value. *)
Definition typed (text : jsstring) (st : State) : State :=
  mkState (isPlaying st) (isGenerating st) (selectedStyle st) (savedTikToks st)
    (activeTikTokContainer st) (backgroundAudio st) (ai st) (db st) (store st)
    text (voiceSelector st) (characterSelector st)
    (customCharacterInput st) (slideshow st) (slideshowHidden st)
    (initialMessageHidden st) (historyGallery st) (errorModal st)
    (generateBtnDisabled st) (generateBtnText st) (slideshowPaused st)
    (speaking st) (voices st) (audioElements st) (log st) (inflight st).

(** ** Sample data *)

Definition sampleShort (n : N) : TikTok :=
  {| id := n;
     slides := [ {| lyrics := lit "The sky is blue"; imageSrc := lit "data:image/png;base64,AAAA" |} ];
     character := lit "cat"; prompt := lit "Why is the sky blue?";
     instrumentalId := Some (lit "beat-upbeat"); voiceName := Some (lit "Alice");
     element := None |}.

Definition sampleQuestion : jsstring := lit "Why is the sky blue?".

(** A short of three slides, the second without text, and a playback of
    it about to start on the page [st]. *)
Definition threeSlides : TikTok :=
  {| id := 1700000000000;
     slides := [ {| lyrics := lit "The sky is blue"; imageSrc := lit "data:image/png;base64,AAAA" |};
                 {| lyrics := lit "  "; imageSrc := lit "data:image/png;base64,BBBB" |};
                 {| lyrics := lit "Light scatters"; imageSrc := lit "data:image/png;base64,CCCC" |} ];
     character := lit "cat"; prompt := lit "Why is the sky blue?";
     instrumentalId := Some (lit "beat-upbeat"); voiceName := Some (lit "Alice");
     element := None |}.

Definition fromTheStart : Session :=
  {| playing := threeSlides;
     playingIn := {| tiktokId := 1700000000000; slider := [] |};
     currentSlideIndex := 0 |}.

Definition sampleSong : SongStructure :=
  {| song_slides := Some
       [ {| song_lyrics := lit "The sky is blue"; image_prompt := lit "a blue sky" |};
         {| song_lyrics := lit "Light scatters"; image_prompt := lit "sun rays" |} ];
     music_style := Some (lit "upbeat pop") |}.

Definition okImage : ImageResult :=
  ImageResponse
    [ {| inlineData := None |};
      {| inlineData := Some {| data := lit "AAAA"; mimeType := lit "image/png" |} |} ].

(** The page once the database is open, with a question typed in:
    nothing generated, nothing playing, a client installed, the three
    audio tracks present. *)
Definition freshPage (persisted : gmap N TikTok) : State :=
  {| isPlaying := false; isGenerating := false; selectedStyle := lit "storybook";
     savedTikToks := []; activeTikTokContainer := None; backgroundAudio := None;
     ai := true; db := true; store := persisted;
     userInput := sampleQuestion; voiceSelector := lit "Alice";
     characterSelector := lit "cat"; customCharacterInput := [];
     slideshow := []; slideshowHidden := true; initialMessageHidden := false;
     historyGallery := []; errorModal := None;
     generateBtnDisabled := false; generateBtnText := lit "Generate Shorts";
     slideshowPaused := false; speaking := false; voices := [lit "Alice"];
     audioElements := [lit "beat-upbeat"; lit "beat-ballad"; lit "beat-epic"];
     log := []; inflight := [] |}.

(** * The rest of the page *)

(** ** More assignments *)

Definition set_ai (v : bool) (st : State) : State :=
  mkState (isPlaying st) (isGenerating st) (selectedStyle st)
    (savedTikToks st) (activeTikTokContainer st) (backgroundAudio st) v
    (db st) (store st) (userInput st) (voiceSelector st)
    (characterSelector st) (customCharacterInput st) (slideshow st)
    (slideshowHidden st) (initialMessageHidden st) (historyGallery st)
    (errorModal st) (generateBtnDisabled st) (generateBtnText st)
    (slideshowPaused st) (speaking st) (voices st) (audioElements st) (log st)
    (inflight st).
Definition set_selectedStyle (v : jsstring) (st : State) : State :=
  mkState (isPlaying st) (isGenerating st) v (savedTikToks st)
    (activeTikTokContainer st) (backgroundAudio st) (ai st) (db st) (store st)
    (userInput st) (voiceSelector st) (characterSelector st)
    (customCharacterInput st) (slideshow st) (slideshowHidden st)
    (initialMessageHidden st) (historyGallery st) (errorModal st)
    (generateBtnDisabled st) (generateBtnText st) (slideshowPaused st)
    (speaking st) (voices st) (audioElements st) (log st) (inflight st).
Definition set_activeTikTokContainer (v : option Container) (st : State) : State :=
  mkState (isPlaying st) (isGenerating st) (selectedStyle st)
    (savedTikToks st) v (backgroundAudio st) (ai st) (db st) (store st)
    (userInput st) (voiceSelector st) (characterSelector st)
    (customCharacterInput st) (slideshow st) (slideshowHidden st)
    (initialMessageHidden st) (historyGallery st) (errorModal st)
    (generateBtnDisabled st) (generateBtnText st) (slideshowPaused st)
    (speaking st) (voices st) (audioElements st) (log st) (inflight st).

Definition set_db (v : bool) (st : State) : State :=
  mkState (isPlaying st) (isGenerating st) (selectedStyle st)
    (savedTikToks st) (activeTikTokContainer st) (backgroundAudio st) (ai st) v
    (store st) (userInput st) (voiceSelector st) (characterSelector st)
    (customCharacterInput st) (slideshow st) (slideshowHidden st)
    (initialMessageHidden st) (historyGallery st) (errorModal st)
    (generateBtnDisabled st) (generateBtnText st) (slideshowPaused st)
    (speaking st) (voices st) (audioElements st) (log st) (inflight st).
Definition set_characterSelector (v : jsstring) (st : State) : State :=
  mkState (isPlaying st) (isGenerating st) (selectedStyle st)
    (savedTikToks st) (activeTikTokContainer st) (backgroundAudio st) (ai st)
    (db st) (store st) (userInput st) (voiceSelector st) v
    (customCharacterInput st) (slideshow st) (slideshowHidden st)
    (initialMessageHidden st) (historyGallery st) (errorModal st)
    (generateBtnDisabled st) (generateBtnText st) (slideshowPaused st)
    (speaking st) (voices st) (audioElements st) (log st) (inflight st).
Definition set_customCharacterInput (v : jsstring) (st : State) : State :=
  mkState (isPlaying st) (isGenerating st) (selectedStyle st)
    (savedTikToks st) (activeTikTokContainer st) (backgroundAudio st) (ai st)
    (db st) (store st) (userInput st) (voiceSelector st)
    (characterSelector st) v (slideshow st) (slideshowHidden st)
    (initialMessageHidden st) (historyGallery st) (errorModal st)
    (generateBtnDisabled st) (generateBtnText st) (slideshowPaused st)
    (speaking st) (voices st) (audioElements st) (log st) (inflight st).

Section Page.
Context {U : Unicode}.

(** ** API key management *)

Definition API_KEY_STORAGE_KEY : jsstring := lit "gemini_api_key".

(** [getApiKey()], for [process.env.API_KEY] and the local storage of
    the browser: a stored key counts when it is not the empty string. *)
Definition getApiKey (API_KEY : option jsstring) (localStorage : gmap jsstring jsstring)
  : option jsstring :=
  match localStorage !! API_KEY_STORAGE_KEY with
  | Some (c :: storedKey) => Some (c :: storedKey)
  | _ => API_KEY
  end.

(** [initializeGenAI()].  [construct apiKey] is what [new GoogleGenAI]
    does with the key: [None] when it returns a client, [Some e] when it
    throws, with [e] for [String(e)]. *)
Definition initializeGenAI (construct : jsstring → option jsstring)
    (API_KEY : option jsstring) (localStorage : gmap jsstring jsstring)
    (st : State) : State :=
  match getApiKey API_KEY localStorage with
  | Some (c :: apiKey) =>
      match construct (c :: apiKey) with
      | None => set_ai true st
      | Some e =>
          showErrorPopup (lit "Failed to initialize Gemini Client: " ++ e)
            (set_ai false st)
      end
  | _ =>
      emit (Console (lit "Gemini API key not found. Please add one using the settings."))
        (set_ai false st)
  end.

(** [openApiKeyModal()]: the value shown in the key input. *)
Definition openApiKeyModal (localStorage : gmap jsstring jsstring) : jsstring :=
  match localStorage !! API_KEY_STORAGE_KEY with
  | Some (c :: storedKey) => c :: storedKey
  | _ => []
  end.

(** [handleSaveApiKey()], for the value of the key input.  The classes
    of the key modal and of the overlay, which [closeApiKeyModal]
    toggles, are not part of the state. *)
Definition handleSaveApiKey (construct : jsstring → option jsstring)
    (API_KEY : option jsstring) (apiKeyInput : jsstring)
    (localStorage : gmap jsstring jsstring) (st : State)
  : gmap jsstring jsstring * State :=
  let newKey := trim apiKeyInput in
  let localStorage :=
    match newKey with
    | _ :: _ => <[API_KEY_STORAGE_KEY := newKey]> localStorage
    | [] => delete API_KEY_STORAGE_KEY localStorage
    end in
  (localStorage, initializeGenAI construct API_KEY localStorage st).

(** ** Theme management *)

(** The class [light-mode] of the body and the [style.display] of the
    two icons of the toggle, when the toggle and both icons exist. *)
Record Theme := {
  lightMode : bool;
  icons : option (jsstring * jsstring);
}.

Definition updateThemeIcons (isLight : bool) (theme : Theme) : Theme :=
  match icons theme with
  | Some _ =>
      {| lightMode := lightMode theme;
         icons := Some (if isLight then lit "none" else lit "block",
                        if isLight then lit "block" else lit "none") |}
  | None => theme
  end.

Definition setupTheme (localStorage : gmap jsstring jsstring) (theme : Theme) : Theme :=
  if bool_decide (localStorage !! lit "theme" = Some (lit "light")) then
    updateThemeIcons true {| lightMode := true; icons := icons theme |}
  else updateThemeIcons false theme.

Definition toggleTheme (localStorage : gmap jsstring jsstring) (theme : Theme)
  : gmap jsstring jsstring * Theme :=
  let isLight := negb (lightMode theme) in
  (<[lit "theme" := if isLight then lit "light" else lit "dark"]> localStorage,
   updateThemeIcons isLight {| lightMode := isLight; icons := icons theme |}).

(** ** Voice population *)

Record Voice := { voice_name : jsstring; lang : jsstring }.

Record VoiceOption := { option_value : jsstring; option_text : jsstring }.

(** [populateVoices()]: the options of the voice selector, for the
    voices the engine lists. *)
Definition populateVoices (getVoices : list Voice) : list VoiceOption :=
  (λ voice, {| option_value := voice_name voice;
               option_text := voice_name voice ++ lit " (" ++ lang voice ++ lit ")" |})
  <$> filter (λ voice, startsWith (lang voice) (lit "en") = true) getVoices.

(** ** Event listeners *)

(** The click on a style button, for its [dataset.style] when it has
    one; the class [selected] of the buttons is not part of the state. *)
Definition styleClick (style : option jsstring) (st : State) : State :=
  match style with
  | Some (c :: style) => set_selectedStyle (c :: style) st
  | _ => st
  end.

(** The change of the examples selector, for its value; the selector
    going back to its first entry is not part of the state. *)
Definition examplesChange (value : jsstring) (st : State) : State :=
  match value with
  | _ :: _ => generate (typed value st)
  | [] => st
  end.

(** The click on a thumbnail of the gallery, for its
    [dataset.tiktokId]: the element scrolled into view, if any. *)
Definition galleryClick (thumbId : N) (st : State) : option Container :=
  match list_find (λ l, id l = thumbId) (savedTikToks st) with
  | Some (_, tiktok) => element tiktok
  | None => None
  end.

(** The change of the narrator selector to [value]: the custom input
    is emptied unless the new value is the empty string.  Its [disabled]
    flag and the focus are not part of the state. *)
Definition characterChange (value : jsstring) (st : State) : State :=
  let st := set_characterSelector value st in
  if bool_decide (characterSelector st = lit "custom") then
    set_customCharacterInput [] st
  else
    match characterSelector st with
    | _ :: _ => set_customCharacterInput [] st
    | [] => st
    end.

(** What a click in the feed lands on: the replay button, another
    action icon, or anything else. *)
Inductive ClickTarget := ReplayButton | OtherAction | Elsewhere.

(** [handleReplay()]; [true] when the timer that calls
    [startSlideshow] half a second later has been set.  The scroll of
    the slider back to its first slide is not part of the state. *)
Definition handleReplay (st : State) : State * bool :=
  match activeTikTokContainer st with
  | None => (st, false)
  | Some _ => (stopSlideshow st, true)
  end.

(** The click listener of the feed: the session started, if any, the
    state, and whether the replay timer has been set. *)
Definition slideshowClick (target : ClickTarget) (st : State)
  : option Session * State * bool :=
  match target with
  | ReplayButton => let (st, timer) := handleReplay st in (None, st, timer)
  | OtherAction => (None, st, false)
  | Elsewhere =>
      if isPlaying st then (None, stopSlideshow st, false)
      else let (s, st) := startSlideshow st in (s, st, false)
  end.

(** ** The parsed response, member by member *)

(** The objects that [JSON.parse] returns on a response of this kind:
    [slides], when present, is an array of objects with a string for
    [lyrics] and, when present, a string for [image_prompt];
    [music_style], when present, is a string. *)
Record ParsedSlide := {
  parsed_lyrics : jsstring;
  parsed_image_prompt : option jsstring;
}.

Record ParsedSong := {
  parsed_slides : option (list ParsedSlide);
  parsed_music_style : option jsstring;
}.

(** The structure that the [responseSchema] of the text request
    describes: [slides] and [music_style] are there, and every slide has
    its [image_prompt]. *)
Definition expectedStructure (response : ParsedSong) : Prop :=
  is_Some (parsed_music_style response)
  ∧ ∃ slides, parsed_slides response = Some slides
      ∧ Forall (λ slide, is_Some (parsed_image_prompt slide)) slides.

(** The object as [generate] reads it.  [s.image_prompt] is
    [undefined] on a slide without the member, and the only use of the
    value is the template literal of [generateImageFromPrompt], which
    renders it as the text [undefined]. *)
Definition asRead (response : ParsedSong) : SongStructure :=
  {| song_slides :=
       (λ items : list ParsedSlide,
          (λ slide,
             {| song_lyrics := parsed_lyrics slide;
                image_prompt := default (lit "undefined") (parsed_image_prompt slide) |})
          <$> items)
       <$> parsed_slides response;
     music_style := parsed_music_style response |}.

(** ** Initialization *)

(** What [indexedDB.open] comes to. *)
Inductive OpenResult := OpenSucceeds | OpenFails (e : jsstring).

(** The page as [init] sets it up: the state, the theme, the options
    of the voice selector, whether [setupEventListeners] and
    [setupTikTokObserver] have run, and whether [onvoiceschanged] is
    set. *)
Record Page := {
  page_state : State;
  page_theme : Theme;
  page_voices : list VoiceOption;
  page_listening : bool;
  page_watching : bool;
}.

(** [init()], with [initDB] inlined: the promise of [initDB] rejects
    when the database does not open, and the [catch] of [init] reports
    whatever rejected.  A promise that never settles leaves [init]
    suspended at its [await]. *)
Definition init (opened : OpenResult) (construct : jsstring → option jsstring)
    (API_KEY : option jsstring) (localStorage : gmap jsstring jsstring)
    (r : GetAllResult) (getVoices : list Voice) (p : Page) : Page * Settled :=
  let failed st :=
    showErrorPopup (lit "Application failed to start. Could not access storage.")
      (emit (Console (lit "Initialization failed:")) st) in
  match opened with
  | OpenFails e =>
      ({| page_state := failed (emit (Console (lit "IndexedDB error:")) (page_state p));
          page_theme := page_theme p; page_voices := page_voices p;
          page_listening := page_listening p; page_watching := page_watching p |},
       Resolves)
  | OpenSucceeds =>
      let st := set_db true (page_state p) in
      let st := initializeGenAI construct API_KEY localStorage st in
      match loadHistoryFromDB r st with
      | (st, Resolves) =>
          ({| page_state := st;
              page_theme := setupTheme localStorage (page_theme p);
              page_voices := populateVoices getVoices;
              page_listening := true; page_watching := true |},
           Resolves)
      | (st, Rejects e) =>
          ({| page_state := failed st;
              page_theme := page_theme p; page_voices := page_voices p;
              page_listening := true; page_watching := page_watching p |},
           Resolves)
      | (st, NeverSettles) =>
          ({| page_state := st;
              page_theme := page_theme p; page_voices := page_voices p;
              page_listening := true; page_watching := page_watching p |},
           NeverSettles)
      end
  end.

(** ** Vocabulary of the further statements *)

(** The narrator [generate] settles on: the custom text when the
    selector says [custom], the value of the selector otherwise. *)
Definition narratorOf (st : State) : jsstring :=
  if bool_decide (characterSelector st = lit "custom") then trim (customCharacterInput st)
  else characterSelector st.

(** The feed item [addTikTokToFeed] builds for a short. *)
Definition feedItem (tiktok : TikTok) : Container :=
  {| tiktokId := id tiktok;
     slider := (λ slideData,
                  createSlideElement slideData (prompt tiktok) (character tiktok))
               <$> slides tiktok |}.

(** The short [generate] assembles from a song and its images. *)
Definition assembled (now : N) (st : State) (songData : SongStructure)
    (songStructure : list SongSlide) (images : list jsstring) : TikTok :=
  {| id := now;
     slides := zip_with (λ part image,
                           {| lyrics := song_lyrics part; imageSrc := image |})
                        songStructure images;
     character := narratorOf st;
     prompt := trim (userInput st);
     instrumentalId := Some (selectBeatForStyle (musicStyle songData));
     voiceName := Some (voiceSelector st);
     element := None |}.

(** The audio tracks playing after these effects: [play] starts one,
    [pause] stops it. *)
Definition audible (effects : list Effect) : list jsstring :=
  foldl (λ playing e,
           match e with
           | AudioPlay audio => audio :: filter (λ a, a ≠ audio) playing
           | AudioPause audio => filter (λ a, a ≠ audio) playing
           | _ => playing
           end) [] effects.

(** The utterances handed to the speech engine, oldest first, each with
    the voice set on it (none: the voice of the engine). *)
Definition utterances (effects : list Effect) : list (jsstring * option jsstring) :=
  omap (λ e, match e with Speak text voice => Some (text, voice) | _ => None end) effects.

(** The text requests sent so far. *)
Definition textRequests (effects : list Effect) : list jsstring :=
  omap (λ e, match e with TextRequest contents => Some contents | _ => None end) effects.

(** The feed shows the in-memory list: one item per short, in the same
    order, each short holding its item as [element], and each item one
    slide element per slide. *)
Definition feed_in_step (st : State) : Prop :=
  element <$> savedTikToks st = Some <$> slideshow st
  ∧ Forall (λ tiktok, ∀ item, element tiktok = Some item →
              tiktokId item = id tiktok
              ∧ length (slider item) = length (slides tiktok))
           (savedTikToks st).

(** Saves only, and loads that fail. *)
Definition no_reload (ops : list Operation) : Prop :=
  Forall (λ op, op ≠ LoadFromStore GetAllSucceeds) ops.

(** Every short saved has a slide. *)
Definition saves_with_slides (ops : list Operation) : Prop :=
  Forall (λ op, match op with Save tiktok _ => slides tiktok ≠ [] | _ => True end) ops.

(** The short as the feed holds it: with its feed item as [element]. *)
Definition shown_in_feed (tiktok : TikTok) : TikTok :=
  set_element (feedItem tiktok) tiktok.

(** An effect that is no call to an audio element, and a stretch of
    the program that makes no such call and leaves [backgroundAudio]
    alone. *)
Definition silent (e : Effect) : Prop :=
  match e with AudioPlay _ | AudioPause _ => False | _ => True end.

Definition quiet (st st' : State) : Prop :=
  backgroundAudio st' = backgroundAudio st
  ∧ ∃ extra, log st' = log st ++ extra ∧ Forall silent extra.

(** Whatever track is playing is the one [backgroundAudio] points to. *)
Definition current_track_only (st : State) : Prop :=
  ∀ audio, audio ∈ audible (log st) → backgroundAudio st = Some audio.

End Page.

(** ** More sample data *)

Definition sampleVoices : list Voice :=
  [ {| voice_name := lit "Alice"; lang := lit "en-GB" |};
    {| voice_name := lit "Amelie"; lang := lit "fr-FR" |};
    {| voice_name := lit "Daniel"; lang := lit "en-US" |} ].

(** A page that shows [threeSlides], its feed item being the active
    one. *)
Definition sampleItem : Container := feedItem (U := BasicLatin) threeSlides.

Definition watching : State :=
  set_activeTikTokContainer (Some sampleItem)
    (set_slideshow [sampleItem]
       (set_savedTikToks [set_element sampleItem threeSlides] (freshPage ∅))).

(** The page while the song of a first generation is awaited. *)
Definition awaitingSong : State := run (U := BasicLatin) (freshPage ∅) [ClickGenerate].

Definition sampleImage : jsstring := lit "data:image/png;base64,AAAA".

(** A short that has lost its slides. *)
Definition emptyShort : TikTok :=
  {| id := 1700000001000; slides := [];
     character := lit "cat"; prompt := lit "Why is the sky blue?";
     instrumentalId := Some (lit "beat-upbeat"); voiceName := Some (lit "Alice");
     element := None |}.

(** * Properties *)

Arguments lit : simpl never.
Arguments Error : simpl never.
Arguments getInstructionsForSong : simpl never.
Arguments selectBeatForStyle : simpl never.
Arguments finalPrompt : simpl never.
Arguments trim : simpl never.

(** Closed decidable statements are settled by evaluation. *)
Ltac decide_closed :=
  match goal with |- ?P => apply (bool_decide_unpack P); vm_compute; exact I end.

(** ** Strings *)

Lemma startsWith_prefix (s kw : jsstring) :
  startsWith s kw = true ↔ ∃ after, s = kw ++ after.
Proof.
  revert s. induction kw as [|k kw IH]; intros s; simpl.
  - split; [intros _; by exists s | done].
  - destruct s as [|c s]; simpl.
    + split; [done | intros [after H]; discriminate].
    + rewrite andb_true_iff, N.eqb_eq, IH. split.
      * intros [-> [after ->]]. by exists after.
      * intros [after H]. injection H as -> ->. eauto.
Qed.

Lemma includes_infix (s kw : jsstring) :
  includes s kw = true ↔ ∃ before after, s = before ++ kw ++ after.
Proof.
  induction s as [|c s IH]; simpl; rewrite orb_true_iff, startsWith_prefix.
  - split.
    + intros [[after H] | ?]; [|done]. by exists [], after.
    + intros ([|? before] & after & H); [|discriminate]. left. by exists after.
  - rewrite IH. split.
    + intros [[after H] | (before & after & ->)].
      * by exists [], after.
      * by exists (c :: before), after.
    + intros ([|c' before] & after & H).
      * left. by exists after.
      * right. injection H as -> ->. by exists before, after.
Qed.

Lemma trimStart_idemp (s : jsstring) : trimStart (trimStart s) = trimStart s.
Proof.
  induction s as [|c s IH]; simpl; [done|].
  destruct (isWhiteSpace c) eqn:Hc; [done|]. simpl. by rewrite Hc.
Qed.

Lemma trimStart_nil (s : jsstring) :
  trimStart s = [] ↔ forallb isWhiteSpace s = true.
Proof.
  induction s as [|c s IH]; simpl; [done|].
  destruct (isWhiteSpace c); simpl; [done|]. split; discriminate.
Qed.

(** [lyrics.trim()] is empty exactly when [lyrics] is empty or made of
    white space only. *)
Lemma trim_nil (s : jsstring) : trim s = [] ↔ forallb isWhiteSpace s = true.
Proof.
  unfold trim, trimEnd. rewrite <- trimStart_nil. split.
  - intros H. apply (f_equal reverse) in H. rewrite reverse_involutive in H.
    change (reverse []) with (@nil N) in H.
    destruct (trimStart s) as [|c t] eqn:Ht; [done|].
    assert (forallb isWhiteSpace (reverse (c :: t)) = true) as Hall
      by (by apply trimStart_nil).
    rewrite forallb_forall in Hall.
    specialize (Hall c). rewrite <- list_elem_of_In, elem_of_reverse in Hall.
    specialize (Hall ltac:(left)).
    destruct s as [|c' s']; [done|]. simpl in Ht.
    destruct (isWhiteSpace c') eqn:Hc'.
    + exfalso. clear -Ht Hall. induction s' as [|x s' IH]; simpl in Ht; [done|].
      destruct (isWhiteSpace x) eqn:Hx; [auto|]. injection Ht as -> _. congruence.
    + injection Ht as -> _. congruence.
  - intros ->. done.
Qed.

Section Track.
Context {U : Unicode}.

(** ** The background track *)

Lemma includes_mentions (style kw : jsstring) :
  includes (toLowerCase style) kw = true ↔ mentions style kw.
Proof. apply includes_infix. Qed.

Lemma existsb_mentions (style : jsstring) (kws : list jsstring) :
  existsb (includes (toLowerCase style)) kws = true ↔ Exists (mentions style) kws.
Proof.
  rewrite existsb_exists, Exists_exists. split.
  - intros (kw & Hin & H). exists kw. by rewrite list_elem_of_In, <- includes_mentions.
  - intros (kw & Hin & H). exists kw. by rewrite <- list_elem_of_In, includes_mentions.
Qed.

Lemma picks_first_match (style : jsstring) groups (track : jsstring) :
  picks style groups track ↔ first_match style groups = track.
Proof.
  split.
  - induction 1 as [|kws track rest Hex|kws track rest track' Hall _ IH]; simpl.
    + done.
    + apply existsb_mentions in Hex. by rewrite Hex.
    + destruct (existsb _ kws) eqn:Hex; [|done].
      apply existsb_mentions, Exists_exists in Hex as (kw & Hin & Hkw).
      rewrite Forall_forall in Hall. by destruct (Hall kw Hin).
  - revert track. induction groups as [|[kws t] rest IH]; intros track; simpl.
    + intros <-. constructor.
    + destruct (existsb _ kws) eqn:Hex.
      * intros <-. apply picks_here. by apply existsb_mentions.
      * intros H. apply picks_later; [|by apply IH].
        apply Forall_forall. intros kw Hin Hkw.
        assert (existsb (includes (toLowerCase style)) kws = true) as Hex'; [|congruence].
        apply existsb_mentions, Exists_exists. eauto.
Qed.

Lemma selectBeatForStyle_first_match (style : jsstring) :
  selectBeatForStyle style = first_match style keyword_groups.
Proof.
  unfold selectBeatForStyle, first_match, keyword_groups, existsb.
  rewrite !orb_false_r, !orb_assoc. reflexivity.
Qed.

(** C3.  For every [music_style] the track is the one of the first
    keyword group, in the order upbeat, ballad, epic, of which a keyword
    occurs in the lower-cased style, and track A when there is none; the
    choice depends on the style only through its lower-cased form. *)
Theorem selectBeatForStyle_priority (style : jsstring) :
  (∀ track, picks style keyword_groups track ↔ selectBeatForStyle style = track)
  ∧ (∀ style', toLowerCase style' = toLowerCase style →
               selectBeatForStyle style' = selectBeatForStyle style).
Proof.
  split.
  - intros track. by rewrite selectBeatForStyle_first_match, picks_first_match.
  - intros style' H. unfold selectBeatForStyle. by rewrite H.
Qed.

End Track.

Lemma selectBeatForStyle_priority_witness :
  selectBeatForStyle (U := BasicLatin) (lit "Epic POP")
  = selectBeatForStyle (U := BasicLatin) (lit "epic pop").
Proof.
  apply (proj2 (selectBeatForStyle_priority (U := BasicLatin) (lit "epic pop"))).
  reflexivity.
Defined.

Example epic_pop_is_upbeat :
  selectBeatForStyle (U := BasicLatin) (lit "Epic Pop") = track_A.
Proof. reflexivity. Qed.

Example gentle_epic_is_ballad :
  selectBeatForStyle (U := BasicLatin) (lit "A GENTLE, epic score") = track_B.
Proof. reflexivity. Qed.

Example jazz_is_default :
  selectBeatForStyle (U := BasicLatin) (lit "smooth jazz") = track_A.
Proof. reflexivity. Qed.

(** ** The narrator *)

Section Narrator.
Context {U : Unicode}.

Lemma logicName_emoji (c : N) (rest : jsstring) :
  Emoji c = true → logicName (c :: rest) = trim rest.
Proof.
  intros H. unfold logicName, stripLeadingEmoji. rewrite H.
  unfold trim. by rewrite trimStart_idemp.
Qed.

Lemma characterSpecifics_generic (character : jsstring) :
  toLowerCase (logicName character) ∉ curatedNarrators →
  characterSpecifics character = genericSpecifics (capitalize (logicName character)).
Proof.
  intros H. unfold characterSpecifics.
  repeat case_bool_decide; try done; exfalso; apply H; unfold curatedNarrators;
    set_solver.
Qed.

(** C4, as amended.  For a narrator that does not begin with a digit,
    [#] or [*]: a first code point with the Emoji property, with the
    white space after it, is dropped and the rest is trimmed, and a
    narrator whose first code point does not have the property, or that
    is empty, is trimmed as it is; the name so obtained is matched in
    lower case against spider-man, barbie and simba; any other name gets
    the generic template, which names it with its first character in
    upper case and the rest as typed when that character is below
    U+10000, and as it is when the name is empty or begins with a
    character from U+10000 on. *)
Theorem getInstructionsForSong_narrator (character : jsstring) :
  startsWithKeycapBase character = false →
  let name := logicName character in
  getInstructionsForSong character = baseInstructions ++ lit " " ++ characterSpecifics character
  ∧ (∀ c rest, character = c :: rest → Emoji c = true → name = trim rest)
  ∧ (∀ c rest, character = c :: rest → Emoji c = false → name = trim character)
  ∧ (character = [] → name = [])
  ∧ (toLowerCase name = lit "spider-man" → characterSpecifics character = spiderManSpecifics)
  ∧ (toLowerCase name = lit "barbie" → characterSpecifics character = barbieSpecifics)
  ∧ (toLowerCase name = lit "simba" → characterSpecifics character = simbaSpecifics)
  ∧ (toLowerCase name ∉ curatedNarrators →
     characterSpecifics character = genericSpecifics (capitalize name)
     ∧ (∀ c rest, name = c :: rest → c < 65536 →
                  capitalize name = toUpperCase [c] ++ rest)
     ∧ (∀ c rest, name = c :: rest → 65536 ≤ c → capitalize name = name)
     ∧ (name = [] → capitalize name = [])).
Proof.
  intros _ name. split_and!.
  - done.
  - intros c rest -> H. by apply logicName_emoji.
  - intros c rest -> H. subst name. unfold logicName, stripLeadingEmoji. by rewrite H.
  - by intros ->.
  - intros H. unfold characterSpecifics. fold name. rewrite H. done.
  - intros H. unfold characterSpecifics. fold name. rewrite H. done.
  - intros H. unfold characterSpecifics. fold name. rewrite H. done.
  - intros H. split_and!; [by apply characterSpecifics_generic|..].
    + intros c rest Hname Hc. rewrite Hname. simpl.
      apply N.ltb_lt in Hc. by rewrite Hc.
    + intros c rest Hname Hc. rewrite Hname. simpl.
      apply N.ltb_ge in Hc. by rewrite Hc.
    + by intros ->.
Qed.

End Narrator.

(** The spider emoji U+1F577 and a space before the name, in mixed case. *)
Lemma getInstructionsForSong_narrator_witness :
  characterSpecifics (U := BasicLatin) (128375 :: lit " Spider-Man") = spiderManSpecifics
  ∧ characterSpecifics (U := BasicLatin) (lit "captain Nemo")
    = genericSpecifics (lit "Captain Nemo").
Proof.
  split.
  - refine (proj1 (proj2 (proj2 (proj2 (proj2
              (getInstructionsForSong_narrator (U := BasicLatin)
                 (128375 :: lit " Spider-Man") eq_refl))))) _).
    vm_compute. reflexivity.
  - refine (proj1 (proj2 (proj2 (proj2 (proj2 (proj2 (proj2 (proj2
              (getInstructionsForSong_narrator (U := BasicLatin)
                 (lit "captain Nemo") eq_refl))))))) _)).
    decide_closed.
Defined.

(** A narrator that begins with a digit is outside the statement: the
    digits have the Emoji property, so the digit is taken for an emoji
    and dropped, and the name that is left may even be a curated one. *)
Example digit_taken_for_an_emoji :
  startsWithKeycapBase (lit "50 Cent") = true
  ∧ logicName (U := BasicLatin) (lit "50 Cent") = lit "0 Cent"
  ∧ characterSpecifics (U := BasicLatin) (lit "7 simba") = simbaSpecifics.
Proof. vm_compute. done. Qed.

(** The regular expression takes one code point: of an emoji written as
    a sequence, here the spider U+1F577 with the variation selector
    U+FE0F, the selector stays at the head of the name, which then
    matches no curated narrator. *)
Example emoji_sequence_stripped_in_part :
  logicName (U := BasicLatin) ([128375; 65039] ++ lit " Spider-Man")
  = 65039 :: lit " Spider-Man"
  ∧ characterSpecifics (U := BasicLatin) ([128375; 65039] ++ lit " Spider-Man")
    = genericSpecifics (65039 :: lit " Spider-Man").
Proof. vm_compute. done. Qed.

(** C4, as stated, fails: the name [cat] is not a curated one, and the
    generic template names it [Cat], not [cat] as typed. *)
Lemma generic_template_capitalizes :
  (toLowerCase (Unicode := BasicLatin) (logicName (U := BasicLatin) (lit "cat"))
     ∉ curatedNarrators)
  ∧ characterSpecifics (U := BasicLatin) (lit "cat") = genericSpecifics (lit "Cat")
  ∧ characterSpecifics (U := BasicLatin) (lit "cat") ≠ genericSpecifics (lit "cat")
  ∧ getInstructionsForSong (U := BasicLatin) (lit "cat")
    ≠ baseInstructions ++ lit " " ++ genericSpecifics (lit "cat").
Proof.
  split_and!.
  - decide_closed.
  - reflexivity.
  - vm_compute. discriminate.
  - vm_compute. discriminate.
Qed.

(** ** Persistence *)

(** C8.  The record handed to the object store is the short without its
    [element] and with every other field as it was; a successful put
    files it under the short's [id] and leaves the other records alone;
    the promise rejects when there is no database handle (nothing is
    sent) and when the backend fails the write (nothing is stored). *)
Theorem saveTikTokToDB_stores_savable (tiktok : TikTok) (r : PutResult) (st : State) :
  let stored := savable tiktok in
  let after := (saveTikTokToDB tiktok r st).1 in
  let outcome := (saveTikTokToDB tiktok r st).2 in
  (element stored = None ∧ id stored = id tiktok ∧ slides stored = slides tiktok
   ∧ character stored = character tiktok ∧ prompt stored = prompt tiktok
   ∧ instrumentalId stored = instrumentalId tiktok
   ∧ voiceName stored = voiceName tiktok)
  ∧ match db st, r with
    | false, _ =>
        outcome = Rejects (Error "Database is not initialized.") ∧ after = st
    | true, PutFails e =>
        outcome = Rejects e ∧ store after = store st
        ∧ storePuts (log after) = storePuts (log st) ++ [stored]
    | true, PutSucceeds =>
        outcome = Resolves
        ∧ storePuts (log after) = storePuts (log st) ++ [stored]
        ∧ store after !! id tiktok = Some stored
        ∧ ∀ k, k ≠ id tiktok → store after !! k = store st !! k
    end.
Proof.
  intros stored after outcome. split; [done|].
  subst after outcome. unfold saveTikTokToDB, saveTikTokToDB_request.
  destruct (db st) eqn:Hdb; [|done].
  unfold storePuts. destruct r as [|e]; simpl; rewrite omap_app; simpl.
  - split_and!; try done.
    + apply lookup_insert_eq.
    + intros k Hk. by apply lookup_insert_ne.
  - rewrite omap_app. simpl. by rewrite app_nil_r.
Qed.

(** ** Saving a new short *)

Section Saving.
Context {U : Unicode}.

(** C2.  When the save of a short fails at the object store, for want
    of a database handle or because the backend rejects the write, the
    in-memory list is afterwards the list it was before the attempt, and
    the error modal tells the user; the store, the feed and the gallery
    are untouched too. *)
Theorem saveAndRenderNewTikTok_rollback (tiktok : TikTok) (r : PutResult)
    (st : State) (e : jsstring) :
  (saveTikTokToDB tiktok r st).2 = Rejects e →
  let after := saveAndRenderNewTikTok tiktok r st in
  savedTikToks after = savedTikToks st
  ∧ errorModal after
    = Some (lit "Failed to save your new Short. Storage might be full or corrupted.")
  ∧ store after = store st
  ∧ slideshow after = slideshow st
  ∧ historyGallery after = historyGallery st.
Proof.
  unfold saveTikTokToDB, saveAndRenderNewTikTok, saveAndRender_start,
    saveAndRender_resume, saveTikTokToDB_request.
  simpl. destruct (db st) eqn:Hdb; simpl.
  - destruct r as [|e']; simpl; [done|]. intros _. done.
  - intros _. done.
Qed.

End Saving.

Lemma saveAndRenderNewTikTok_rollback_witness :
  savedTikToks (saveAndRenderNewTikTok (U := BasicLatin) (sampleShort 1700000000000)
                  (PutFails (lit "QuotaExceededError")) (freshPage ∅))
  = [].
Proof.
  apply (saveAndRenderNewTikTok_rollback (U := BasicLatin) (sampleShort 1700000000000)
           (PutFails (lit "QuotaExceededError")) (freshPage ∅) (lit "QuotaExceededError")).
  reflexivity.
Defined.

(** ** Generation *)

Section Generation.
Context {U : Unicode}.

(** Unfolds the straight-line pieces of the program. *)
Ltac program :=
  unfold generate_saved, generate_finally, generate_catch, images_catch,
    saveAndRender_resume, saveAndRender_start, saveAndRender_catch,
    saveTikTokToDB_settle, saveTikTokToDB_request, renderHistoryGallery,
    addTikTokToFeed, startBackgroundMusic, generateImageFromPrompt_request,
    stopSlideshow, showErrorPopup, suspend, emit in *.

(** Splits on the tests met along the way, innermost first. *)
Ltac path :=
  match goal with
  | H : ?y = _ |- context [match ?x with _ => _ end] =>
      lazymatch x with context [y] => rewrite H end
  | |- context [match ?x with _ => _ end] =>
      lazymatch x with
      | context [match _ with _ => _ end] => fail
      | _ => destruct x eqn:?
      end
  end.
Ltac paths := repeat (simpl; path); simpl.

(** C10.  When the input is empty or made of white space only,
    [generate] leaves the whole state as it found it: no flag set, no
    playback stopped, no popup, no request, the list as it was. *)
Theorem generate_blank_input (st : State) :
  forallb isWhiteSpace (userInput st) = true →
  generate st = st ∧ step st ClickGenerate = st.
Proof.
  intros H. apply trim_nil in H.
  assert (generate st = st) as Hg.
  { unfold generate. rewrite H. by rewrite bool_decide_eq_true_2. }
  split; [done|]. unfold step. by destruct (inflight st).
Qed.

Lemma generate_busy (st : State) : isGenerating st = true → generate st = st.
Proof. intros H. unfold generate. rewrite H. by rewrite orb_true_r. Qed.

(** The image requests of a song leave everything but the log alone. *)
Lemma requests_frame (prompts : list jsstring) (st : State) :
  let requested := foldl (λ st prompt, generateImageFromPrompt_request prompt st)
                         st prompts in
  requested = set_log (log requested) st
  ∧ log requested
    = log st ++ (if ai st then ImageRequest ∘ finalPrompt (selectedStyle st) <$> prompts
                 else []).
Proof.
  revert st. induction prompts as [|p prompts IH]; intros st; simpl.
  - split; [by destruct st|]. destruct (ai st); by rewrite app_nil_r.
  - destruct (IH (generateImageFromPrompt_request p st)) as [H1 H2].
    simpl in H1, H2. split.
    + rewrite H1. unfold generateImageFromPrompt_request. by destruct (ai st).
    + rewrite H2. unfold generateImageFromPrompt_request.
      destruct (ai st) eqn:Hai; simpl; rewrite ?Hai; [|done].
      by rewrite <- app_assoc.
Qed.

(** What [generate_song] comes to on an answer without a song. *)
Lemma generate_song_NoSong (m v c : jsstring) (r : SongResult) (st : State) :
  NoSong r → ∃ e, generate_song m v c r st = generate_finally (generate_catch e st).
Proof. destruct 1; simpl; eauto. Qed.

(** What it comes to on a song of at least one slide, with a client. *)
Lemma generate_song_slides (m v c : jsstring) (songData : SongStructure)
    (songStructure : list SongSlide) (st : State) :
  song_slides songData = Some songStructure → songStructure ≠ [] → ai st = true →
  let beat := selectBeatForStyle (musicStyle songData) in
  let playing := startBackgroundMusic beat st in
    generate_song m v c (SongParsed (Some songData)) st
    = suspend (AwaitImages m v c songStructure beat)
        (set_log (log playing
                  ++ (ImageRequest ∘ finalPrompt (selectedStyle st) ∘ image_prompt
                      <$> songStructure)) playing).
Proof.
  intros Hslides Hne Hai. unfold generate_song. rewrite Hslides.
  destruct songStructure as [|slide rest]; [done|].
  cbv zeta.
  match goal with |- context [foldl ?f ?st0 ?l] =>
    destruct (requests_frame l st0) as [Hreq Hlog]; cbv zeta in Hreq, Hlog;
    rewrite Hreq, Hlog end.
  assert (∀ beat, ai (startBackgroundMusic beat st) = ai st
                  ∧ selectedStyle (startBackgroundMusic beat st) = selectedStyle st)
    as Hbg by (intros; program; by paths).
  destruct (Hbg (selectBeatForStyle (musicStyle songData))) as [-> ->].
  rewrite Hai. by rewrite <- list_fmap_compose.
Qed.

Lemma promiseAll_rejects {A} (settled : list (A + jsstring)) :
  (∃ i e, settled !! i = Some (inr e)) → ∃ e, promiseAll settled = inr e.
Proof.
  induction settled as [|[a|e'] rest IH]; intros (i & e & Hi); simpl.
  - done.
  - destruct i as [|i]; [done|]. destruct IH as [e0 ->]; eauto.
  - eauto.
Qed.

Lemma promiseAll_values {A} (settled : list (A + jsstring)) (values : list A) :
  promiseAll settled = inl values → settled = inl <$> values.
Proof.
  revert values. induction settled as [|[a|e'] rest IH]; intros values; simpl.
  - by intros [= <-].
  - destruct (promiseAll rest); [|done]. intros [= <-]. simpl. f_equal. by apply IH.
  - done.
Qed.

Lemma generate_exclusive (st : State) : exclusive st → exclusive (generate st).
Proof.
  unfold exclusive. intros H. destruct (isGenerating st) eqn:Hbusy.
  - rewrite (generate_busy st Hbusy). by rewrite Hbusy.
  - destruct (inflight st) as [|k [|k' rest]] eqn:Hin; [|by destruct H|done].
    unfold generate. rewrite Hbusy, orb_false_r.
    program. paths; try done; split; try done; by destruct (ai st).
Qed.

Lemma exclusive_suspended (st : State) (k : Suspended) (rest : list Suspended) :
  exclusive st → inflight st = k :: rest →
  rest = [] ∧ isGenerating st = true ∧ ai st = true.
Proof. unfold exclusive. intros H Hin. rewrite Hin in H. by destruct rest. Qed.

Lemma step_exclusive (st : State) (i : Input) : exclusive st → exclusive (step st i).
Proof.
  intros H. destruct i as [|r|respond now|r]; [by apply generate_exclusive|..];
    unfold step; destruct (inflight st) as [|k rest] eqn:Hin; try done;
    destruct k as [m v c|m v c song beat|t]; try done;
    destruct (exclusive_suspended _ _ _ H Hin) as (-> & Hbusy & Hai);
    unfold exclusive.
  - destruct r as [e|text e|[songData|]]; try (simpl; program; by paths).
    destruct (song_slides songData) as [[|slide rest]|] eqn:Hslides;
      try (unfold generate_song; rewrite Hslides; program; by paths).
    rewrite (generate_song_slides m v c songData (slide :: rest)) by done.
    program. by paths.
  - unfold generate_images. destruct (promiseAll _); program; by paths.
  - program. destruct r; by paths.
Qed.

Lemma run_exclusive (st : State) (inputs : list Input) :
  exclusive st → exclusive (run st inputs).
Proof.
  revert st. induction inputs as [|i inputs IH]; intros st H; simpl; [done|].
  by apply IH, step_exclusive.
Qed.

Lemma idle_exclusive (st : State) : idle st → exclusive st.
Proof. intros [Hbusy Hin]. unfold exclusive. by rewrite Hin. Qed.

(** C9.  From a state with no generation under way, whatever the clicks
    and the answers that follow: at most one invocation of [generate] is
    suspended at an [await]; the busy flag is set exactly while one is,
    so every way out of a generation clears it; and an invocation that
    finds the flag set returns the state as it was, with no request sent
    and nothing changed. *)
Theorem generate_one_at_a_time (st0 : State) (inputs : list Input) :
  idle st0 →
  let st := run st0 inputs in
  (length (inflight st) ≤ 1)%nat
  ∧ (isGenerating st = true ↔ inflight st ≠ [])
  ∧ (∀ busy, isGenerating busy = true →
             generate busy = busy ∧ step busy ClickGenerate = busy).
Proof.
  intros Hidle st.
  pose proof (run_exclusive st0 inputs (idle_exclusive _ Hidle)) as H.
  fold st in H. unfold exclusive in H. split_and!.
  - destruct (inflight st) as [|k [|k' rest]]; simpl; [lia|lia|done].
  - destruct (inflight st) as [|k [|k' rest]]; [|by destruct H|done].
    rewrite H. split; [done|]. by intros [].
  - intros busy Hbusy. split; by apply generate_busy.
Qed.

Lemma imageRequests_app (l1 l2 : list Effect) :
  imageRequests (l1 ++ l2) = imageRequests l1 ++ imageRequests l2.
Proof. apply omap_app. Qed.

Lemma imageRequests_sent {A} (f : A → jsstring) (l : list A) :
  imageRequests (ImageRequest ∘ f <$> l) = f <$> l.
Proof. induction l as [|a l IH]; simpl; [done|]. by f_equal. Qed.

(** C5, as amended.  When the text request is rejected, or its text is absent or
    does not parse, or what it parses to has no slides or an empty list
    of them, the generation ends in the failure popup: no image request
    and no put go out, the list, the store, the feed and the gallery stay
    as they were, and the busy flag is cleared.  The guard before the
    save does the same for a short that would have no slide. *)
Theorem generate_fails_without_song (m v c : jsstring) (r : SongResult) (st : State) :
  inflight st = [AwaitSong m v c] →
  NoSong r →
  let after := step st (SongArrives r) in
  ((∃ e, errorModal after = Some (lit "Something went wrong: " ++ e))
   ∧ log after = log st ++ [FocusInput]
   ∧ savedTikToks after = savedTikToks st ∧ store after = store st
   ∧ slideshow after = slideshow st ∧ historyGallery after = historyGallery st
   ∧ inflight after = [] ∧ isGenerating after = false)
  ∧ ∀ beat respond now st',
      let unsaved := generate_images m v c [] beat respond now st' in
      errorModal unsaved
      = Some (lit "Something went wrong: " ++ Error "No content was generated. Please try again.")
      ∧ log unsaved = log st' ++ [FocusInput]
      ∧ savedTikToks unsaved = savedTikToks st' ∧ store unsaved = store st'.
Proof.
  intros Hin Hr after. split.
  - subst after. unfold step. rewrite Hin.
    destruct (generate_song_NoSong m v c r (set_inflight [] st) Hr) as [e ->].
    split; [exists e|]; program; by paths.
  - intros beat respond now st'. simpl. program. by paths.
Qed.

(** C1, as amended.  When the song that arrives has [N] slides, [N]
    being at least one, and a client is installed at that moment, [N]
    image requests go out, one per [image_prompt] and in that order, and
    the invocation waits for all of them; if the promise of any one of
    them rejects, the generation ends there: nothing is put in the
    store, the list, the feed and the gallery stay as they were, the
    popup reports the failure and the busy flag is cleared.  When no
    client is installed at that moment, no image request goes out at
    all, and the generation ends in the same popup with nothing put in
    the store and the list, the feed and the gallery as they were. *)
Theorem images_all_or_nothing (st : State) (m v c : jsstring)
    (songData : SongStructure) (songStructure : list SongSlide) :
  inflight st = [AwaitSong m v c] →
  song_slides songData = Some songStructure →
  songStructure ≠ [] →
  let st1 := step st (SongArrives (SongParsed (Some songData))) in
  (ai st = true →
   imageRequests (log st1)
   = imageRequests (log st)
     ++ (finalPrompt (selectedStyle st) ∘ image_prompt <$> songStructure)
   ∧ length (imageRequests (log st1))
     = (length (imageRequests (log st)) + length songStructure)%nat
   ∧ storePuts (log st1) = storePuts (log st)
   ∧ inflight st1
     = [AwaitImages m v c songStructure (selectBeatForStyle (musicStyle songData))]
   ∧ ∀ respond now i,
       (i < length songStructure)%nat → rejects (respond i) →
       let st2 := step st1 (ImagesArrive respond now) in
       (∃ e, errorModal st2
             = Some (lit "Failed to generate images: " ++ e ++ lit ". Please try again."))
       ∧ log st2 = log st1 ++ [FocusInput]
       ∧ savedTikToks st2 = savedTikToks st ∧ store st2 = store st
       ∧ slideshow st2 = slideshow st ∧ historyGallery st2 = historyGallery st
       ∧ inflight st2 = [] ∧ isGenerating st2 = false)
  ∧ (ai st = false →
     imageRequests (log st1) = imageRequests (log st)
     ∧ storePuts (log st1) = storePuts (log st)
     ∧ (∃ e, errorModal st1
             = Some (lit "Failed to generate images: " ++ e ++ lit ". Please try again."))
     ∧ savedTikToks st1 = savedTikToks st ∧ store st1 = store st
     ∧ slideshow st1 = slideshow st ∧ historyGallery st1 = historyGallery st
     ∧ inflight st1 = [] ∧ isGenerating st1 = false).
Proof.
  intros Hin Hslides Hne st1.
  assert (st1 = generate_song m v c (SongParsed (Some songData)) (set_inflight [] st))
    as Hst1 by (subst st1; unfold step; by rewrite Hin).
  assert (∀ beat, ai (startBackgroundMusic beat (set_inflight [] st)) = ai st
                  ∧ selectedStyle (startBackgroundMusic beat (set_inflight [] st))
                    = selectedStyle st) as Hbg by (intros; program; by paths).
  split.
  - intros Hai.
    pose proof (generate_song_slides m v c songData songStructure
                  (set_inflight [] st) Hslides Hne Hai) as Hsong.
    cbv zeta in Hsong. rewrite Hsong in Hst1. clear Hsong.
    assert (imageRequests (log st1)
            = imageRequests (log st)
              ++ (finalPrompt (selectedStyle st) ∘ image_prompt <$> songStructure)) as Hreq.
    { rewrite Hst1. program. paths; rewrite !imageRequests_app; simpl;
        rewrite ?app_nil_r; f_equal; apply imageRequests_sent. }
    assert (storePuts (ImageRequest ∘ finalPrompt (selectedStyle st) ∘ image_prompt
                       <$> songStructure) = []) as Hnone
      by (clear; induction songStructure; [done|simpl; done]).
    split_and!.
    + done.
    + rewrite Hreq, length_app. by rewrite length_fmap.
    + rewrite Hst1. unfold storePuts in *. program.
      paths; rewrite !omap_app; simpl; rewrite ?Hnone, ?app_nil_r; done.
    + rewrite Hst1. program. by paths.
    + intros respond now i Hi [e He] st2.
      assert (inflight st1
              = [AwaitImages m v c songStructure (selectBeatForStyle (musicStyle songData))])
        as Hin1 by (rewrite Hst1; program; by paths).
      subst st2. unfold step. rewrite Hin1. unfold generate_images.
      destruct (promiseAll_rejects
        ((λ i, generateImageFromPrompt_settle (respond i)) <$> seq 0 (length songStructure)))
        as [e' ->].
      { exists i, e. rewrite list_lookup_fmap, lookup_seq_lt by done. simpl. by rewrite He. }
      split; [exists e'|]; rewrite Hst1; program; by paths.
  - intros Hai. unfold generate_song in Hst1. rewrite Hslides in Hst1.
    destruct songStructure as [|slide rest]; [done|]. cbv zeta in Hst1.
    destruct (Hbg (selectBeatForStyle (musicStyle songData))) as [Hai' _].
    rewrite Hai', Hai in Hst1.
    match type of Hst1 with context [foldl ?f ?st0 ?l] =>
      destruct (requests_frame l st0) as [Hreq Hlog]; cbv zeta in Hreq, Hlog;
      rewrite Hai', Hai, app_nil_r in Hlog;
      rewrite Hreq, Hlog in Hst1
    end.
    split_and!; try (rewrite Hst1; program; by paths).
    + rewrite Hst1. program. paths; rewrite !imageRequests_app; simpl;
        rewrite ?app_nil_r; done.
    + rewrite Hst1. unfold storePuts. program. paths; rewrite !omap_app; simpl;
        rewrite ?app_nil_r; done.
    + exists noClientError. rewrite Hst1. program. by paths.
Qed.

End Generation.

Lemma generate_blank_input_witness :
  generate (U := BasicLatin) (typed (lit "   ") (freshPage ∅))
  = typed (lit "   ") (freshPage ∅).
Proof.
  refine (proj1 (generate_blank_input (U := BasicLatin)
                   (typed (lit "   ") (freshPage ∅)) _)).
  vm_compute. reflexivity.
Defined.

(** A second click while the first generation waits for its song. *)
Lemma generate_one_at_a_time_witness :
  generate (U := BasicLatin)
    (run (U := BasicLatin) (freshPage ∅) [ClickGenerate; ClickGenerate])
  = run (U := BasicLatin) (freshPage ∅) [ClickGenerate; ClickGenerate].
Proof.
  refine (proj1 (proj2 (proj2 (generate_one_at_a_time (U := BasicLatin) (freshPage ∅)
                                 [ClickGenerate; ClickGenerate] _))
                   (run (U := BasicLatin) (freshPage ∅) [ClickGenerate; ClickGenerate])
                   _)).
  - split; reflexivity.
  - vm_compute. reflexivity.
Defined.

Lemma generate_fails_without_song_witness :
  isGenerating
    (step (U := BasicLatin) (run (U := BasicLatin) (freshPage ∅) [ClickGenerate])
       (SongArrives (SongUnparsed None (lit "SyntaxError"))))
  = false.
Proof.
  refine (proj2 (proj2 (proj2 (proj2 (proj2 (proj2 (proj2 (proj1
    (generate_fails_without_song (U := BasicLatin)
       sampleQuestion (lit "Alice") (lit "cat")
       (SongUnparsed None (lit "SyntaxError"))
       (run (U := BasicLatin) (freshPage ∅) [ClickGenerate]) _ _))))))))).
  - vm_compute. reflexivity.
  - constructor.
Defined.

(** C5, as stated, fails: a response whose only slide has no
    [image_prompt] is not of the structure asked for, yet it passes the
    test on [slides]; an image is requested for the text [undefined]
    and the short is saved and shown, with no popup. *)
Lemma slide_without_image_prompt_is_accepted :
  let response :=
    {| parsed_slides :=
         Some [ {| parsed_lyrics := lit "The sky is blue";
                   parsed_image_prompt := None |} ];
       parsed_music_style := Some (lit "upbeat pop") |} in
  let st := run (U := BasicLatin) (freshPage ∅)
              [ ClickGenerate; SongArrives (SongParsed (Some (asRead response)));
                ImagesArrive (λ _, okImage) 1700000000000; PutSettles PutSucceeds ] in
  ¬ expectedStructure response
  ∧ imageRequests (log st)
    = [stylePrefix (lit "storybook") ++ lit " A 9:16 aspect ratio image of: undefined"]
  ∧ errorModal st = None ∧ isGenerating st = false
  ∧ id <$> savedTikToks st = [1700000000000]
  ∧ lyrics <$> (savedTikToks st ≫= slides) = [lit "The sky is blue"]
  ∧ size (store st) = 1%nat
  ∧ tiktokId <$> slideshow st = [1700000000000].
Proof.
  intros response st. split.
  - intros [_ (items & Hitems & Hall)]. injection Hitems as <-.
    apply Forall_cons in Hall as [[prompt Hprompt] _]. discriminate.
  - vm_compute. done.
Qed.

(** A generation that goes through: one short, saved and shown. *)
Example a_short_is_generated :
  let st := run (U := BasicLatin) (freshPage ∅)
              [ ClickGenerate; SongArrives (SongParsed (Some sampleSong));
                ImagesArrive (λ _, okImage) 1700000000000; PutSettles PutSucceeds ] in
  isGenerating st = false ∧ inflight st = [] ∧ errorModal st = None
  ∧ imageRequests (log st)
    = [ finalPrompt (lit "storybook") (lit "a blue sky");
        finalPrompt (lit "storybook") (lit "sun rays") ]
  ∧ id <$> savedTikToks st = [1700000000000]
  ∧ lyrics <$> (savedTikToks st ≫= slides) = [lit "The sky is blue"; lit "Light scatters"]
  ∧ imageSrc <$> (savedTikToks st ≫= slides)
    = [lit "data:image/png;base64,AAAA"; lit "data:image/png;base64,AAAA"]
  ∧ size (store st) = 1%nat
  ∧ tiktokId <$> slideshow st = [1700000000000]
  ∧ thumb_tiktokId <$> historyGallery st = [1700000000000]
  ∧ backgroundAudio st = Some (lit "beat-upbeat").
Proof. vm_compute. done. Qed.

(** Two slides, of which the second image request is rejected. *)
Lemma images_all_or_nothing_witness :
  let st := run (U := BasicLatin) (freshPage ∅) [ClickGenerate] in
  let st1 := step (U := BasicLatin) st (SongArrives (SongParsed (Some sampleSong))) in
  let respond := λ i : nat,
    if bool_decide (i = 1%nat) then ImageRejected (lit "503")
    else ImageResponse
           [ {| inlineData :=
                  Some {| data := lit "AAAA"; mimeType := lit "image/png" |} |} ] in
  length (imageRequests (log st1)) = (length (imageRequests (log st)) + 2)%nat
  ∧ savedTikToks (step (U := BasicLatin) st1 (ImagesArrive respond 1700000000000))
    = savedTikToks st.
Proof.
  intros st st1 respond.
  assert (inflight st = [AwaitSong sampleQuestion (lit "Alice") (lit "cat")]) as Hin
    by (vm_compute; reflexivity).
  assert (ai st = true) as Hai by (vm_compute; reflexivity).
  assert (default [] (song_slides sampleSong) ≠ []) as Hne by discriminate.
  assert (rejects (respond 1%nat)) as Hrej by (eexists; reflexivity).
  pose proof (proj1 (images_all_or_nothing (U := BasicLatin) st
                       sampleQuestion (lit "Alice") (lit "cat") sampleSong
                       (default [] (song_slides sampleSong)) Hin eq_refl Hne) Hai) as H.
  split.
  - exact (proj1 (proj2 H)).
  - exact (proj1 (proj2 (proj2
             (proj2 (proj2 (proj2 (proj2 H))) respond 1700000000000 1%nat
                (le_n 2) Hrej)))).
Defined.

(** C1, as stated, fails: a blank key saved in the key dialog while the
    song is awaited removes the client, and the song of two slides that
    then arrives sends no image request at all; the generation ends in
    the popup of the image step, which shows what the engine raised. *)
Lemma no_client_no_image_request :
  let cleared := (handleSaveApiKey (λ _, None) None [] ∅ awaitingSong).2 in
  let st1 := step (U := BasicLatin) cleared (SongArrives (SongParsed (Some sampleSong))) in
  inflight cleared = [AwaitSong sampleQuestion (lit "Alice") (lit "cat")]
  ∧ isGenerating cleared = true ∧ ai cleared = false
  ∧ length (default [] (song_slides sampleSong)) = 2%nat
  ∧ imageRequests (log st1) = []
  ∧ errorModal st1
    = Some (lit "Failed to generate images: " ++ noClientError ++ lit ". Please try again.")
  ∧ savedTikToks st1 = [] ∧ inflight st1 = [] ∧ isGenerating st1 = false.
Proof. vm_compute. done. Qed.

(** ** Playback *)

Lemma speakAndAdvance_step (s : Session) (st : State) :
  speakAndAdvance s st =
  match slides (playing s) !! currentSlideIndex s with
  | None => (s, stopSlideshow st)
  | Some slide =>
      if negb (isPlaying st) then (s, stopSlideshow st)
      else
        let st := scrollSlideIntoView s st in
        if bool_decide (trim (lyrics slide) = []) then speakAndAdvance (advance s) st
        else (s, speak (lyrics slide) (selectedVoice (playing s) st) st)
  end.
Proof.
  funelim (speakAndAdvance s st);
    match goal with H : _ !! _ = _ |- _ => by rewrite H end.
Qed.

Lemma blank_whitespaceOnly (text : jsstring) :
  bool_decide (trim text = []) = whitespaceOnly text.
Proof.
  unfold whitespaceOnly. destruct (forallb isWhiteSpace text) eqn:H.
  - apply bool_decide_eq_true_2. by apply trim_nil.
  - apply bool_decide_eq_false_2. rewrite trim_nil. congruence.
Qed.

Lemma remaining_nil (s : Session) :
  remaining s = [] → slides (playing s) !! currentSlideIndex s = None.
Proof.
  unfold remaining. intros H. apply lookup_ge_None.
  apply (f_equal length) in H. rewrite length_drop in H. simpl in H. lia.
Qed.

Lemma remaining_cons (s : Session) (slide : SlideData) (rest : list SlideData) :
  remaining s = slide :: rest →
  slides (playing s) !! currentSlideIndex s = Some slide ∧ remaining (advance s) = rest.
Proof.
  unfold remaining. simpl. intros H.
  assert (slides (playing s) !! currentSlideIndex s = Some slide) as Hslide.
  { rewrite <- (Nat.add_0_r (currentSlideIndex s)), <- lookup_drop. by rewrite H. }
  split; [done|]. rewrite (drop_S _ _ _ Hslide) in H. by injection H.
Qed.

Lemma spoken_app (l1 l2 : list Effect) : spoken (l1 ++ l2) = spoken l1 ++ spoken l2.
Proof. apply omap_app. Qed.

Lemma stopSlideshow_quiet (st : State) :
  spoken (log (stopSlideshow st)) = spoken (log st)
  ∧ isPlaying (stopSlideshow st) = false.
Proof.
  unfold stopSlideshow, emit. simpl. destruct (speaking st); simpl; [|done].
  by rewrite spoken_app, app_nil_r.
Qed.

Lemma scrollSlideIntoView_quiet (s : Session) (st : State) :
  spoken (log (scrollSlideIntoView s st)) = spoken (log st)
  ∧ isPlaying (scrollSlideIntoView s st) = isPlaying st.
Proof.
  unfold scrollSlideIntoView, emit. destruct (_ !! _); simpl; [|done].
  by rewrite spoken_app, app_nil_r.
Qed.

(** One call: the slides without text are passed over in silence, and
    the call ends on the first slide with text, which it hands to the
    engine, or at the end of the short, where it stops the playback. *)
Lemma speakAndAdvance_first_text (rest : list SlideData) (s : Session) (st : State) :
  remaining s = rest → isPlaying st = true →
  match list_find (λ slide, whitespaceOnly (lyrics slide) = false) rest with
  | Some (k, slide) =>
      currentSlideIndex (speakAndAdvance s st).1 = (currentSlideIndex s + k)%nat
      ∧ playing (speakAndAdvance s st).1 = playing s
      ∧ spoken (log (speakAndAdvance s st).2) = spoken (log st) ++ [lyrics slide]
      ∧ isPlaying (speakAndAdvance s st).2 = true
      ∧ speaking (speakAndAdvance s st).2 = true
  | None =>
      spoken (log (speakAndAdvance s st).2) = spoken (log st)
      ∧ isPlaying (speakAndAdvance s st).2 = false
  end.
Proof.
  revert s st. induction rest as [|slide rest IH]; intros s st Hrem Hplay;
    rewrite speakAndAdvance_step.
  - rewrite (remaining_nil s Hrem). simpl. apply stopSlideshow_quiet.
  - destruct (remaining_cons s slide rest Hrem) as [-> Hrest].
    rewrite Hplay. cbn [negb]. cbv zeta. rewrite blank_whitespaceOnly.
    destruct (scrollSlideIntoView_quiet s st) as [Hlog Hkeep].
    simpl list_find. destruct (whitespaceOnly (lyrics slide)) eqn:Hblank.
    + rewrite decide_False by done.
      specialize (IH (advance s) (scrollSlideIntoView s st) Hrest).
      rewrite Hkeep, Hlog in IH. specialize (IH Hplay).
      destruct (list_find _ rest) as [[k slide']|]; simpl; [|done].
      destruct IH as (-> & -> & -> & -> & ->). simpl. split_and!; try done; lia.
    + rewrite decide_True by done. simpl.
      unfold speak, emit. simpl. rewrite spoken_app, Hlog, Hkeep. simpl.
      split_and!; try done; lia.
Qed.

(** A whole playback: with every utterance completed by the engine, the
    texts spoken are those of the slides with text, in order, and the
    playback ends stopped. *)
Lemma completions_spoken (rest : list SlideData) (s : Session) (st : State) (n : nat) :
  remaining s = rest → isPlaying st = true → (length rest ≤ n)%nat →
  let started := speakAndAdvance s st in
  let ended := completions n started.1 started.2 in
  spoken (log ended.2)
  = spoken (log st) ++ filter (λ text, whitespaceOnly text = false) (lyrics <$> rest)
  ∧ isPlaying ended.2 = false.
Proof.
  revert s st n. induction rest as [|slide rest IH]; intros s st n Hrem Hplay Hn;
    cbv zeta; rewrite speakAndAdvance_step.
  - rewrite (remaining_nil s Hrem). simpl.
    destruct (stopSlideshow_quiet st) as [Hlog Hstop].
    destruct n; simpl; rewrite ?Hstop, ?app_nil_r; done.
  - destruct (remaining_cons s slide rest Hrem) as [-> Hrest].
    rewrite Hplay. cbn [negb]. cbv zeta. rewrite blank_whitespaceOnly.
    destruct (scrollSlideIntoView_quiet s st) as [Hlog Hkeep].
    rewrite fmap_cons, filter_cons. simpl in Hn.
    destruct (whitespaceOnly (lyrics slide)) eqn:Hblank.
    + rewrite decide_False by done.
      specialize (IH (advance s) (scrollSlideIntoView s st) n Hrest).
      rewrite Hkeep, Hlog in IH. apply IH; [done|lia].
    + rewrite decide_True by done.
      destruct n as [|n]; [lia|].
      set (st0 := speak _ _ _).
      assert (isPlaying st0 = true) as Hplay0
        by (subst st0; unfold speak, emit; simpl; congruence).
      cbn [completions fst snd]. rewrite Hplay0. unfold utterance_onend.
      specialize (IH (advance s) (set_speaking false st0) n Hrest Hplay0 ltac:(lia)).
      cbv zeta in IH.
      destruct (speakAndAdvance (advance s) (set_speaking false st0)) as [s2 st2].
      simpl in IH. destruct IH as [-> ->]. split; [|done].
      rewrite spoken_app, Hlog. simpl. by rewrite <- app_assoc.
Qed.

(** C6.  While a short is playing: a slide whose lyrics are empty or
    white space only is passed over without a call to the speech engine,
    the index moving on at once; a slide with text is handed to the
    engine and the index stays on it until the engine reports the end of
    the utterance, which is what moves it on.  Over a whole playback the
    engine is given the texts of the slides with text, in order, and
    nothing else. *)
Theorem narration_skips_blank_slides (s : Session) (st : State) :
  isPlaying st = true →
  (∀ slide, slides (playing s) !! currentSlideIndex s = Some slide →
     if whitespaceOnly (lyrics slide) then
       speakAndAdvance s st = speakAndAdvance (advance s) (scrollSlideIntoView s st)
       ∧ spoken (log (scrollSlideIntoView s st)) = spoken (log st)
     else
       currentSlideIndex (speakAndAdvance s st).1 = currentSlideIndex s
       ∧ spoken (log (speakAndAdvance s st).2) = spoken (log st) ++ [lyrics slide]
       ∧ isPlaying (speakAndAdvance s st).2 = true
       ∧ ∀ st', utterance_onend s st'
                = speakAndAdvance (advance s) (set_speaking false st'))
  ∧ match list_find (λ slide, whitespaceOnly (lyrics slide) = false) (remaining s) with
    | Some (k, slide) =>
        currentSlideIndex (speakAndAdvance s st).1 = (currentSlideIndex s + k)%nat
        ∧ spoken (log (speakAndAdvance s st).2) = spoken (log st) ++ [lyrics slide]
    | None =>
        spoken (log (speakAndAdvance s st).2) = spoken (log st)
        ∧ isPlaying (speakAndAdvance s st).2 = false
    end
  ∧ ∀ n, (length (remaining s) ≤ n)%nat →
      let started := speakAndAdvance s st in
      let ended := completions n started.1 started.2 in
      spoken (log ended.2)
      = spoken (log st)
        ++ filter (λ text, whitespaceOnly text = false) (lyrics <$> remaining s)
      ∧ isPlaying ended.2 = false.
Proof.
  intros Hplay. split_and!.
  - intros slide Hslide. rewrite speakAndAdvance_step, Hslide, Hplay.
    cbn [negb]. cbv zeta. rewrite blank_whitespaceOnly.
    destruct (scrollSlideIntoView_quiet s st) as [Hlog Hkeep].
    destruct (whitespaceOnly (lyrics slide)); [done|]. simpl.
    unfold speak, emit. simpl. rewrite spoken_app, Hlog, Hkeep. done.
  - pose proof (speakAndAdvance_first_text (remaining s) s st eq_refl Hplay) as H.
    destruct (list_find _ (remaining s)) as [[k slide]|]; [|done].
    by destruct H as (? & _ & ? & _).
  - intros n Hn. by apply completions_spoken.
Qed.

Lemma narration_skips_blank_slides_witness :
  let st := set_isPlaying true (freshPage ∅) in
  let started := speakAndAdvance fromTheStart st in
  let ended := completions 3 started.1 started.2 in
  spoken (log ended.2)
  = spoken (log st)
    ++ filter (λ text, whitespaceOnly text = false) (lyrics <$> remaining fromTheStart)
  ∧ isPlaying ended.2 = false.
Proof.
  exact (proj2 (proj2 (narration_skips_blank_slides fromTheStart
                         (set_isPlaying true (freshPage ∅)) eq_refl))
           3%nat (le_n 3)).
Defined.

Example three_slides_two_spoken :
  let st := set_isPlaying true (freshPage ∅) in
  let started := speakAndAdvance fromTheStart st in
  spoken (log started.2) = [lit "The sky is blue"]
  ∧ currentSlideIndex started.1 = 0%nat
  ∧ spoken (log (completions 1 started.1 started.2).2)
    = [lit "The sky is blue"; lit "Light scatters"]
  ∧ currentSlideIndex (completions 1 started.1 started.2).1 = 2%nat
  ∧ isPlaying (completions 2 started.1 started.2).2 = false.
Proof. vm_compute. done. Qed.

(** ** The history gallery *)

Section History.
Context {U : Unicode}.

#[local] Instance newer_first_total : Total newer_first.
Proof. intros a b. unfold newer_first. lia. Qed.

#[local] Instance newer_first_trans : Transitive newer_first.
Proof. intros a b c. unfold newer_first. lia. Qed.

Lemma appendThumbnails_all (l : list TikTok) (gallery thumbs : list Thumbnail) :
  thumbnail <$> l = Some <$> thumbs →
  appendThumbnails l gallery = (gallery ++ thumbs, true).
Proof.
  revert gallery thumbs. induction l as [|t l IH]; intros gallery [|thumb thumbs] H;
    simplify_eq/=.
  - by rewrite app_nil_r.
  - rewrite H. rewrite (IH _ thumbs) by done. by rewrite <- app_assoc.
Qed.

Lemma thumbnail_is_Some (t : TikTok) : slides t ≠ [] → is_Some (thumbnail t).
Proof. unfold thumbnail. destruct (slides t); [done|eauto]. Qed.

Lemma thumbnails_exist (l : list TikTok) :
  Forall (λ t, slides t ≠ []) l → ∃ thumbs, thumbnail <$> l = Some <$> thumbs.
Proof.
  induction 1 as [|t l Ht _ [thumbs IH]]; [by exists []|].
  destruct (thumbnail_is_Some t Ht) as [thumb Hthumb].
  exists (thumb :: thumbs). by rewrite !fmap_cons, Hthumb, IH.
Qed.

Lemma thumbnail_ids (l : list TikTok) (thumbs : list Thumbnail) :
  thumbnail <$> l = Some <$> thumbs → thumb_tiktokId <$> thumbs = id <$> l.
Proof.
  revert thumbs. induction l as [|t l IH]; intros [|thumb thumbs] H; simplify_eq/=;
    [done|].
  f_equal; [|by apply IH].
  unfold thumbnail in H. destruct (slides t); by simplify_eq/=.
Qed.

(** Adding a short to the feed fills in its [element] and touches
    nothing the gallery depends on. *)
Lemma addTikTokToFeed_frame (i : nat) (st : State) :
  thumbnail <$> savedTikToks (addTikTokToFeed i st) = thumbnail <$> savedTikToks st
  ∧ id <$> savedTikToks (addTikTokToFeed i st) = id <$> savedTikToks st
  ∧ store (addTikTokToFeed i st) = store st
  ∧ db (addTikTokToFeed i st) = db st
  ∧ historyGallery (addTikTokToFeed i st) = historyGallery st.
Proof.
  unfold addTikTokToFeed. destruct (savedTikToks st !! i) as [t|] eqn:Hi; [|done].
  simpl. rewrite !list_fmap_insert. split_and!; try done.
  - apply list_insert_id. by rewrite list_lookup_fmap, Hi.
  - apply list_insert_id. by rewrite list_lookup_fmap, Hi.
Qed.

Lemma feed_frame (indices : list nat) (st : State) :
  let fed := foldr addTikTokToFeed st indices in
  thumbnail <$> savedTikToks fed = thumbnail <$> savedTikToks st
  ∧ id <$> savedTikToks fed = id <$> savedTikToks st
  ∧ store fed = store st ∧ db fed = db st
  ∧ historyGallery fed = historyGallery st.
Proof.
  induction indices as [|i indices IH]; simpl; [done|].
  destruct (addTikTokToFeed_frame i (foldr addTikTokToFeed st indices))
    as (-> & -> & -> & -> & ->).
  apply IH.
Qed.

Lemma newer_first_descending (l : list TikTok) :
  StronglySorted newer_first l → NoDup (id <$> l) → descending (id <$> l).
Proof.
  unfold descending. induction 1 as [|t l _ IH Hall]; intros Hnodup; simpl;
    [constructor|].
  apply NoDup_cons in Hnodup as [Hnotin Hnodup].
  constructor; [by apply IH|].
  apply Forall_fmap, Forall_forall. intros t' Hin. simpl.
  rewrite Forall_forall in Hall. specialize (Hall t' Hin). unfold newer_first in Hall.
  assert (id t' ≠ id t); [|lia].
  intros Heq. apply Hnotin. rewrite <- Heq. apply list_elem_of_fmap. eauto.
Qed.

Lemma getAll_well_kept (bound : N) (st : State) :
  well_kept bound (store st) →
  id <$> getAll st = (map_to_list (store st)).*1
  ∧ Forall (λ t, slides t ≠ [] ∧ id t < bound) (getAll st).
Proof.
  intros Hkept. unfold getAll.
  assert (Forall (λ kt, store st !! kt.1 = Some kt.2) (map_to_list (store st))) as H.
  { apply Forall_forall. intros [k t]. apply elem_of_map_to_list. }
  induction H as [|[k t] l Hkt _ [IH1 IH2]]; [done|].
  destruct (Hkept k t Hkt) as (Hid & Hslides & Hlt).
  rewrite !fmap_cons. cbn [fst snd]. split.
  - by rewrite Hid, IH1.
  - constructor; [|done]. split; [done|]. by rewrite Hid.
Qed.

(** The order in which [getAll] hands over the records does not matter:
    once sorted, any permutation of them gives the same list. *)
Lemma load_order_irrelevant (bound : N) (records : list TikTok) (st : State) :
  well_kept bound (store st) → records ≡ₚ getAll st →
  merge_sort newer_first records = merge_sort newer_first (getAll st).
Proof.
  intros Hkept Hperm. destruct (getAll_well_kept bound st Hkept) as [Hids _].
  apply (Sorted_unique_strong newer_first).
  - intros t1 t2 H1 H2 H12 H21. unfold newer_first in *.
    rewrite merge_sort_Permutation, Hperm in H1.
    rewrite merge_sort_Permutation in H2.
    assert (NoDup (id <$> getAll st)) as Hnodup
      by (rewrite Hids; apply NoDup_fst_map_to_list).
    apply list_elem_of_lookup in H1 as [i1 H1], H2 as [i2 H2].
    assert (i1 = i2) as ->; [|congruence].
    apply (NoDup_lookup _ _ _ (id t1) Hnodup);
      rewrite list_lookup_fmap; [by rewrite H1|rewrite H2]. simpl. f_equal. lia.
  - apply Sorted_merge_sort; apply _.
  - apply Sorted_merge_sort; apply _.
  - by rewrite !merge_sort_Permutation.
Qed.

(** A successful load puts the gallery in step with the store. *)
Lemma load_in_step (bound : N) (st : State) :
  db st = true → well_kept bound (store st) →
  (size (store st) = 0%nat → historyGallery st = []) →
  gallery_in_step bound (loadHistoryFromDB GetAllSucceeds st).1.
Proof.
  intros Hdb Hkept Hempty. unfold loadHistoryFromDB. rewrite Hdb. cbn [negb]. cbv zeta.
  change (getAll (emit StoreGetAll st)) with (getAll st).
  destruct (getAll_well_kept bound st Hkept) as [Hids Hall].
  set (loaded := merge_sort newer_first (getAll st)).
  assert (loaded ≡ₚ getAll st) as Hperm by apply merge_sort_Permutation.
  assert (descending (id <$> loaded)) as Hdesc.
  { apply newer_first_descending.
    - apply Sorted_StronglySorted; [apply _|]. apply Sorted_merge_sort; apply _.
    - rewrite Hperm, Hids. apply NoDup_fst_map_to_list. }
  assert (length loaded = size (store st)) as Hlen.
  { rewrite Hperm. unfold getAll. by rewrite length_fmap, length_map_to_list. }
  assert (Forall (λ t, slides t ≠ [] ∧ id t < bound) loaded) as Hloaded
    by (by rewrite Hperm).
  simpl savedTikToks. case_bool_decide as Hsome.
  - match goal with |- context [foldr addTikTokToFeed ?st0 ?l] =>
      destruct (feed_frame l st0) as (Hthumbs & Hfed & Hstore & Hdb' & Hgallery);
      set (fed := foldr addTikTokToFeed st0 l) in *
    end.
    simpl in Hthumbs, Hfed, Hstore, Hdb', Hgallery.
    destruct (thumbnails_exist loaded) as [thumbs Hshown].
    { eapply Forall_impl; [exact Hloaded|]. by intros t [? _]. }
    unfold renderHistoryGallery.
    rewrite (appendThumbnails_all _ [] thumbs) by (by rewrite Hthumbs).
    simpl. unfold gallery_in_step. simpl.
    rewrite Hstore, Hdb', Hthumbs, Hfed.
    split_and!; try done.
    + apply Forall_fmap. eapply Forall_impl; [exact Hloaded|]. by intros t [_ ?].
    + rewrite <- Hlen, <- (length_fmap id), Hfed. by rewrite length_fmap.
  - assert (loaded = []) as Hnil by (destruct loaded; [done|simpl in Hsome; lia]).
    simpl. unfold gallery_in_step. simpl. rewrite Hnil in *. simpl in Hlen.
    rewrite Hempty by done. split_and!; try done; constructor.
Qed.

Lemma in_step_loadable (bound : N) (st : State) :
  gallery_in_step bound st →
  db st = true ∧ well_kept bound (store st)
  ∧ (size (store st) = 0%nat → historyGallery st = []).
Proof.
  intros (Hdb & Hkept & Hshown & _ & _ & Hlen). split_and!; try done.
  intros Hsize. rewrite Hsize in Hlen. apply nil_length_inv in Hlen.
  rewrite Hlen in Hshown. by destruct (historyGallery st).
Qed.

(** A failed load changes nothing that the gallery depends on. *)
Lemma failed_load_in_step (bound : N) (e : jsstring) (st : State) :
  gallery_in_step bound st →
  gallery_in_step bound (loadHistoryFromDB (GetAllFails e) st).1.
Proof.
  intros H. pose proof H as (Hdb & _). unfold loadHistoryFromDB. by rewrite Hdb.
Qed.

(** A save of a short newer than all the others keeps the gallery in
    step, whether the put succeeds or fails. *)
Lemma save_in_step (bound : N) (tiktok : TikTok) (r : PutResult) (st : State) :
  gallery_in_step bound st → bound ≤ id tiktok → slides tiktok ≠ [] →
  gallery_in_step (id tiktok + 1) (saveAndRenderNewTikTok tiktok r st).
Proof.
  intros (Hdb & Hkept & Hshown & Hdesc & Hbelow & Hlen) Hnew Hslides.
  assert (well_kept (id tiktok + 1) (store st)) as Hkept'.
  { intros k t Hk. destruct (Hkept k t Hk) as (? & ? & ?). split_and!; try done. lia. }
  assert (Forall (λ k, k < id tiktok + 1) (id <$> savedTikToks st)) as Hbelow'.
  { eapply Forall_impl; [exact Hbelow|]. simpl. lia. }
  unfold saveAndRenderNewTikTok, saveAndRender_start, saveTikTokToDB_request.
  simpl. rewrite Hdb. unfold saveAndRender_resume. destruct r as [|e]; simpl.
  - unfold addTikTokToFeed. simpl.
    destruct (thumbnail_is_Some tiktok Hslides) as [thumb Hthumb].
    unfold renderHistoryGallery. simpl.
    change (thumbnail (set_element _ tiktok)) with (thumbnail tiktok).
    rewrite Hthumb.
    rewrite (appendThumbnails_all _ [thumb] (historyGallery st)) by done.
    simpl. unfold gallery_in_step. simpl. split_and!; try done.
    + intros k t. destruct (decide (k = id tiktok)) as [->|Hne].
      * rewrite lookup_insert_eq. intros [= <-]. simpl. split_and!; try done. lia.
      * rewrite lookup_insert_ne by done. apply Hkept'.
    + f_equal; [exact Hthumb | exact Hshown].
    + constructor; [done|].
      eapply Forall_impl; [exact Hbelow|]. simpl. lia.
    + constructor; [lia|done].
    + rewrite map_size_insert_None; [by rewrite Hlen|].
      destruct (store st !! id tiktok) as [t|] eqn:Hk; [|done].
      destruct (Hkept _ _ Hk) as (_ & _ & ?). lia.
  - unfold gallery_in_step. simpl. done.
Qed.

Lemma performAll_in_step (ops : list Operation) (bound : N) (st : State) :
  gallery_in_step bound st → saves_increasing bound ops →
  ∃ bound', gallery_in_step bound' (performAll st ops).
Proof.
  revert bound st. induction ops as [|[[|e]|tiktok r] ops IH]; intros bound st Hst Hops;
    simpl in *.
  - eauto.
  - apply (IH bound); [|done].
    destruct (in_step_loadable _ _ Hst) as (? & ? & ?). by apply load_in_step.
  - apply (IH bound); [|done]. by apply failed_load_in_step.
  - destruct Hops as (? & ? & ?). apply (IH (id tiktok + 1)); [|done].
    by apply (save_in_step bound).
Qed.

(** C7, as amended.  After a successful start-up load on a page whose
    gallery is still empty, followed by any loads and saves in which
    every saved short has a slide and an [id] above every [id] persisted
    or saved before, the gallery shows exactly the shorts of the
    in-memory list, in strictly descending [id] order, and as many of
    them as the object store holds records. *)
Theorem gallery_newest_first (bound : N) (st0 : State) (ops : list Operation) :
  db st0 = true →
  historyGallery st0 = [] →
  well_kept bound (store st0) →
  saves_increasing bound ops →
  let st := performAll st0 (LoadFromStore GetAllSucceeds :: ops) in
  thumbnail <$> savedTikToks st = Some <$> historyGallery st
  ∧ thumb_tiktokId <$> historyGallery st = id <$> savedTikToks st
  ∧ descending (thumb_tiktokId <$> historyGallery st)
  ∧ length (historyGallery st) = size (store st).
Proof.
  intros Hdb Hgallery Hkept Hops st.
  destruct (performAll_in_step ops bound (loadHistoryFromDB GetAllSucceeds st0).1)
    as [bound' (_ & _ & Hshown & Hdesc & _ & Hlen)]; [|done|].
  { by apply load_in_step. }
  fold (performAll (perform st0 (LoadFromStore GetAllSucceeds)) ops) in st.
  change (performAll (loadHistoryFromDB GetAllSucceeds st0).1 ops) with st in *.
  pose proof (thumbnail_ids _ _ Hshown) as Hids.
  split_and!; try done.
  - by rewrite Hids.
  - rewrite <- Hlen, <- (length_fmap thumb_tiktokId), Hids. by rewrite length_fmap.
Qed.

End History.

(** One short persisted by an earlier session; then a save that
    succeeds, a save that the store rejects, and a load that fails. *)
Lemma gallery_newest_first_witness :
  let st := performAll (U := BasicLatin)
              (freshPage {[ 1700000000000 := sampleShort 1700000000000 ]})
              [ LoadFromStore GetAllSucceeds;
                Save (sampleShort 1700000005000) PutSucceeds;
                Save (sampleShort 1700000009000) (PutFails (lit "QuotaExceededError"));
                LoadFromStore (GetAllFails (lit "UnknownError")) ] in
  thumbnail <$> savedTikToks st = Some <$> historyGallery st
  ∧ thumb_tiktokId <$> historyGallery st = id <$> savedTikToks st
  ∧ descending (thumb_tiktokId <$> historyGallery st)
  ∧ length (historyGallery st) = size (store st).
Proof.
  refine (gallery_newest_first (U := BasicLatin) 1700000000001
            (freshPage {[ 1700000000000 := sampleShort 1700000000000 ]})
            [ Save (sampleShort 1700000005000) PutSucceeds;
              Save (sampleShort 1700000009000) (PutFails (lit "QuotaExceededError"));
              LoadFromStore (GetAllFails (lit "UnknownError")) ] eq_refl eq_refl _ _).
  - intros k t Hk. unfold freshPage in Hk. cbn [store] in Hk.
    apply lookup_singleton_Some in Hk as [<- <-].
    split_and!; [done|done|reflexivity].
  - simpl. split_and!; try done; discriminate.
Defined.

Example gallery_after_two_saves :
  let st := performAll (U := BasicLatin)
              (freshPage {[ 1700000000000 := sampleShort 1700000000000 ]})
              [ LoadFromStore GetAllSucceeds;
                Save (sampleShort 1700000005000) PutSucceeds;
                Save (sampleShort 1700000009000) (PutFails (lit "QuotaExceededError")) ] in
  thumb_tiktokId <$> historyGallery st = [1700000005000; 1700000000000]
  ∧ size (store st) = 2%nat.
Proof. vm_compute. done. Qed.

(** C7, as stated, fails: when the clock has stepped back between two
    generations, the short saved last carries the smaller [id] and still
    goes to the head of the list, so the gallery is not in descending
    order. *)
Lemma gallery_follows_insertion_not_id :
  let st := performAll (U := BasicLatin) (freshPage ∅)
              [ LoadFromStore GetAllSucceeds;
                Save (sampleShort 1700000002000) PutSucceeds;
                Save (sampleShort 1700000001000) PutSucceeds ] in
  thumb_tiktokId <$> historyGallery st = [1700000001000; 1700000002000]
  ∧ thumb_tiktokId <$> historyGallery st = id <$> savedTikToks st
  ∧ ¬ descending (thumb_tiktokId <$> historyGallery st).
Proof.
  intros st.
  assert (thumb_tiktokId <$> historyGallery st = [1700000001000; 1700000002000]) as H
    by (vm_compute; reflexivity).
  split_and!.
  - exact H.
  - vm_compute. reflexivity.
  - rewrite H. unfold descending. intros Hsorted.
    apply StronglySorted_inv in Hsorted as [_ Hall].
    apply Forall_cons in Hall as [Hlt _]. done.
Qed.

(** * Further properties *)

(** ** The background track and the image requests *)

(** X1.  Whatever the style, the track chosen is one of the three
    tracks of the page. *)
Theorem selectBeatForStyle_tracks {U : Unicode} (style : jsstring) :
  selectBeatForStyle style ∈ [track_A; track_B; track_C].
Proof.
  unfold selectBeatForStyle, track_A, track_B, track_C.
  repeat case_match; set_solver.
Qed.

Lemma firstInlineImage_None (parts : list Part) :
  firstInlineImage parts = None ↔
  Forall (λ part, ∀ d, inlineData part = Some d → data d = []) parts.
Proof.
  induction parts as [|[[d|]] parts IH]; simpl.
  - split; [constructor|done].
  - case_bool_decide as Hd.
    + rewrite IH. split.
      * intros H. constructor; [|done]. intros d' [= <-]. done.
      * by intros [_ H]%Forall_cons.
    + split; [done|]. intros [H _]%Forall_cons. by destruct Hd, (H d).
  - rewrite IH. split.
    + intros H. by constructor.
    + by intros [_ H]%Forall_cons.
Qed.

Lemma firstInlineImage_Some (parts : list Part) (uri : jsstring) :
  firstInlineImage parts = Some uri →
  ∃ before d after,
    parts = before ++ {| inlineData := Some d |} :: after
    ∧ firstInlineImage before = None
    ∧ data d ≠ []
    ∧ uri = lit "data:" ++ mimeType d ++ lit ";base64," ++ data d.
Proof.
  induction parts as [|[[d|]] parts IH]; simpl; [done|..].
  - case_bool_decide as Hd.
    + intros (before & d' & after & -> & Hb & Hd' & ->)%IH.
      exists ({| inlineData := Some d |} :: before), d', after. simpl.
      rewrite bool_decide_eq_true_2 by done. done.
    + intros [= <-]. by exists [], d, parts.
  - intros (before & d' & after & -> & Hb & Hd' & ->)%IH.
    by exists ({| inlineData := None |} :: before), d', after.
Qed.

(** X2.  An image response gives the data URI of its first part that
    carries inline data that is not empty, whatever precedes it; a
    response without such a part is a rejection, with the message of the
    source. *)
Theorem image_is_first_inline_data (parts : list Part) :
  match generateImageFromPrompt_settle (ImageResponse parts) with
  | inl uri =>
      ∃ before d after,
        parts = before ++ {| inlineData := Some d |} :: after
        ∧ Forall (λ part, ∀ d', inlineData part = Some d' → data d' = []) before
        ∧ data d ≠ []
        ∧ uri = lit "data:" ++ mimeType d ++ lit ";base64," ++ data d
  | inr e =>
      Forall (λ part, ∀ d, inlineData part = Some d → data d = []) parts
      ∧ e = Error "Image generation failed. The model did not return an image."
  end.
Proof.
  unfold generateImageFromPrompt_settle.
  destruct (firstInlineImage parts) as [uri|] eqn:H.
  - apply firstInlineImage_Some in H as (before & d & after & -> & Hb & Hd & ->).
    exists before, d, after. by rewrite <- firstInlineImage_None.
  - by rewrite <- firstInlineImage_None.
Qed.

(** X3.  For a style that is a key of the table, the prompt of an
    image request is the prefix the table gives for that key, the
    aspect-ratio directive and the image prompt; that prefix is not
    empty, and no key occurs twice, so it is the only one. *)
Theorem finalPrompt_style (selectedStyle prefix prompt : jsstring) :
  (selectedStyle, prefix) ∈ STYLE_PROMPTS →
  finalPrompt selectedStyle prompt
  = prefix ++ lit " A 9:16 aspect ratio image of: " ++ prompt
  ∧ prefix ≠ []
  ∧ ∀ other, (selectedStyle, other) ∈ STYLE_PROMPTS → other = prefix.
Proof.
  intros Hin.
  assert (NoDup STYLE_PROMPTS.*1) as Hkeys by decide_closed.
  assert (∀ other, (selectedStyle, other) ∈ STYLE_PROMPTS → other = prefix) as Hone.
  { intros other Hother.
    apply list_elem_of_lookup in Hin as [i Hi], Hother as [j Hj].
    assert (i = j) as ->; [|congruence].
    apply (NoDup_lookup _ _ _ selectedStyle Hkeys);
      rewrite list_lookup_fmap; [by rewrite Hi|by rewrite Hj]. }
  split_and!; [| |exact Hone].
  - unfold finalPrompt, stylePrefix.
    destruct (list_find _ STYLE_PROMPTS) as [[i [k found]]|] eqn:Hfind.
    + apply list_find_Some in Hfind as (Hi & Hk & _). cbn [fst] in Hk. subst k.
      cbn [snd]. f_equal. apply Hone. apply list_elem_of_lookup. eauto.
    + apply list_find_None in Hfind. rewrite Forall_forall in Hfind.
      by destruct (Hfind _ Hin).
  - assert (Forall (λ entry, entry.2 ≠ []) STYLE_PROMPTS) as Hall by decide_closed.
    rewrite Forall_forall in Hall. apply (Hall _ Hin).
Qed.

Lemma finalPrompt_style_witness :
  finalPrompt (lit "photoreal") (lit "a blue sky")
  = lit "A photorealistic, high-detail, cinematic 4K photo:"
    ++ lit " A 9:16 aspect ratio image of: " ++ lit "a blue sky".
Proof.
  refine (proj1 (finalPrompt_style (lit "photoreal")
                   (lit "A photorealistic, high-detail, cinematic 4K photo:")
                   (lit "a blue sky") _)).
  apply list_elem_of_lookup. exists 2%nat. reflexivity.
Defined.

(** ** Voices *)

Lemma utterances_app (l1 l2 : list Effect) :
  utterances (l1 ++ l2) = utterances l1 ++ utterances l2.
Proof. apply omap_app. Qed.

Lemma selectedVoice_voices (tiktok : TikTok) (st st' : State) :
  voices st' = voices st → selectedVoice tiktok st' = selectedVoice tiktok st.
Proof. intros H. unfold selectedVoice. by rewrite H. Qed.

Lemma stopSlideshow_says_nothing (st : State) :
  utterances (log (stopSlideshow st)) = utterances (log st).
Proof.
  unfold stopSlideshow, emit. simpl. destruct (speaking st); simpl; [|done].
  by rewrite utterances_app, app_nil_r.
Qed.

Lemma scrollSlideIntoView_says_nothing (s : Session) (st : State) :
  utterances (log (scrollSlideIntoView s st)) = utterances (log st)
  ∧ voices (scrollSlideIntoView s st) = voices st.
Proof.
  unfold scrollSlideIntoView, emit. destruct (_ !! _); simpl; [|done].
  by rewrite utterances_app, app_nil_r.
Qed.

(** A whole playback, utterance by utterance: each text goes to the
    engine with the voice that the short resolves to. *)
Lemma completions_utterances (rest : list SlideData) (s : Session) (st : State) (n : nat) :
  remaining s = rest → isPlaying st = true → (length rest ≤ n)%nat →
  let started := speakAndAdvance s st in
  let ended := completions n started.1 started.2 in
  utterances (log ended.2)
  = utterances (log st)
    ++ ((λ text, (text, selectedVoice (playing s) st))
        <$> filter (λ text, whitespaceOnly text = false) (lyrics <$> rest)).
Proof.
  revert s st n. induction rest as [|slide rest IH]; intros s st n Hrem Hplay Hn;
    cbv zeta; rewrite speakAndAdvance_step.
  - rewrite (remaining_nil s Hrem). simpl.
    pose proof (stopSlideshow_says_nothing st) as Hlog.
    destruct (stopSlideshow_quiet st) as [_ Hstop].
    destruct n; simpl; rewrite ?Hstop, ?app_nil_r; done.
  - destruct (remaining_cons s slide rest Hrem) as [-> Hrest].
    rewrite Hplay. cbn [negb]. cbv zeta. rewrite blank_whitespaceOnly.
    destruct (scrollSlideIntoView_says_nothing s st) as [Hlog Hvoices].
    destruct (scrollSlideIntoView_quiet s st) as [_ Hkeep].
    rewrite fmap_cons, filter_cons. simpl in Hn.
    destruct (whitespaceOnly (lyrics slide)) eqn:Hblank.
    + rewrite decide_False by done.
      specialize (IH (advance s) (scrollSlideIntoView s st) n Hrest).
      rewrite Hkeep, Hlog in IH.
      rewrite (selectedVoice_voices _ st _ Hvoices) in IH.
      apply IH; [done|lia].
    + rewrite decide_True by done.
      destruct n as [|n]; [lia|].
      rewrite (selectedVoice_voices _ st _ Hvoices).
      set (st0 := speak _ _ _).
      assert (isPlaying st0 = true) as Hplay0
        by (subst st0; unfold speak, emit; simpl; congruence).
      assert (voices (set_speaking false st0) = voices st) as Hvoices0
        by (subst st0; unfold speak, emit; simpl; congruence).
      assert (utterances (log (set_speaking false st0))
              = utterances (log st)
                ++ [(lyrics slide, selectedVoice (playing s) st)]) as Hlog0.
      { subst st0. unfold speak, emit. simpl. by rewrite utterances_app, Hlog. }
      cbn [completions fst snd]. rewrite Hplay0. unfold utterance_onend.
      specialize (IH (advance s) (set_speaking false st0) n Hrest Hplay0 ltac:(lia)).
      cbv zeta in IH.
      rewrite (selectedVoice_voices _ st _ Hvoices0), Hlog0 in IH.
      destruct (speakAndAdvance (advance s) (set_speaking false st0)) as [s2 st2].
      simpl in IH. rewrite IH. rewrite fmap_cons. by rewrite <- app_assoc.
Qed.

(** X4.  The voice selector offers the voices whose language tag starts
    with [en], and only those, in the order of the engine, each under
    its name and labelled with its name and language.  A short
    generated with one of them resolves to that voice as long as the
    engine still lists it; when the engine no longer lists the voice of
    a short, or the short was generated with no voice chosen, it resolves
    to none, which leaves the voice of the engine.  Over a whole
    playback every text handed to the engine carries the voice the short
    resolves to. *)
Theorem voice_choice_resolves (getVoices : list Voice) (tiktok : TikTok) (st : State) :
  option_value <$> populateVoices getVoices
  = voice_name <$> filter (λ voice, startsWith (lang voice) (lit "en") = true) getVoices
  ∧ option_text <$> populateVoices getVoices
    = (λ voice, voice_name voice ++ lit " (" ++ lang voice ++ lit ")")
      <$> filter (λ voice, startsWith (lang voice) (lit "en") = true) getVoices
  ∧ (∀ name, name ∈ option_value <$> populateVoices getVoices ↔
           ∃ voice, voice ∈ getVoices ∧ voice_name voice = name
                    ∧ startsWith (lang voice) (lit "en") = true)
  ∧ (∀ choice, voices st = voice_name <$> getVoices →
       choice ∈ option_value <$> populateVoices getVoices → choice ≠ [] →
       voiceName tiktok = Some choice → selectedVoice tiktok st = Some choice)
  ∧ (∀ choice, voiceName tiktok = Some choice → choice ∉ voices st →
       selectedVoice tiktok st = None)
  ∧ (voiceName tiktok = Some [] ∨ voiceName tiktok = None →
       selectedVoice tiktok st = None)
  ∧ (∀ s n, playing s = tiktok → isPlaying st = true →
       (length (remaining s) ≤ n)%nat →
       let started := speakAndAdvance s st in
       let ended := completions n started.1 started.2 in
       utterances (log ended.2)
       = utterances (log st)
         ++ ((λ text, (text, selectedVoice tiktok st))
             <$> filter (λ text, whitespaceOnly text = false) (lyrics <$> remaining s))).
Proof.
  assert (∀ name, name ∈ option_value <$> populateVoices getVoices ↔
           ∃ voice, voice ∈ getVoices ∧ voice_name voice = name
                    ∧ startsWith (lang voice) (lit "en") = true) as Hoptions.
  { intros name. unfold populateVoices. rewrite <- list_fmap_compose.
    rewrite list_elem_of_fmap. split.
    - intros (voice & -> & [Hen Hin]%list_elem_of_filter). eauto.
    - intros (voice & Hin & <- & Hen). exists voice. split; [done|].
      by apply list_elem_of_filter. }
  split_and!; [..|done| | | |].
  - unfold populateVoices. by rewrite <- list_fmap_compose.
  - unfold populateVoices. by rewrite <- list_fmap_compose.
  - intros choice Hvoices Hin Hne Hname. unfold selectedVoice. rewrite Hname.
    destruct choice as [|c choice]; [done|].
    rewrite bool_decide_eq_true_2; [done|].
    apply Hoptions in Hin as (voice & Hin & <- & _).
    rewrite Hvoices. apply list_elem_of_fmap. eauto.
  - intros choice Hname Hnot. unfold selectedVoice. rewrite Hname.
    destruct choice as [|c choice]; [done|]. by rewrite bool_decide_eq_false_2.
  - intros [H|H]; unfold selectedVoice; by rewrite H.
  - intros s n <- Hplay Hn. by apply completions_utterances.
Qed.

(** A short generated with the voice [Alice], which the engine lists:
    its three slides, of which two have text. *)
Lemma voice_choice_resolves_witness :
  selectedVoice threeSlides (set_isPlaying true (freshPage ∅)) = Some (lit "Alice")
  ∧ let started := speakAndAdvance fromTheStart (set_isPlaying true (freshPage ∅)) in
    let ended := completions 3 started.1 started.2 in
    utterances (log ended.2)
    = utterances (log (set_isPlaying true (freshPage ∅)))
      ++ ((λ text, (text, selectedVoice threeSlides (set_isPlaying true (freshPage ∅))))
          <$> filter (λ text, whitespaceOnly text = false)
                (lyrics <$> remaining fromTheStart)).
Proof.
  split.
  - refine (proj1 (proj2 (proj2 (proj2 (voice_choice_resolves
              [ {| voice_name := lit "Alice"; lang := lit "en-GB" |} ]
              threeSlides (set_isPlaying true (freshPage ∅))))))
            (lit "Alice") eq_refl _ _ eq_refl).
    + decide_closed.
    + discriminate.
  - exact (proj2 (proj2 (proj2 (proj2 (proj2 (proj2 (voice_choice_resolves
             [ {| voice_name := lit "Alice"; lang := lit "en-GB" |} ]
             threeSlides (set_isPlaying true (freshPage ∅))))))))
           fromTheStart 3%nat eq_refl eq_refl (le_n 3)).
Defined.

Example two_utterances_in_the_voice_of_the_short :
  let started := speakAndAdvance fromTheStart (set_isPlaying true (freshPage ∅)) in
  utterances (log (completions 3 started.1 started.2).2)
  = [ (lit "The sky is blue", Some (lit "Alice"));
      (lit "Light scatters", Some (lit "Alice")) ].
Proof. vm_compute. done. Qed.

Example only_english_voices :
  option_value <$> populateVoices sampleVoices = [lit "Alice"; lit "Daniel"]
  ∧ option_text <$> populateVoices sampleVoices
    = [lit "Alice (en-GB)"; lit "Daniel (en-US)"].
Proof. vm_compute. done. Qed.

(** ** Settings *)

Section Settings.
Context {U : Unicode}.

(** X5.  A toggle flips the theme and records it, so that a reload of
    the page (a body without the class, the same local storage) comes up
    in the theme toggled to, with the icons to match; a second toggle
    gives back the first theme; a stored theme other than [light] leaves
    the body as it is; and the stored API key is not touched. *)
Theorem theme_survives_reload (localStorage : gmap jsstring jsstring) (theme : Theme) :
  let toggled := toggleTheme localStorage theme in
  lightMode toggled.2 = negb (lightMode theme)
  ∧ (∀ reloaded, lightMode reloaded = false →
       lightMode (setupTheme toggled.1 reloaded) = lightMode toggled.2
       ∧ (is_Some (icons reloaded) →
          icons (setupTheme toggled.1 reloaded)
          = Some (if lightMode toggled.2 then (lit "none", lit "block")
                  else (lit "block", lit "none"))))
  ∧ lightMode (toggleTheme toggled.1 toggled.2).2 = lightMode theme
  ∧ (∀ reloaded, localStorage !! lit "theme" ≠ Some (lit "light") →
       lightMode (setupTheme localStorage reloaded) = lightMode reloaded)
  ∧ toggled.1 !! API_KEY_STORAGE_KEY = localStorage !! API_KEY_STORAGE_KEY.
Proof.
  assert (∀ b t, lightMode (updateThemeIcons b t) = lightMode t) as Hmode
    by (intros b t; unfold updateThemeIcons; by destruct (icons t)).
  simpl. split_and!.
  - by rewrite Hmode.
  - intros reloaded Hfresh. unfold setupTheme. rewrite lookup_insert_eq, !Hmode. simpl.
    destruct (lightMode theme); simpl; rewrite Hmode;
      (split; [done|]; intros [i Hi]; unfold updateThemeIcons; simpl; by rewrite Hi).
  - rewrite !Hmode. simpl. by destruct (lightMode theme).
  - intros reloaded Hstored. unfold setupTheme.
    rewrite bool_decide_eq_false_2 by done. apply Hmode.
  - apply lookup_insert_ne. by vm_compute.
Qed.

Lemma getApiKey_delete (API_KEY : option jsstring) (localStorage : gmap jsstring jsstring) :
  getApiKey API_KEY (delete API_KEY_STORAGE_KEY localStorage) = API_KEY.
Proof. unfold getApiKey. by rewrite lookup_delete_eq. Qed.

Lemma getApiKey_insert (API_KEY : option jsstring) (c : N) (key : jsstring)
    (localStorage : gmap jsstring jsstring) :
  getApiKey API_KEY (<[API_KEY_STORAGE_KEY := c :: key]> localStorage) = Some (c :: key).
Proof. unfold getApiKey. by rewrite lookup_insert_eq. Qed.

(** X6.  Saving a key that is not blank stores it trimmed: it is the
    key [getApiKey] returns from then on, whatever the environment
    provides, and the one the key dialog shows; a client is installed
    exactly when its constructor accepts the key, and a constructor that
    throws leaves no client and reports it.  The stored theme is not
    touched. *)
Theorem saved_api_key_is_used (construct : jsstring → option jsstring)
    (API_KEY : option jsstring) (apiKeyInput : jsstring)
    (localStorage : gmap jsstring jsstring) (st : State) :
  trim apiKeyInput ≠ [] →
  let saved := handleSaveApiKey construct API_KEY apiKeyInput localStorage st in
  getApiKey API_KEY saved.1 = Some (trim apiKeyInput)
  ∧ openApiKeyModal saved.1 = trim apiKeyInput
  ∧ (construct (trim apiKeyInput) = None →
     ai saved.2 = true ∧ errorModal saved.2 = errorModal st)
  ∧ (∀ e, construct (trim apiKeyInput) = Some e →
     ai saved.2 = false
     ∧ errorModal saved.2 = Some (lit "Failed to initialize Gemini Client: " ++ e))
  ∧ saved.1 !! lit "theme" = localStorage !! lit "theme".
Proof.
  intros Hkey. unfold handleSaveApiKey, initializeGenAI, openApiKeyModal.
  destruct (trim apiKeyInput) as [|c key] eqn:Htrim; [done|].
  cbv zeta. cbn [fst snd]. rewrite !getApiKey_insert, lookup_insert_eq.
  split_and!; try done.
  - by intros ->.
  - by intros e ->.
  - apply lookup_insert_ne. by vm_compute.
Qed.

(** X7.  Saving a blank key removes the stored one, and the key of the
    environment is the one in use again; when the environment has none,
    no client is left, and a later [generate] on a question only shows
    the popup that asks for a key: no flag set, no request sent. *)
Theorem cleared_api_key_stops_generation (construct : jsstring → option jsstring)
    (API_KEY : option jsstring) (apiKeyInput : jsstring)
    (localStorage : gmap jsstring jsstring) (st : State) :
  trim apiKeyInput = [] →
  let saved := handleSaveApiKey construct API_KEY apiKeyInput localStorage st in
  saved.1 !! API_KEY_STORAGE_KEY = None
  ∧ getApiKey API_KEY saved.1 = API_KEY
  ∧ (API_KEY = None ∨ API_KEY = Some [] →
     ai saved.2 = false
     ∧ ∀ question, trim question ≠ [] → isGenerating st = false →
         let after := generate (typed question saved.2) in
         errorModal after
         = Some (lit "The Gemini client is not initialized. Please add your Gemini API key using the key icon in the header.")
         ∧ log after = log saved.2 ∧ isGenerating after = false
         ∧ inflight after = inflight st).
Proof.
  intros Hkey. unfold handleSaveApiKey, initializeGenAI.
  rewrite Hkey. cbv zeta. cbn [fst snd]. rewrite !getApiKey_delete.
  split_and!; [apply lookup_delete_eq|done|].
  intros Henv.
  assert (∀ question, trim (userInput (typed question st)) = trim question) as Htyped
    by done.
  destruct Henv as [-> | ->];
    (split; [done|]; intros question Hq Hidle; unfold generate;
     cbn [userInput typed emit set_ai set_log isGenerating ai negb];
     rewrite Hidle, bool_decide_eq_false_2 by done; done).
Qed.

End Settings.

Lemma theme_survives_reload_witness :
  lightMode
    (setupTheme (toggleTheme ∅ {| lightMode := false; icons := None |}).1
       {| lightMode := false; icons := Some (lit "block", lit "none") |})
  = lightMode (toggleTheme ∅ {| lightMode := false; icons := None |}).2.
Proof.
  exact (proj1 (proj1 (proj2 (theme_survives_reload ∅
                                {| lightMode := false; icons := None |}))
                  {| lightMode := false; icons := Some (lit "block", lit "none") |}
                  eq_refl)).
Defined.

Lemma saved_api_key_is_used_witness :
  getApiKey (Some (lit "from-the-environment"))
    (handleSaveApiKey (λ _, None) (Some (lit "from-the-environment"))
       (lit "  my-key ") ∅ (freshPage ∅)).1
  = Some (trim (lit "  my-key ")).
Proof.
  refine (proj1 (saved_api_key_is_used (λ _, None)
                   (Some (lit "from-the-environment")) (lit "  my-key ") ∅
                   (freshPage ∅) _)).
  vm_compute. discriminate.
Defined.

Lemma cleared_api_key_stops_generation_witness :
  ai (handleSaveApiKey (λ _, None) None (lit "  ")
        {[ API_KEY_STORAGE_KEY := lit "old-key" ]} (freshPage ∅)).2
  = false.
Proof.
  refine (proj1 (proj2 (proj2 (cleared_api_key_stops_generation (U := BasicLatin)
            (λ _, None) None (lit "  ")
            {[ API_KEY_STORAGE_KEY := lit "old-key" ]} (freshPage ∅) _))
          (or_introl eq_refl))).
  vm_compute. reflexivity.
Defined.

(** ** Generation, from the click to the save *)

Section Flow.
Context {U : Unicode}.

Ltac program :=
  unfold generate_saved, generate_finally, generate_catch, images_catch,
    saveAndRender_resume, saveAndRender_start, saveAndRender_catch,
    saveTikTokToDB_settle, saveTikTokToDB_request, renderHistoryGallery,
    addTikTokToFeed, startBackgroundMusic, generateImageFromPrompt_request,
    stopSlideshow, showErrorPopup, suspend, emit in *.

Ltac path :=
  match goal with
  | H : ?y = _ |- context [match ?x with _ => _ end] =>
      lazymatch x with context [y] => rewrite H end
  | |- context [match ?x with _ => _ end] =>
      lazymatch x with
      | context [match _ with _ => _ end] => fail
      | _ => destruct x eqn:?
      end
  end.
Ltac paths := repeat (simpl; path); simpl.

(** Reads a field off a state built by assignments. *)
Ltac state :=
  cbn [isPlaying isGenerating selectedStyle savedTikToks activeTikTokContainer
       backgroundAudio ai db store userInput voiceSelector characterSelector
       customCharacterInput slideshow slideshowHidden initialMessageHidden
       historyGallery errorModal generateBtnDisabled generateBtnText
       slideshowPaused speaking voices audioElements log inflight
       set_isPlaying set_isGenerating set_savedTikToks set_backgroundAudio
       set_store set_slideshow set_slideshowHidden set_initialMessageHidden
       set_historyGallery set_errorModal set_generateBtnDisabled
       set_generateBtnText set_slideshowPaused set_speaking set_log set_inflight
       set_ai set_selectedStyle set_activeTikTokContainer
       set_characterSelector set_customCharacterInput set_db typed
       fst snd negb orb andb] in *.

Lemma generate_narrator (st : State) :
  isGenerating st = false → ai st = true → trim (userInput st) ≠ [] →
  generate st
  = let started :=
      set_slideshowHidden false
        (set_initialMessageHidden true
           (stopSlideshow
              (set_generateBtnText (lit "Generating...")
                 (set_generateBtnDisabled true (set_isGenerating true st))))) in
    if bool_decide (narratorOf st = []) then
      generate_finally
        (showErrorPopup (lit "Please enter or select a narrator.") started)
    else
      suspend (AwaitSong (trim (userInput st)) (voiceSelector st) (narratorOf st))
        (emit (TextRequest (trim (userInput st) ++ newline
                            ++ getInstructionsForSong (narratorOf st)))
              started).
Proof.
  intros Hidle Hai Hq. unfold generate, narratorOf.
  rewrite Hidle, Hai, bool_decide_eq_false_2 by done. cbn [negb orb].
  unfold stopSlideshow, emit. state. destruct (speaking st); reflexivity.
Qed.

Lemma promiseAll_all {A} (outcome : nat → A + jsstring) (value : nat → A) (l : list nat) :
  Forall (λ i, outcome i = inl (value i)) l →
  promiseAll (outcome <$> l) = inl (value <$> l).
Proof.
  induction 1 as [|i l Hi _ IH]; [done|]. rewrite !fmap_cons. simpl.
  by rewrite Hi, IH.
Qed.

Lemma generate_images_saves (m v c : jsstring) (song : list SongSlide)
    (beat : jsstring) (respond : nat → ImageResult) (image : nat → jsstring)
    (now : N) (st : State) :
  song ≠ [] → db st = true →
  (∀ i, (i < length song)%nat → generateImageFromPrompt_settle (respond i) = inl (image i)) →
  let new :=
    {| id := now;
       slides := zip_with (λ part img, {| lyrics := song_lyrics part; imageSrc := img |})
                          song (image <$> seq 0 (length song));
       character := c; prompt := m; instrumentalId := Some beat;
       voiceName := Some v; element := None |} in
  generate_images m v c song beat respond now st
  = suspend (AwaitPut new)
      (emit (StorePut (savable new)) (set_savedTikToks (new :: savedTikToks st) st)).
Proof.
  intros Hsong Hdb Himages new. unfold generate_images.
  rewrite (promiseAll_all _ image).
  2:{ apply Forall_forall. intros i Hi%elem_of_seq. apply Himages. lia. }
  fold new. rewrite bool_decide_eq_true_2.
  2:{ subst new. cbn [slides]. rewrite length_zip_with, length_fmap, length_seq.
      destruct song; [done|simpl; lia]. }
  unfold saveAndRender_start, saveTikTokToDB_request. state. by rewrite Hdb.
Qed.

Lemma saveAndRender_resume_shows (new : TikTok) (rest : list TikTok) (st : State) :
  savedTikToks st = new :: rest → slides new ≠ [] →
  Forall (λ t, slides t ≠ []) rest →
  ∃ thumb thumbs,
    thumbnail new = Some thumb ∧ thumbnail <$> rest = Some <$> thumbs
    ∧ saveAndRender_resume new PutSucceeds st
      = emit ScrollFeedToTop
          (set_historyGallery (thumb :: thumbs)
             (set_savedTikToks (set_element (feedItem new) new :: rest)
                (set_slideshow (feedItem new :: slideshow st)
                   (set_store (<[id new := savable new]> (store st)) st)))).
Proof.
  intros Hsaved Hslides Hrest.
  destruct (thumbnail_is_Some new Hslides) as [thumb Hthumb].
  destruct (thumbnails_exist rest Hrest) as [thumbs Hthumbs].
  exists thumb, thumbs. split_and!; [done..|].
  unfold saveAndRender_resume, saveTikTokToDB_settle, addTikTokToFeed. state.
  rewrite Hsaved. cbn [lookup list_lookup]. fold (feedItem new). state.
  cbn [insert list_insert]. unfold renderHistoryGallery. state.
  rewrite (appendThumbnails_all _ [] (thumb :: thumbs)).
  2:{ rewrite !fmap_cons, Hthumbs. f_equal. exact Hthumb. }
  reflexivity.
Qed.

(** Stopping and starting the music change only the fields they are
    about. *)
Lemma stopSlideshow_shape (st : State) :
  stopSlideshow st
  = set_speaking false
      (set_log (log (stopSlideshow st))
         (set_slideshowPaused true (set_isPlaying false st))).
Proof.
  unfold stopSlideshow, emit. state.
  destruct (speaking st) eqn:Hs; [reflexivity|].
  destruct st. simpl in Hs. by subst.
Qed.

Lemma startBackgroundMusic_shape (beat : jsstring) (st : State) :
  startBackgroundMusic beat st
  = set_backgroundAudio (backgroundAudio (startBackgroundMusic beat st))
      (set_log (log (startBackgroundMusic beat st)) st).
Proof.
  unfold startBackgroundMusic, emit.
  destruct (backgroundAudio st) eqn:Hb; case_bool_decide; state; try reflexivity.
  by destruct st.
Qed.

Lemma textRequests_app (l1 l2 : list Effect) :
  textRequests (l1 ++ l2) = textRequests l1 ++ textRequests l2.
Proof. apply omap_app. Qed.

Lemma stopSlideshow_log (st : State) :
  textRequests (log (stopSlideshow st)) = textRequests (log st)
  ∧ imageRequests (log (stopSlideshow st)) = imageRequests (log st)
  ∧ storePuts (log (stopSlideshow st)) = storePuts (log st).
Proof.
  unfold stopSlideshow, emit, textRequests, imageRequests, storePuts. state.
  destruct (speaking st); state; rewrite ?omap_app, ?app_nil_r; done.
Qed.

Lemma request_sent (k : Suspended) (e : Effect) (S : State) :
  let after :=
    suspend k (emit e (set_slideshowHidden false
                         (set_initialMessageHidden true (stopSlideshow S)))) in
  log after = log (stopSlideshow S) ++ [e]
  ∧ inflight after = inflight S ++ [k]
  ∧ isGenerating after = isGenerating S
  ∧ generateBtnDisabled after = generateBtnDisabled S
  ∧ isPlaying after = false
  ∧ savedTikToks after = savedTikToks S ∧ store after = store S.
Proof. cbv zeta. rewrite stopSlideshow_shape. split_and!; reflexivity. Qed.

Lemma narrator_missing (message : jsstring) (S : State) :
  let after :=
    generate_finally
      (showErrorPopup message
         (set_slideshowHidden false
            (set_initialMessageHidden true (stopSlideshow S)))) in
  errorModal after = Some message
  ∧ log after = log (stopSlideshow S) ++ [FocusInput]
  ∧ inflight after = inflight S
  ∧ isGenerating after = false ∧ generateBtnDisabled after = false
  ∧ generateBtnText after = lit "Generate Shorts"
  ∧ isPlaying after = false
  ∧ savedTikToks after = savedTikToks S ∧ store after = store S.
Proof. cbv zeta. rewrite stopSlideshow_shape. split_and!; reflexivity. Qed.

(** X8.  With a client, a question and a narrator, and no generation
    under way, [generate] stops the playback, sets the busy flag,
    disables the button and sends one text request: the trimmed question,
    a line break, and the instructions for the narrator, who is the
    custom text when the selector says [custom] and the selected one
    otherwise. *)
Theorem generate_sends_the_question (st : State) :
  isGenerating st = false → ai st = true →
  trim (userInput st) ≠ [] → narratorOf st ≠ [] →
  let after := generate st in
  textRequests (log after)
  = textRequests (log st)
    ++ [trim (userInput st) ++ newline ++ getInstructionsForSong (narratorOf st)]
  ∧ imageRequests (log after) = imageRequests (log st)
  ∧ inflight after
    = inflight st ++ [AwaitSong (trim (userInput st)) (voiceSelector st) (narratorOf st)]
  ∧ isGenerating after = true ∧ generateBtnDisabled after = true
  ∧ isPlaying after = false
  ∧ savedTikToks after = savedTikToks st ∧ store after = store st.
Proof.
  intros Hidle Hai Hq Hnarrator after. subst after.
  rewrite generate_narrator by done. cbv zeta.
  rewrite bool_decide_eq_false_2 by done.
  match goal with |- context [suspend ?k (emit ?e (_ _ (_ _ (stopSlideshow ?S))))] =>
    destruct (request_sent k e S) as (-> & -> & -> & -> & -> & -> & ->);
    destruct (stopSlideshow_log S) as (Ht & Hi & _)
  end.
  rewrite textRequests_app, imageRequests_app, Ht, Hi.
  split_and!; try reflexivity. apply app_nil_r.
Qed.

(** X9.  Without a narrator (the selector says [custom] and the custom
    text is blank, or the selector has no value), [generate] asks for
    one in the popup and ends: no request goes out, the busy flag and the
    button are back as they were before the click; the playback has been
    stopped all the same. *)
Theorem generate_needs_a_narrator (st : State) :
  isGenerating st = false → ai st = true →
  trim (userInput st) ≠ [] → narratorOf st = [] →
  let after := generate st in
  errorModal after = Some (lit "Please enter or select a narrator.")
  ∧ textRequests (log after) = textRequests (log st)
  ∧ inflight after = inflight st
  ∧ isGenerating after = false ∧ generateBtnDisabled after = false
  ∧ generateBtnText after = lit "Generate Shorts"
  ∧ isPlaying after = false
  ∧ savedTikToks after = savedTikToks st ∧ store after = store st.
Proof.
  intros Hidle Hai Hq Hnarrator after. subst after.
  rewrite generate_narrator by done. cbv zeta.
  rewrite bool_decide_eq_true_2 by done.
  match goal with |- context [generate_finally (showErrorPopup ?m (_ _ (_ _ (stopSlideshow ?S))))] =>
    destruct (narrator_missing m S) as (-> & -> & -> & -> & -> & -> & -> & -> & ->);
    destruct (stopSlideshow_log S) as (Ht & _ & _)
  end.
  rewrite textRequests_app, Ht.
  split_and!; try reflexivity. apply app_nil_r.
Qed.

(** ** One generation, from the click to the feed *)

Lemma step_click (st : State) : step st ClickGenerate = generate st.
Proof. reflexivity. Qed.

Lemma step_song (m v c : jsstring) (rest : list Suspended) (r : SongResult) (st : State) :
  inflight st = AwaitSong m v c :: rest →
  step st (SongArrives r) = generate_song m v c r (set_inflight rest st).
Proof. intros H. unfold step. by rewrite H. Qed.

Lemma step_images (m v c : jsstring) (song : list SongSlide) (beat : jsstring)
    (rest : list Suspended) (respond : nat → ImageResult) (now : N) (st : State) :
  inflight st = AwaitImages m v c song beat :: rest →
  step st (ImagesArrive respond now)
  = generate_images m v c song beat respond now (set_inflight rest st).
Proof. intros H. unfold step. by rewrite H. Qed.

Lemma step_put (tiktok : TikTok) (rest : list Suspended) (r : PutResult) (st : State) :
  inflight st = AwaitPut tiktok :: rest →
  step st (PutSettles r) = generate_saved tiktok r (set_inflight rest st).
Proof. intros H. unfold step. by rewrite H. Qed.

Lemma request_sent_page (k : Suspended) (e : Effect) (S : State) :
  let after :=
    suspend k (emit e (set_slideshowHidden false
                         (set_initialMessageHidden true (stopSlideshow S)))) in
  slideshow after = slideshow S ∧ historyGallery after = historyGallery S
  ∧ errorModal after = errorModal S
  ∧ initialMessageHidden after = true ∧ slideshowHidden after = false
  ∧ ai after = ai S ∧ db after = db S ∧ selectedStyle after = selectedStyle S
  ∧ backgroundAudio after = backgroundAudio S
  ∧ audioElements after = audioElements S.
Proof. cbv zeta. rewrite stopSlideshow_shape. split_and!; reflexivity. Qed.

Lemma images_requested (k : Suspended) (l : list Effect) (beat : jsstring) (S : State) :
  let after := suspend k (set_log l (startBackgroundMusic beat S)) in
  log after = l ∧ inflight after = inflight S ++ [k]
  ∧ isGenerating after = isGenerating S
  ∧ generateBtnDisabled after = generateBtnDisabled S
  ∧ savedTikToks after = savedTikToks S ∧ store after = store S
  ∧ slideshow after = slideshow S ∧ historyGallery after = historyGallery S
  ∧ errorModal after = errorModal S
  ∧ initialMessageHidden after = initialMessageHidden S
  ∧ slideshowHidden after = slideshowHidden S
  ∧ ai after = ai S ∧ db after = db S.
Proof. cbv zeta. rewrite startBackgroundMusic_shape. split_and!; reflexivity. Qed.

Lemma put_requested (k : Suspended) (e : Effect) (l : list TikTok) (S : State) :
  let after := suspend k (emit e (set_savedTikToks l S)) in
  log after = log S ++ [e] ∧ inflight after = inflight S ++ [k]
  ∧ isGenerating after = isGenerating S
  ∧ generateBtnDisabled after = generateBtnDisabled S
  ∧ savedTikToks after = l ∧ store after = store S
  ∧ slideshow after = slideshow S ∧ historyGallery after = historyGallery S
  ∧ errorModal after = errorModal S
  ∧ initialMessageHidden after = initialMessageHidden S
  ∧ slideshowHidden after = slideshowHidden S.
Proof. cbv zeta. split_and!; reflexivity. Qed.

Lemma shown (g : list Thumbnail) (l : list TikTok) (f : list Container)
    (m : gmap N TikTok) (S : State) :
  let after :=
    generate_finally
      (emit ScrollFeedToTop
         (set_historyGallery g (set_savedTikToks l (set_slideshow f (set_store m S))))) in
  log after = log S ++ [ScrollFeedToTop; FocusInput] ∧ inflight after = inflight S
  ∧ isGenerating after = false ∧ generateBtnDisabled after = false
  ∧ savedTikToks after = l ∧ store after = m
  ∧ slideshow after = f ∧ historyGallery after = g
  ∧ errorModal after = errorModal S
  ∧ initialMessageHidden after = initialMessageHidden S
  ∧ slideshowHidden after = slideshowHidden S.
Proof.
  cbv zeta. unfold generate_finally, emit. state. rewrite <- app_assoc.
  split_and!; reflexivity.
Qed.

Lemma storePuts_app (l1 l2 : list Effect) :
  storePuts (l1 ++ l2) = storePuts l1 ++ storePuts l2.
Proof. apply omap_app. Qed.

Lemma startBackgroundMusic_log (beat : jsstring) (st : State) :
  textRequests (log (startBackgroundMusic beat st)) = textRequests (log st)
  ∧ imageRequests (log (startBackgroundMusic beat st)) = imageRequests (log st)
  ∧ storePuts (log (startBackgroundMusic beat st)) = storePuts (log st).
Proof.
  unfold startBackgroundMusic, emit, textRequests, imageRequests, storePuts.
  destruct (backgroundAudio st); case_bool_decide; state;
    rewrite ?omap_app, ?app_nil_r; done.
Qed.

Lemma requests_only_images {A} (f : A → jsstring) (l : list A) :
  textRequests (ImageRequest ∘ f <$> l) = []
  ∧ storePuts (ImageRequest ∘ f <$> l) = [].
Proof. induction l as [|a l [IH1 IH2]]; simpl; done. Qed.

Lemma assembled_slides (now : N) (st : State) (songData : SongStructure)
    (songStructure : list SongSlide) (image : nat → jsstring) :
  let new := assembled now st songData songStructure
               (image <$> seq 0 (length songStructure)) in
  lyrics <$> slides new = song_lyrics <$> songStructure
  ∧ imageSrc <$> slides new = image <$> seq 0 (length songStructure).
Proof.
  cbv zeta. unfold assembled. cbn [slides].
  generalize 0%nat. induction songStructure as [|part song IH]; intros n; [done|].
  cbn [length seq fmap list_fmap zip_with]. destruct (IH (S n)) as [IH1 IH2].
  split; f_equal; assumption.
Qed.

(** X10.  A generation that meets no failure, from the click to the
    save: with a client, a database, a question and a narrator, a song of
    at least one slide and an image for each of them, the short
    assembled from the song and the images is put first in the list,
    with its feed item first in the feed; the store holds it under its
    [id]; the gallery shows a thumbnail for every short of the list;
    exactly one text request, one image request per slide and one put
    have gone out; the busy flag and the button are released, no popup
    is raised, and the feed is visible. *)
Theorem generation_shows_the_short (st : State) (songData : SongStructure)
    (songStructure : list SongSlide) (respond : nat → ImageResult)
    (image : nat → jsstring) (now : N) :
  isGenerating st = false → inflight st = [] → ai st = true → db st = true →
  trim (userInput st) ≠ [] → narratorOf st ≠ [] →
  song_slides songData = Some songStructure → songStructure ≠ [] →
  (∀ i, (i < length songStructure)%nat →
        generateImageFromPrompt_settle (respond i) = inl (image i)) →
  Forall (λ tiktok, slides tiktok ≠ []) (savedTikToks st) →
  let new := assembled now st songData songStructure
               (image <$> seq 0 (length songStructure)) in
  let after := run st [ClickGenerate; SongArrives (SongParsed (Some songData));
                       ImagesArrive respond now; PutSettles PutSucceeds] in
  savedTikToks after = set_element (feedItem new) new :: savedTikToks st
  ∧ slideshow after = feedItem new :: slideshow st
  ∧ store after = <[now := new]> (store st)
  ∧ thumbnail <$> savedTikToks after = Some <$> historyGallery after
  ∧ textRequests (log after)
    = textRequests (log st)
      ++ [trim (userInput st) ++ newline ++ getInstructionsForSong (narratorOf st)]
  ∧ imageRequests (log after)
    = imageRequests (log st)
      ++ (finalPrompt (selectedStyle st) ∘ image_prompt <$> songStructure)
  ∧ storePuts (log after) = storePuts (log st) ++ [new]
  ∧ isGenerating after = false ∧ inflight after = []
  ∧ generateBtnDisabled after = false
  ∧ errorModal after = errorModal st
  ∧ initialMessageHidden after = true ∧ slideshowHidden after = false.
Proof.
  intros Hidle Hin Hai Hdb Hq Hnarrator Hslides Hsong Himages Hrest new after.
  subst after. unfold run. cbn [foldl].
  (* the click *)
  rewrite step_click, generate_narrator by done. cbv zeta.
  rewrite bool_decide_eq_false_2 by done.
  match goal with |- context [suspend ?k (emit ?e (?f (?g (stopSlideshow ?S))))] =>
    pose proof (request_sent k e S) as A1; pose proof (request_sent_page k e S) as A2;
    pose proof (stopSlideshow_log S) as A3;
    cbv zeta in A1, A2;
    generalize dependent (suspend k (emit e (f (g (stopSlideshow S)))))
  end.
  intros st1 A1 A2. state.
  destruct A1 as (Hlog1 & Hin1 & Hgen1 & Hbtn1 & _ & Hsaved1 & Hstore1).
  destruct A2 as (Hfeed1 & Hgal1 & Herr1 & Himh1 & Hsh1 & Hai1 & Hdb1 & Hstyle1 & _).
  destruct A3 as (At & Ai & Ap).
  rewrite Hin in Hin1. cbn [app] in Hin1.
  (* the song *)
  rewrite (step_song _ _ _ _ _ _ Hin1).
  rewrite (generate_song_slides _ _ _ songData songStructure _ Hslides Hsong)
    by (state; congruence).
  cbv zeta.
  match goal with |- context [suspend ?k (set_log ?l (startBackgroundMusic ?b ?S))] =>
    pose proof (images_requested k l b S) as B1;
    pose proof (startBackgroundMusic_log b S) as B2;
    cbv zeta in B1;
    generalize dependent (suspend k (set_log l (startBackgroundMusic b S)))
  end.
  intros st2 B1. state.
  destruct B1 as (Hlog2 & Hin2 & Hgen2 & Hbtn2 & Hsaved2 & Hstore2 & Hfeed2 & Hgal2
                  & Herr2 & Himh2 & Hsh2 & Hai2 & Hdb2).
  destruct B2 as (Bt & Bi & Bp).
  cbn [app] in Hin2.
  (* the images *)
  rewrite (step_images _ _ _ _ _ _ _ _ _ Hin2).
  rewrite (generate_images_saves _ _ _ _ _ respond image now _ Hsong);
    [|state; congruence|exact Himages].
  cbv zeta.
  match goal with |- context [suspend ?k (emit ?e (set_savedTikToks ?l ?S))] =>
    pose proof (put_requested k e l S) as C1; cbv zeta in C1;
    generalize dependent (suspend k (emit e (set_savedTikToks l S)))
  end.
  intros st3 C1. state.
  destruct C1 as (Hlog3 & Hin3 & Hgen3 & Hbtn3 & Hsaved3 & Hstore3 & Hfeed3 & Hgal3
                  & Herr3 & Himh3 & Hsh3).
  cbn [app] in Hin3.
  match type of Hin3 with _ = [AwaitPut ?t] => change t with new in * end.
  change (savable new) with new in *.
  (* the put *)
  rewrite (step_put _ _ _ _ Hin3). unfold generate_saved.
  destruct (assembled_slides now st songData songStructure image) as [Hlyrics _].
  fold new in Hlyrics.
  destruct (saveAndRender_resume_shows new (savedTikToks st) (set_inflight [] st3))
    as (thumb & thumbs & Hthumb & Hthumbs & ->).
  { state. congruence. }
  { intros Hnone. rewrite Hnone in Hlyrics. by destruct songStructure. }
  { exact Hrest. }
  match goal with |- context [generate_finally (emit _ (set_historyGallery ?g (set_savedTikToks ?l (set_slideshow ?f (set_store ?m ?S)))))] =>
    pose proof (shown g l f m S) as D1; cbv zeta in D1;
    generalize dependent (generate_finally (emit ScrollFeedToTop (set_historyGallery g (set_savedTikToks l (set_slideshow f (set_store m S))))))
  end.
  intros st4 D1. state.
  destruct D1 as (Hlog4 & Hin4 & Hgen4 & Hbtn4 & Hsaved4 & Hstore4 & Hfeed4 & Hgal4
                  & Herr4 & Himh4 & Hsh4).
  assert (textRequests (log st2) = textRequests (log st1)
          ∧ imageRequests (log st2)
            = imageRequests (log st1)
              ++ (finalPrompt (selectedStyle st) ∘ image_prompt <$> songStructure)
          ∧ storePuts (log st2) = storePuts (log st1)) as (Ct & Ci & Cp).
  { rewrite Hlog2, textRequests_app, imageRequests_app, storePuts_app, Bt, Bi, Bp, Hstyle1.
    split_and!.
    - rewrite <- (app_nil_r (textRequests (log st1))) at 2. f_equal.
      apply (requests_only_images (finalPrompt (selectedStyle st) ∘ image_prompt)).
    - f_equal. apply (imageRequests_sent (finalPrompt (selectedStyle st) ∘ image_prompt)).
    - rewrite <- (app_nil_r (storePuts (log st1))) at 2. f_equal.
      apply (requests_only_images (finalPrompt (selectedStyle st) ∘ image_prompt)). }
  split_and!.
  - exact Hsaved4.
  - congruence.
  - rewrite Hstore4. change (id new) with now. change (savable new) with new. congruence.
  - rewrite Hsaved4, Hgal4, !fmap_cons, Hthumbs. f_equal. exact Hthumb.
  - rewrite Hlog4, Hlog3, !textRequests_app, Ct, Hlog1, textRequests_app, At.
    change (textRequests [TextRequest ?x]) with [x].
    change (textRequests [StorePut new]) with (@nil jsstring).
    change (textRequests [ScrollFeedToTop; FocusInput]) with (@nil jsstring).
    by rewrite !app_nil_r.
  - rewrite Hlog4, Hlog3, !imageRequests_app, Ci, Hlog1, imageRequests_app, Ai.
    change (imageRequests [TextRequest ?x]) with (@nil jsstring).
    change (imageRequests [StorePut new]) with (@nil jsstring).
    change (imageRequests [ScrollFeedToTop; FocusInput]) with (@nil jsstring).
    by rewrite !app_nil_r.
  - rewrite Hlog4, Hlog3, !storePuts_app, Cp, Hlog1, storePuts_app, Ap.
    change (storePuts [TextRequest ?x]) with (@nil TikTok).
    change (storePuts [StorePut new]) with [new].
    change (storePuts [ScrollFeedToTop; FocusInput]) with (@nil TikTok).
    by rewrite !app_nil_r.
  - exact Hgen4.
  - exact Hin4.
  - exact Hbtn4.
  - congruence.
  - congruence.
  - congruence.
Qed.

(** ** Generations that fail *)

(** The click, for the stages that follow it. *)
Lemma generate_started (st : State) :
  isGenerating st = false → inflight st = [] → ai st = true →
  trim (userInput st) ≠ [] → narratorOf st ≠ [] →
  ∃ st1, generate st = st1
    ∧ inflight st1
      = [AwaitSong (trim (userInput st)) (voiceSelector st) (narratorOf st)]
    ∧ isGenerating st1 = true ∧ ai st1 = true ∧ db st1 = db st
    ∧ selectedStyle st1 = selectedStyle st
    ∧ savedTikToks st1 = savedTikToks st ∧ store st1 = store st
    ∧ slideshow st1 = slideshow st ∧ historyGallery st1 = historyGallery st
    ∧ initialMessageHidden st1 = true ∧ slideshowHidden st1 = false
    ∧ backgroundAudio st1 = backgroundAudio st
    ∧ audioElements st1 = audioElements st.
Proof.
  intros Hidle Hin Hai Hq Hnarrator.
  rewrite generate_narrator by done. cbv zeta.
  rewrite bool_decide_eq_false_2 by done.
  match goal with |- context [suspend ?k (emit ?e (?f (?g (stopSlideshow ?S))))] =>
    pose proof (request_sent k e S) as A1; pose proof (request_sent_page k e S) as A2;
    cbv zeta in A1, A2;
    generalize dependent (suspend k (emit e (f (g (stopSlideshow S)))))
  end.
  intros st1 A1 A2. state. exists st1.
  destruct A1 as (_ & Hin1 & Hgen1 & _ & _ & Hsaved1 & Hstore1).
  destruct A2 as (Hfeed1 & Hgal1 & _ & Himh1 & Hsh1 & Hai1 & Hdb1 & Hstyle1 & Hbg1 & Haudio1).
  rewrite Hin in Hin1. split_and!; try done. congruence.
Qed.

(** The song, for the stages that follow it. *)
Lemma song_arrived (m v c : jsstring) (songData : SongStructure)
    (songStructure : list SongSlide) (st1 : State) :
  inflight st1 = [AwaitSong m v c] → ai st1 = true →
  song_slides songData = Some songStructure → songStructure ≠ [] →
  ∃ st2, step st1 (SongArrives (SongParsed (Some songData))) = st2
    ∧ inflight st2
      = [AwaitImages m v c songStructure (selectBeatForStyle (musicStyle songData))]
    ∧ isGenerating st2 = isGenerating st1 ∧ db st2 = db st1
    ∧ savedTikToks st2 = savedTikToks st1 ∧ store st2 = store st1
    ∧ slideshow st2 = slideshow st1 ∧ historyGallery st2 = historyGallery st1
    ∧ initialMessageHidden st2 = initialMessageHidden st1
    ∧ slideshowHidden st2 = slideshowHidden st1.
Proof.
  intros Hin1 Hai1 Hslides Hsong.
  rewrite (step_song _ _ _ _ _ _ Hin1).
  rewrite (generate_song_slides _ _ _ songData songStructure _ Hslides Hsong)
    by (state; congruence).
  cbv zeta.
  match goal with |- context [suspend ?k (set_log ?l (startBackgroundMusic ?b ?S))] =>
    pose proof (images_requested k l b S) as B1; cbv zeta in B1;
    generalize dependent (suspend k (set_log l (startBackgroundMusic b S)))
  end.
  intros st2 B1. state. exists st2.
  destruct B1 as (_ & Hin2 & Hgen2 & _ & Hsaved2 & Hstore2 & Hfeed2 & Hgal2
                  & _ & Himh2 & Hsh2 & _ & Hdb2).
  split_and!; done.
Qed.

Lemma gave_up (e : jsstring) (S : State) :
  let after := generate_finally (generate_catch e S) in
  errorModal after = Some (lit "Something went wrong: " ++ e)
  ∧ isGenerating after = false ∧ inflight after = inflight S
  ∧ slideshow after = slideshow S
  ∧ match slideshow S with
    | [] => initialMessageHidden after = false ∧ slideshowHidden after = true
    | _ :: _ => initialMessageHidden after = initialMessageHidden S
                ∧ slideshowHidden after = slideshowHidden S
    end.
Proof.
  cbv zeta. unfold generate_finally, generate_catch, showErrorPopup, emit. state.
  destruct (slideshow S) as [|item feed] eqn:Hfeed.
  - rewrite bool_decide_eq_true_2 by done. state. by rewrite Hfeed.
  - rewrite bool_decide_eq_false_2 by done. state. by rewrite Hfeed.
Qed.

Lemma images_gave_up (e : jsstring) (S : State) :
  let after := generate_finally (images_catch e S) in
  errorModal after
  = Some (lit "Failed to generate images: " ++ e ++ lit ". Please try again.")
  ∧ isGenerating after = false ∧ inflight after = inflight S
  ∧ slideshow after = slideshow S
  ∧ initialMessageHidden after = initialMessageHidden S
  ∧ slideshowHidden after = slideshowHidden S.
Proof. cbv zeta. split_and!; reflexivity. Qed.

(** X11.  What the page shows after a generation that fails.  When
    there is no song, the page goes back to its initial message if the
    feed is empty, and keeps showing the feed otherwise.  When an image
    request is rejected, the page is left as the click set it: the feed
    shown and the initial message hidden, also when the feed is empty. *)
Theorem failed_generation_page (st : State) (r : SongResult)
    (songData : SongStructure) (songStructure : list SongSlide)
    (respond : nat → ImageResult) (now : N) :
  isGenerating st = false → inflight st = [] → ai st = true →
  trim (userInput st) ≠ [] → narratorOf st ≠ [] →
  (NoSong r →
   let after := run st [ClickGenerate; SongArrives r] in
   isGenerating after = false ∧ inflight after = []
   ∧ slideshow after = slideshow st
   ∧ match slideshow st with
     | [] => initialMessageHidden after = false ∧ slideshowHidden after = true
     | _ :: _ => initialMessageHidden after = true ∧ slideshowHidden after = false
     end)
  ∧ (song_slides songData = Some songStructure → songStructure ≠ [] →
     (∃ i, (i < length songStructure)%nat ∧ rejects (respond i)) →
     let after := run st [ClickGenerate; SongArrives (SongParsed (Some songData));
                          ImagesArrive respond now] in
     isGenerating after = false ∧ inflight after = []
     ∧ slideshow after = slideshow st
     ∧ initialMessageHidden after = true ∧ slideshowHidden after = false).
Proof.
  intros Hidle Hin Hai Hq Hnarrator.
  destruct (generate_started st Hidle Hin Hai Hq Hnarrator)
    as (st1 & Hst1 & Hin1 & Hgen1 & Hai1 & Hdb1 & Hstyle1 & Hsaved1 & Hstore1 & Hfeed1
        & Hgal1 & Himh1 & Hsh1 & _).
  unfold run. cbn [foldl]. rewrite step_click, Hst1. clear Hst1. split.
  - intros Hr. cbv zeta. rewrite (step_song _ _ _ _ _ _ Hin1).
    match goal with |- context [generate_song ?m ?v ?c r ?S] =>
      destruct (generate_song_NoSong m v c r S Hr) as [e ->];
      pose proof (gave_up e S) as G; cbv zeta in G;
      generalize dependent (generate_finally (generate_catch e S))
    end.
    intros st2 G. state.
    destruct G as (_ & Hgen2 & Hin2 & Hfeed2 & Hpage).
    rewrite Hfeed1 in Hpage. split_and!; try done; [congruence|].
    destruct (slideshow st); [done|]. destruct Hpage. split; congruence.
  - intros Hslides Hsong (i & Hi & [e He]). cbv zeta.
    destruct (song_arrived _ _ _ songData songStructure st1 Hin1 Hai1 Hslides Hsong)
      as (st2 & -> & Hin2 & Hgen2 & Hdb2 & Hsaved2 & Hstore2 & Hfeed2 & Hgal2
          & Himh2 & Hsh2).
    rewrite (step_images _ _ _ _ _ _ _ _ _ Hin2). unfold generate_images.
    destruct (promiseAll_rejects
      ((λ i, generateImageFromPrompt_settle (respond i)) <$> seq 0 (length songStructure)))
      as [e' ->].
    { exists i, e. rewrite list_lookup_fmap, lookup_seq_lt by done. simpl. by rewrite He. }
    match goal with |- context [generate_finally (images_catch ?e ?S)] =>
      pose proof (images_gave_up e S) as G; cbv zeta in G;
      generalize dependent (generate_finally (images_catch e S))
    end.
    intros st3 G. state.
    destruct G as (_ & Hgen3 & Hin3 & Hfeed3 & Himh3 & Hsh3).
    split_and!; congruence.
Qed.

(** ** The selectors *)

Lemma request_text (st : State) :
  isGenerating st = false → ai st = true →
  trim (userInput st) ≠ [] → narratorOf st ≠ [] →
  textRequests (log (generate st))
  = textRequests (log st)
    ++ [trim (userInput st) ++ newline ++ getInstructionsForSong (narratorOf st)].
Proof.
  intros Hidle Hai Hq Hnarrator.
  rewrite generate_narrator by done. cbv zeta.
  rewrite bool_decide_eq_false_2 by done.
  match goal with |- context [suspend ?k (emit ?e (_ _ (_ _ (stopSlideshow ?S))))] =>
    destruct (request_sent k e S) as (-> & _);
    destruct (stopSlideshow_log S) as (Ht & _)
  end.
  rewrite textRequests_app, Ht. reflexivity.
Qed.

Lemma narrator_asked (st : State) :
  isGenerating st = false → ai st = true →
  trim (userInput st) ≠ [] → narratorOf st = [] →
  errorModal (generate st) = Some (lit "Please enter or select a narrator.")
  ∧ textRequests (log (generate st)) = textRequests (log st)
  ∧ isGenerating (generate st) = false.
Proof.
  intros Hidle Hai Hq Hnarrator.
  rewrite generate_narrator by done. cbv zeta.
  rewrite bool_decide_eq_true_2 by done.
  match goal with |- context [generate_finally (showErrorPopup ?m (_ _ (_ _ (stopSlideshow ?S))))] =>
    destruct (narrator_missing m S) as (-> & -> & _ & -> & _);
    destruct (stopSlideshow_log S) as (Ht & _ & _)
  end.
  rewrite textRequests_app, Ht. split_and!; try reflexivity. apply app_nil_r.
Qed.

(** X12.  Choosing [custom] in the narrator selector empties the
    custom input, so a generation asked for before a name is typed ends
    in the popup that asks for a narrator, with no request sent; once a
    name is typed, the request carries the instructions for that name,
    trimmed.  Choosing a listed narrator empties the custom input too,
    and that narrator is the one used; choosing the entry without a
    value leaves the custom input as it is and gives no narrator. *)
Theorem custom_narrator_must_be_typed (st : State) :
  isGenerating st = false → ai st = true → trim (userInput st) ≠ [] →
  let chosen := characterChange (lit "custom") st in
  customCharacterInput chosen = [] ∧ narratorOf chosen = []
  ∧ errorModal (generate chosen) = Some (lit "Please enter or select a narrator.")
  ∧ textRequests (log (generate chosen)) = textRequests (log st)
  ∧ (∀ name, trim name ≠ [] →
       let named := set_customCharacterInput name chosen in
       narratorOf named = trim name
       ∧ textRequests (log (generate named))
         = textRequests (log st)
           ++ [trim (userInput st) ++ newline ++ getInstructionsForSong (trim name)])
  ∧ (∀ listed, listed ≠ [] → listed ≠ lit "custom" →
       customCharacterInput (characterChange listed st) = []
       ∧ narratorOf (characterChange listed st) = listed)
  ∧ customCharacterInput (characterChange [] st) = customCharacterInput st
  ∧ narratorOf (characterChange [] st) = [].
Proof.
  intros Hidle Hai Hq chosen.
  assert (chosen = set_customCharacterInput [] (set_characterSelector (lit "custom") st))
    as Hchosen.
  { subst chosen. unfold characterChange. cbv zeta. state.
    by rewrite bool_decide_eq_true_2. }
  assert (narratorOf chosen = []) as Hnone.
  { rewrite Hchosen. unfold narratorOf. state. by rewrite bool_decide_eq_true_2. }
  assert (isGenerating chosen = false ∧ ai chosen = true
          ∧ userInput chosen = userInput st ∧ log chosen = log st)
    as (Hidle' & Hai' & Hinput & Hlog) by (by rewrite Hchosen).
  split_and!.
  - by rewrite Hchosen.
  - exact Hnone.
  - apply narrator_asked; [done|done|by rewrite Hinput|done].
  - rewrite <- Hlog. apply narrator_asked; [done|done|by rewrite Hinput|done].
  - intros name Hname named.
    assert (narratorOf named = trim name) as Hnamed.
    { subst named. rewrite Hchosen. unfold narratorOf. state.
      by rewrite bool_decide_eq_true_2. }
    split; [done|].
    assert (isGenerating named = false ∧ ai named = true
            ∧ userInput named = userInput st ∧ log named = log st)
      as (Hidle2 & Hai2 & Hinput2 & Hlog2) by (subst named; by rewrite Hchosen).
    rewrite request_text; [|done|done|by rewrite Hinput2|by rewrite Hnamed].
    by rewrite Hnamed, Hinput2, Hlog2.
  - intros listed Hlisted Hnot. unfold characterChange. cbv zeta. state.
    rewrite bool_decide_eq_false_2 by done.
    destruct listed as [|c listed]; [done|]. unfold narratorOf. state.
    by rewrite bool_decide_eq_false_2.
  - unfold characterChange. cbv zeta. state. by rewrite bool_decide_eq_false_2.
  - unfold characterChange. cbv zeta. state. rewrite bool_decide_eq_false_2 by done.
    unfold narratorOf. state. by rewrite bool_decide_eq_false_2.
Qed.

(** X13.  The style that the image prompts carry is the one selected
    when the song arrives, not the one selected at the click on
    [Generate]: a style button clicked while the song is awaited, for a
    style of the table, decides the prefix of every image prompt.  A
    click that lands on no style button, or on one without a style,
    changes nothing. *)
Theorem style_is_read_when_the_song_arrives (st : State) (m v c style prefix : jsstring)
    (songData : SongStructure) (songStructure : list SongSlide) :
  inflight st = [AwaitSong m v c] → ai st = true →
  song_slides songData = Some songStructure → songStructure ≠ [] →
  (style, prefix) ∈ STYLE_PROMPTS →
  let clicked := styleClick (Some style) st in
  let after := step clicked (SongArrives (SongParsed (Some songData))) in
  imageRequests (log after)
  = imageRequests (log st)
    ++ ((λ part, prefix ++ lit " A 9:16 aspect ratio image of: " ++ image_prompt part)
        <$> songStructure)
  ∧ styleClick None st = st ∧ styleClick (Some []) st = st.
Proof.
  intros Hin Hai Hslides Hsong Hstyle clicked after.
  assert (stylePrefix style = prefix) as Hprefix.
  { unfold stylePrefix.
    destruct (list_find _ STYLE_PROMPTS) as [[i [k found]]|] eqn:Hfind.
    - apply list_find_Some in Hfind as (Hi & Hk & _). cbn [fst] in Hk. subst k.
      assert (NoDup STYLE_PROMPTS.*1) as Hkeys by decide_closed.
      apply list_elem_of_lookup in Hstyle as [j Hj].
      assert (i = j) as ->; [|cbn [snd]; congruence].
      apply (NoDup_lookup _ _ _ style Hkeys);
        rewrite list_lookup_fmap; [by rewrite Hi|by rewrite Hj].
    - apply list_find_None in Hfind. rewrite Forall_forall in Hfind.
      by destruct (Hfind _ Hstyle). }
  assert (style ≠ []) as Hne.
  { assert (Forall (λ entry, entry.1 ≠ []) STYLE_PROMPTS) as Hall by decide_closed.
    rewrite Forall_forall in Hall. apply (Hall _ Hstyle). }
  destruct style as [|ch style]; [done|].
  assert (clicked = set_selectedStyle (ch :: style) st) as Hclicked by done.
  split_and!; [|done..]. subst after.
  rewrite (step_song m v c [] _ clicked) by (by rewrite Hclicked).
  rewrite (generate_song_slides _ _ _ songData songStructure _ Hslides Hsong)
    by (by rewrite Hclicked).
  cbv zeta.
  match goal with |- context [suspend ?k (set_log ?l (startBackgroundMusic ?b ?S))] =>
    destruct (images_requested k l b S) as (-> & _);
    destruct (startBackgroundMusic_log b S) as (_ & Hi & _)
  end.
  rewrite imageRequests_app, Hi, Hclicked. state. f_equal. rewrite <- Hprefix.
  apply (imageRequests_sent (finalPrompt (ch :: style) ∘ image_prompt)).
Qed.

(** X14.  Picking an example puts it in the question input and calls
    [generate]: with no generation under way it is the example that is
    asked, whatever the input held; while a generation is under way the
    example only replaces the text of the input, and nothing else
    changes.  The first entry of the selector, which has no value, does
    nothing. *)
Theorem example_is_asked (value : jsstring) (st : State) :
  value ≠ [] →
  (isGenerating st = false → ai st = true → trim value ≠ [] → narratorOf st ≠ [] →
   textRequests (log (examplesChange value st))
   = textRequests (log st)
     ++ [trim value ++ newline ++ getInstructionsForSong (narratorOf st)])
  ∧ (isGenerating st = true → examplesChange value st = typed value st)
  ∧ examplesChange [] st = st.
Proof.
  intros Hvalue. destruct value as [|ch value]; [done|].
  split_and!; [..|done].
  - intros Hidle Hai Hq Hnarrator. unfold examplesChange.
    rewrite request_text by done. reflexivity.
  - intros Hbusy. unfold examplesChange. by apply generate_busy.
Qed.

(** ** Playback, from the click *)

Lemma speakAndAdvance_session (s : Session) (st : State) :
  playing (speakAndAdvance s st).1 = playing s
  ∧ playingIn (speakAndAdvance s st).1 = playingIn s.
Proof.
  funelim (speakAndAdvance s st); [|done].
  destruct (negb (isPlaying st)); [done|]. by case_bool_decide.
Qed.

Lemma startSlideshow_starts (container : Container) (i : nat) (tiktok : TikTok)
    (st : State) :
  activeTikTokContainer st = Some container →
  list_find (λ t, id t = tiktokId container) (savedTikToks st) = Some (i, tiktok) →
  slider container ≠ [] →
  startSlideshow st
  = let started :=
      speakAndAdvance
        {| playing := tiktok; playingIn := container; currentSlideIndex := 0 |}
        (set_slideshowPaused false (set_isPlaying true (stopSlideshow st))) in
    (Some started.1, started.2).
Proof.
  intros Hactive Hfind Hslider. unfold startSlideshow. rewrite Hactive, Hfind.
  rewrite bool_decide_eq_false_2 by (by destruct (slider container)).
  cbv zeta. by destruct (speakAndAdvance _ _).
Qed.

Lemma stopSlideshow_fields (st : State) :
  savedTikToks (stopSlideshow st) = savedTikToks st
  ∧ activeTikTokContainer (stopSlideshow st) = activeTikTokContainer st
  ∧ isPlaying (stopSlideshow st) = false
  ∧ slideshowPaused (stopSlideshow st) = true
  ∧ speaking (stopSlideshow st) = false
  ∧ errorModal (stopSlideshow st) = errorModal st.
Proof. rewrite stopSlideshow_shape. split_and!; reflexivity. Qed.

(** A playback of the whole short, started on a page where nothing has
    been said since [st]. *)
Lemma whole_playback (container : Container) (i : nat) (tiktok : TikTok)
    (st0 st : State) :
  activeTikTokContainer st = Some container →
  list_find (λ t, id t = tiktokId container) (savedTikToks st) = Some (i, tiktok) →
  slider container ≠ [] →
  spoken (log st) = spoken (log st0) →
  ∃ s st', startSlideshow st = (Some s, st')
    ∧ playing s = tiktok ∧ playingIn s = container
    ∧ ∀ n, (length (slides tiktok) ≤ n)%nat →
        let ended := completions n s st' in
        spoken (log ended.2)
        = spoken (log st0)
          ++ filter (λ text, whitespaceOnly text = false) (lyrics <$> slides tiktok)
        ∧ isPlaying ended.2 = false.
Proof.
  intros Hactive Hfind Hslider Hsaid.
  rewrite (startSlideshow_starts container i tiktok) by done. cbv zeta.
  set (s0 := {| playing := tiktok; playingIn := container; currentSlideIndex := 0 |}).
  set (st1 := set_slideshowPaused false (set_isPlaying true (stopSlideshow st))).
  exists (speakAndAdvance s0 st1).1, (speakAndAdvance s0 st1).2.
  destruct (speakAndAdvance_session s0 st1) as [Hplaying Hin].
  split_and!; [done..|].
  intros n Hn.
  destruct (completions_spoken (slides tiktok) s0 st1 n) as [Hspoken Hended];
    [done|done|done|].
  split; [|done]. rewrite Hspoken. f_equal.
  subst st1. state. destruct (stopSlideshow_quiet st) as [-> _]. done.
Qed.

(** X15.  A playback starts from the first slide: with an active feed
    item that has slides, for the first short of the list that carries
    its [id], [startSlideshow] opens a session on that short, and when
    the engine completes every utterance the texts spoken are those of
    all its slides with text, in order, after which the playback is
    stopped. *)
Theorem playback_starts_at_the_first_slide (container : Container) (i : nat)
    (tiktok : TikTok) (st : State) :
  activeTikTokContainer st = Some container →
  list_find (λ t, id t = tiktokId container) (savedTikToks st) = Some (i, tiktok) →
  slider container ≠ [] →
  ∃ s st', startSlideshow st = (Some s, st')
    ∧ playing s = tiktok ∧ playingIn s = container
    ∧ ∀ n, (length (slides tiktok) ≤ n)%nat →
        let ended := completions n s st' in
        spoken (log ended.2)
        = spoken (log st)
          ++ filter (λ text, whitespaceOnly text = false) (lyrics <$> slides tiktok)
        ∧ isPlaying ended.2 = false.
Proof. intros. by eapply whole_playback. Qed.

(** X16.  [startSlideshow] opens no session exactly when there is no
    active feed item, or the active item has no slide element, or no
    short of the list carries its [id]; it then leaves the state as it
    is: the playback under way, if any, is not stopped. *)
Theorem nothing_to_play (st : State) :
  ((startSlideshow st).1 = None
   ↔ match activeTikTokContainer st with
     | None => True
     | Some container =>
         slider container = []
         ∨ Forall (λ t, id t ≠ tiktokId container) (savedTikToks st)
     end)
  ∧ ((startSlideshow st).1 = None → (startSlideshow st).2 = st).
Proof.
  unfold startSlideshow. destruct (activeTikTokContainer st) as [container|]; [|done].
  destruct (list_find _ (savedTikToks st)) as [[i tiktok]|] eqn:Hfind.
  - apply list_find_Some in Hfind as (Hi & Hid & _).
    case_bool_decide as Hslider.
    + split; [|done]. split; [|done]. intros _. left. by destruct (slider container).
    + cbv zeta. destruct (speakAndAdvance _ _) as [s st']. split; [|done].
      split; [done|]. intros [Hnone|Hall].
      * by rewrite Hnone in Hslider.
      * rewrite Forall_forall in Hall. destruct (Hall tiktok); [|done].
        apply list_elem_of_lookup. eauto.
  - split; [|done]. split; [|done]. intros _. right.
    apply list_find_None in Hfind. exact Hfind.
Qed.

(** X17.  Once the playback is stopped, the end of an utterance that
    is reported late says nothing more: the index moves on, no text goes
    to the engine, and the playback stays stopped. *)
Theorem late_onend_is_ignored (s : Session) (st : State) :
  isPlaying st = false →
  let late := utterance_onend s st in
  late.1 = advance s
  ∧ spoken (log late.2) = spoken (log st)
  ∧ isPlaying late.2 = false ∧ speaking late.2 = false
  ∧ errorModal late.2 = errorModal st.
Proof.
  intros Hstopped late. subst late. unfold utterance_onend.
  assert (speakAndAdvance (advance s) (set_speaking false st)
          = (advance s, stopSlideshow (set_speaking false st))) as ->.
  { rewrite speakAndAdvance_step. destruct (_ !! _); [|done].
    cbn [isPlaying set_speaking]. by rewrite Hstopped. }
  cbn [fst snd].
  destruct (stopSlideshow_fields (set_speaking false st)) as (_ & _ & -> & _ & -> & ->).
  destruct (stopSlideshow_quiet (set_speaking false st)) as [-> _].
  done.
Qed.

(** X18.  An error of the speech engine that says the utterance was
    canceled or interrupted is only written to the console: no popup,
    and the playback flag is left alone.  Any other error raises the
    popup with the error and stops the playback.  Neither hands
    anything to the engine. *)
Theorem narration_errors (s : Session) (e : jsstring) (st : State) :
  let after := utterance_onerror s e st in
  spoken (log after) = spoken (log st)
  ∧ if bool_decide (e ∈ [lit "canceled"; lit "interrupted"]) then
      errorModal after = errorModal st ∧ isPlaying after = isPlaying st
      ∧ speaking after = speaking st
      ∧ log after = log st ++ [Console (lit "Speech synthesis event: " ++ e)]
    else
      errorModal after = Some (lit "Speech synthesis failed: " ++ e)
      ∧ isPlaying after = false ∧ speaking after = false.
Proof.
  cbv zeta. unfold utterance_onerror.
  destruct (bool_decide (e = lit "canceled")) eqn:Hc;
    [|destruct (bool_decide (e = lit "interrupted")) eqn:Hi]; cbn [orb].
  - apply bool_decide_eq_true_1 in Hc.
    rewrite bool_decide_eq_true_2 by (rewrite Hc; set_solver).
    unfold emit. state. rewrite spoken_app. split; [apply app_nil_r|done].
  - apply bool_decide_eq_true_1 in Hi.
    rewrite bool_decide_eq_true_2 by (rewrite Hi; set_solver).
    unfold emit. state. rewrite spoken_app. split; [apply app_nil_r|done].
  - apply bool_decide_eq_false_1 in Hc, Hi.
    rewrite bool_decide_eq_false_2
      by (rewrite !elem_of_cons, elem_of_nil; intros [?|[?|[]]]; done).
    cbv zeta.
    match goal with |- context [stopSlideshow ?S] =>
      destruct (stopSlideshow_fields S) as (_ & _ & -> & _ & -> & ->);
      destruct (stopSlideshow_quiet S) as [-> _]
    end.
    unfold showErrorPopup, emit. state. rewrite spoken_app.
    split; [apply app_nil_r|done].
Qed.

(** X19.  The replay button stops the playback and sets the timer
    whose expiry calls [startSlideshow]: the narration then starts
    again from the first slide of the short, wherever it had got to, and
    with every utterance completed says all its slides with text.
    Without an active feed item the button does nothing.  A click
    outside the action icons stops a playback under way and starts one
    otherwise; a click on another action icon does nothing. *)
Theorem replay_restarts_from_the_first_slide (container : Container) (i : nat)
    (tiktok : TikTok) (st : State) :
  activeTikTokContainer st = Some container →
  list_find (λ t, id t = tiktokId container) (savedTikToks st) = Some (i, tiktok) →
  slider container ≠ [] →
  (∃ stopped s st',
      slideshowClick ReplayButton st = (None, stopped, true)
      ∧ isPlaying stopped = false
      ∧ startSlideshow stopped = (Some s, st')
      ∧ playing s = tiktok
      ∧ ∀ n, (length (slides tiktok) ≤ n)%nat →
          let ended := completions n s st' in
          spoken (log ended.2)
          = spoken (log st)
            ++ filter (λ text, whitespaceOnly text = false) (lyrics <$> slides tiktok)
          ∧ isPlaying ended.2 = false)
  ∧ (∀ idle, activeTikTokContainer idle = None →
       slideshowClick ReplayButton idle = (None, idle, false))
  ∧ (isPlaying st = true → slideshowClick Elsewhere st = (None, stopSlideshow st, false))
  ∧ (isPlaying st = false →
     slideshowClick Elsewhere st = (startSlideshow st, false))
  ∧ slideshowClick OtherAction st = (None, st, false).
Proof.
  intros Hactive Hfind Hslider.
  destruct (stopSlideshow_fields st) as (Hsaved & Hactive' & Hstopped & _).
  destruct (stopSlideshow_quiet st) as [Hquiet _].
  split_and!.
  - destruct (whole_playback container i tiktok st (stopSlideshow st))
      as (s & st' & Hstart & Hplaying & _ & Hwhole); [congruence..|done|].
    exists (stopSlideshow st), s, st'. split_and!; try done.
    unfold slideshowClick, handleReplay. by rewrite Hactive.
  - intros idle Hnone. unfold slideshowClick, handleReplay. by rewrite Hnone.
  - intros Hplaying. unfold slideshowClick. by rewrite Hplaying.
  - intros Hpaused. unfold slideshowClick. rewrite Hpaused.
    by destruct (startSlideshow st).
  - done.
Qed.

(** ** The feed *)

Lemma feed_built (l : list TikTok) (m k : nat) (st : State) :
  savedTikToks st = l → (k + m = length l)%nat →
  foldr addTikTokToFeed st (seq k m)
  = set_savedTikToks (take k l ++ (shown_in_feed <$> drop k l))
      (set_slideshow ((feedItem <$> drop k l) ++ slideshow st) st).
Proof.
  intros Hl. revert k. induction m as [|m IH]; intros k Hk.
  - cbn [seq foldr]. rewrite take_ge, drop_ge by lia.
    cbn [fmap list_fmap app]. rewrite app_nil_r. destruct st. simpl in Hl. by subst.
  - cbn [seq foldr]. rewrite (IH (S k)) by lia.
    assert (is_Some (l !! k)) as [t Ht] by (apply lookup_lt_is_Some; lia).
    unfold addTikTokToFeed. state.
    rewrite lookup_app_l by (rewrite length_take; lia).
    rewrite lookup_take_lt by lia. rewrite Ht. fold (feedItem t). state.
    rewrite (take_S_r _ _ _ Ht), (drop_S _ _ _ Ht), <- app_assoc.
    rewrite insert_app_r_alt by (rewrite length_take; lia).
    rewrite length_take, Nat.min_l, Nat.sub_diag by lia.
    reflexivity.
Qed.

Lemma renderHistoryGallery_frame (st : State) :
  ∃ gallery, (renderHistoryGallery st).1 = set_historyGallery gallery st.
Proof.
  unfold renderHistoryGallery. destruct (appendThumbnails _ _) as [gallery completed].
  by exists gallery.
Qed.

Lemma shown_in_step (l : list TikTok) :
  element <$> (shown_in_feed <$> l) = Some <$> (feedItem <$> l)
  ∧ Forall (λ tiktok, ∀ item, element tiktok = Some item →
              tiktokId item = id tiktok
              ∧ length (slider item) = length (slides tiktok))
           (shown_in_feed <$> l).
Proof.
  split.
  - rewrite <- !list_fmap_compose. by apply list_fmap_ext.
  - apply Forall_fmap, Forall_forall. intros t _ item [= <-].
    unfold feedItem. cbn [tiktokId slider shown_in_feed set_element id slides].
    by rewrite length_fmap.
Qed.

(** X20.  A load that succeeds replaces the in-memory list by the
    records of the store, newest first, each with a feed item of its
    own, and puts these items in the same order in front of whatever
    the feed held: on a feed that was empty, the feed mirrors the list,
    item by item.  With at least one record the feed is shown in place
    of the initial message; with none the page is left as it was. *)
Theorem load_fills_the_feed (st : State) :
  db st = true →
  let loaded := merge_sort newer_first (getAll st) in
  let after := (loadHistoryFromDB GetAllSucceeds st).1 in
  savedTikToks after = shown_in_feed <$> loaded
  ∧ slideshow after = (feedItem <$> loaded) ++ slideshow st
  ∧ (slideshow st = [] → feed_in_step after)
  ∧ (loaded ≠ [] → initialMessageHidden after = true ∧ slideshowHidden after = false)
  ∧ (loaded = [] →
     initialMessageHidden after = initialMessageHidden st
     ∧ slideshowHidden after = slideshowHidden st
     ∧ historyGallery after = historyGallery st)
  ∧ store after = store st.
Proof.
  intros Hdb loaded after.
  assert (savedTikToks after = shown_in_feed <$> loaded
          ∧ slideshow after = (feedItem <$> loaded) ++ slideshow st
          ∧ store after = store st
          ∧ (loaded ≠ [] → initialMessageHidden after = true ∧ slideshowHidden after = false)
          ∧ (loaded = [] →
             initialMessageHidden after = initialMessageHidden st
             ∧ slideshowHidden after = slideshowHidden st
             ∧ historyGallery after = historyGallery st))
    as (Hsaved & Hfeed & Hstore & Hsome & Hnone).
  { subst after. unfold loadHistoryFromDB. rewrite Hdb. cbn [negb]. cbv zeta.
    change (getAll (emit StoreGetAll st)) with (getAll st). fold loaded.
    cbn [savedTikToks set_savedTikToks set_initialMessageHidden set_slideshowHidden].
    assert (slideshow (emit StoreGetAll st) = slideshow st
            ∧ store (emit StoreGetAll st) = store st
            ∧ initialMessageHidden (emit StoreGetAll st) = initialMessageHidden st
            ∧ slideshowHidden (emit StoreGetAll st) = slideshowHidden st
            ∧ historyGallery (emit StoreGetAll st) = historyGallery st)
      as (HfeedS & HstoreS & HimhS & HshS & HgalS) by done.
    generalize dependent (emit StoreGetAll st). intros S HfeedS HstoreS HimhS HshS HgalS.
    generalize dependent loaded. intros loaded. case_bool_decide as Hlen.
    - match goal with |- context [foldr addTikTokToFeed ?S' _] =>
        rewrite (feed_built loaded (length loaded) 0 S') by done
      end.
      match goal with |- context [renderHistoryGallery ?S'] =>
        destruct (renderHistoryGallery_frame S') as [gallery Hg];
        assert (∀ settled : State * bool,
                  settled.1 = set_historyGallery gallery S' →
                  (match settled with
                   | (st, true) => (st, Resolves)
                   | (st, false) => (st, NeverSettles)
                   end).1 = set_historyGallery gallery S') as Hsettled
          by (by intros [? []]);
        rewrite (Hsettled _ Hg)
      end.
      state. rewrite take_0, drop_0. cbn [app]. rewrite HfeedS, HstoreS.
      split_and!; try done. intros ->. simpl in Hlen. lia.
    - assert (loaded = []) as -> by (destruct loaded; [done|simpl in Hlen; lia]).
      state. done. }
  split_and!; try done.
  intros Hempty. unfold feed_in_step. rewrite Hsaved, Hfeed, Hempty, app_nil_r.
  apply shown_in_step.
Qed.

(** X21.  A load that cannot read the store leaves the page alone: the
    list, the feed, the gallery and the store are as before.  Without a
    database handle no request is made and the promise resolves all the
    same, so the caller cannot tell; with a handle, the failure of the
    request rejects the promise with the error of the request. *)
Theorem failed_load_leaves_the_page (r : GetAllResult) (e : jsstring) (st : State) :
  db st = false ∨ r = GetAllFails e →
  let after := (loadHistoryFromDB r st).1 in
  savedTikToks after = savedTikToks st ∧ slideshow after = slideshow st
  ∧ historyGallery after = historyGallery st ∧ store after = store st
  ∧ initialMessageHidden after = initialMessageHidden st
  ∧ (loadHistoryFromDB r st).2 = (if db st then Rejects e else Resolves)
  ∧ (if db st then ∃ message, log after = log st ++ [StoreGetAll; Console message]
     else ∃ message, log after = log st ++ [Console message]).
Proof.
  intros H. cbv zeta. unfold loadHistoryFromDB.
  destruct (db st) eqn:Hdb; cbn [negb].
  - destruct H as [H|H]; [done|]. subst r. cbv zeta. unfold emit. state.
    split_and!; try done. eexists. by rewrite <- app_assoc.
  - unfold emit. state. split_and!; try done. by eexists.
Qed.

Lemma save_keeps_feed (tiktok : TikTok) (r : PutResult) (st : State) :
  feed_in_step st → Forall (λ t, slides t ≠ []) (savedTikToks st) →
  slides tiktok ≠ [] →
  let after := saveAndRenderNewTikTok tiktok r st in
  feed_in_step after ∧ Forall (λ t, slides t ≠ []) (savedTikToks after).
Proof.
  intros [Helements Hitems] Hslides Hnew. cbv zeta.
  unfold saveAndRenderNewTikTok, saveAndRender_start, saveTikTokToDB_request. state.
  destruct (db st) eqn:Hdb.
  - destruct r as [|e].
    + match goal with |- context [saveAndRender_resume tiktok PutSucceeds ?S] =>
        destruct (saveAndRender_resume_shows tiktok (savedTikToks st) S)
          as (thumb & thumbs & _ & _ & ->); [done..|]
      end.
      unfold feed_in_step, emit. state. split; [split|].
      * rewrite !fmap_cons. f_equal. exact Helements.
      * constructor; [|done]. intros item [= <-].
        unfold feedItem. cbn [tiktokId slider set_element id slides].
        by rewrite length_fmap.
      * by constructor.
    + unfold saveAndRender_resume, saveTikTokToDB_settle, saveAndRender_catch,
        showErrorPopup, emit, feed_in_step. state. done.
  - unfold saveAndRender_catch, showErrorPopup, emit, feed_in_step. state. done.
Qed.

Lemma failed_load_keeps_feed (r : GetAllResult) (st : State) :
  r ≠ GetAllSucceeds →
  savedTikToks (loadHistoryFromDB r st).1 = savedTikToks st
  ∧ slideshow (loadHistoryFromDB r st).1 = slideshow st.
Proof.
  intros Hr. unfold loadHistoryFromDB. destruct (db st); cbn [negb]; [|done].
  by destruct r.
Qed.

(** X22.  The feed stays in step with the list: from a page where every
    short of the list has a slide and holds its own feed item, the
    items in the order of the list, any sequence of saves of shorts with
    a slide, whether the put succeeds or not, and of loads that fail
    leaves it so. *)
Theorem feed_stays_in_step (ops : list Operation) (st : State) :
  feed_in_step st → Forall (λ t, slides t ≠ []) (savedTikToks st) →
  no_reload ops → saves_with_slides ops →
  let after := performAll st ops in
  feed_in_step after
  ∧ tiktokId <$> slideshow after = id <$> savedTikToks after
  ∧ length <$> (slider <$> slideshow after) = length <$> (slides <$> savedTikToks after).
Proof.
  intros Hstep Hslides Hloads Hsaves. cbv zeta.
  assert (feed_in_step (performAll st ops)) as [Helements Hitems].
  { revert st Hstep Hslides.
    induction ops as [|op ops IH]; intros st Hstep Hslides; [done|].
    apply Forall_cons in Hloads as [Hload Hloads].
    apply Forall_cons in Hsaves as [Hsave Hsaves].
    cbn [performAll foldl]. destruct op as [r|tiktok r]; cbn [perform].
    - destruct (failed_load_keeps_feed r st) as [Hsaved Hfeed]; [congruence|].
      apply IH; try done.
      + unfold feed_in_step. rewrite Hsaved, Hfeed. exact Hstep.
      + by rewrite Hsaved.
    - destruct (save_keeps_feed tiktok r st) as [Hstep' Hslides']; try done.
      by apply IH. }
  split; [done|].
  generalize dependent (slideshow (performAll st ops)).
  induction Hitems as [|t l Ht _ IH]; intros [|item feed] Hfeed; simplify_eq/=; [done|].
  destruct (Ht item) as [-> ->]; [done|].
  destruct (IH feed) as [-> ->]; done.
Qed.

(** X23.  On a page whose feed is in step with the list and whose
    gallery shows the list, a click on a thumbnail scrolls to an item
    of the feed that carries the [id] of the thumbnail: the item of the
    first short of the list with that [id]. *)
Theorem gallery_click_finds_the_item (thumb : Thumbnail) (st : State) :
  feed_in_step st →
  thumbnail <$> savedTikToks st = Some <$> historyGallery st →
  thumb ∈ historyGallery st →
  ∃ item, galleryClick (thumb_tiktokId thumb) st = Some item
    ∧ item ∈ slideshow st
    ∧ tiktokId item = thumb_tiktokId thumb.
Proof.
  intros [Helements Hitems] Hgallery Hthumb.
  assert (∃ t, t ∈ savedTikToks st ∧ id t = thumb_tiktokId thumb) as (t & Ht & Hid).
  { assert (Some thumb ∈ thumbnail <$> savedTikToks st) as Hin
      by (rewrite Hgallery; by apply list_elem_of_fmap_2).
    apply list_elem_of_fmap in Hin as (t & Hshown & Ht). exists t. split; [done|].
    unfold thumbnail in Hshown. destruct (slides t); by simplify_eq/=. }
  unfold galleryClick.
  destruct (list_find _ (savedTikToks st)) as [[k t']|] eqn:Hfind.
  - apply list_find_Some in Hfind as (Hk & Hid' & _).
    assert (element <$> savedTikToks st !! k = Some (element t')) as Hel
      by (by rewrite Hk).
    rewrite <- list_lookup_fmap, Helements, list_lookup_fmap in Hel.
    destruct (slideshow st !! k) as [item|] eqn:Hitem; simplify_eq/=.
    assert (element t' = Some item) as Helement by congruence.
    exists item. split_and!; [done|..].
    + apply list_elem_of_lookup. eauto.
    + rewrite Forall_forall in Hitems.
      assert (t' ∈ savedTikToks st) as Hin by (apply list_elem_of_lookup; eauto).
      destruct (Hitems t' Hin item Helement) as [-> _]. done.
  - apply list_find_None in Hfind. rewrite Forall_forall in Hfind.
    by destruct (Hfind t Ht).
Qed.

(** ** The background music *)

Lemma audible_snoc (l : list Effect) (e : Effect) :
  audible (l ++ [e])
  = match e with
    | AudioPlay audio => audio :: filter (λ a, a ≠ audio) (audible l)
    | AudioPause audio => filter (λ a, a ≠ audio) (audible l)
    | _ => audible l
    end.
Proof. unfold audible. by rewrite foldl_app. Qed.

Lemma audible_silent (l extra : list Effect) :
  Forall silent extra → audible (l ++ extra) = audible l.
Proof.
  induction extra as [|e extra IH] using rev_ind; intros Hsilent.
  - by rewrite app_nil_r.
  - apply Forall_app in Hsilent as [Hextra He]. apply Forall_cons in He as [He _].
    rewrite app_assoc, audible_snoc, IH by done. destruct e; try destruct He; done.
Qed.

Lemma audible_NoDup (l : list Effect) : NoDup (audible l).
Proof.
  induction l as [|e l IH] using rev_ind; [constructor|].
  rewrite audible_snoc. destruct e; try done.
  - by apply NoDup_filter.
  - constructor; [|by apply NoDup_filter].
    rewrite list_elem_of_filter. by intros [? _].
Qed.

Lemma quiet_refl (st : State) : quiet st st.
Proof. split; [done|]. exists []. by rewrite app_nil_r. Qed.

Lemma quiet_trans (st1 st2 st3 : State) : quiet st1 st2 → quiet st2 st3 → quiet st1 st3.
Proof.
  intros [Hb1 (e1 & Hl1 & Hs1)] [Hb2 (e2 & Hl2 & Hs2)]. split; [congruence|].
  exists (e1 ++ e2). rewrite Hl2, Hl1, <- app_assoc. split; [done|].
  by apply Forall_app.
Qed.

Lemma quiet_keeps_track (st st' : State) :
  quiet st st' → current_track_only st → current_track_only st'.
Proof.
  intros [Hb (extra & Hl & Hs)] H audio. rewrite Hl, audible_silent, Hb by done.
  apply H.
Qed.

(** Closes a goal [quiet st st'] once [st'] is a chain of assignments
    and effects on [st]. *)
Ltac hush :=
  split; [reflexivity|]; state; rewrite <- ?app_assoc;
  first [ by (exists []; rewrite app_nil_r)
        | eexists; split; [reflexivity|]; repeat constructor ].

Lemma stopSlideshow_quietly (st : State) : quiet st (stopSlideshow st).
Proof. unfold stopSlideshow, emit. state. destruct (speaking st); hush. Qed.

Lemma generate_finally_quietly (st : State) : quiet st (generate_finally st).
Proof. unfold generate_finally, emit. hush. Qed.

Lemma generate_quietly (st : State) : quiet st (generate st).
Proof.
  destruct (isGenerating st) eqn:Hbusy.
  { rewrite generate_busy by done. apply quiet_refl. }
  destruct (decide (trim (userInput st) = [])) as [Hblank|Hq].
  { unfold generate. rewrite Hblank, bool_decide_eq_true_2 by done. apply quiet_refl. }
  destruct (ai st) eqn:Hai.
  2:{ unfold generate. rewrite Hbusy, Hai, bool_decide_eq_false_2 by done.
      unfold showErrorPopup. hush. }
  rewrite generate_narrator by done. cbv zeta.
  match goal with |- context [stopSlideshow ?S] =>
    pose proof (stopSlideshow_quietly S) as Hstop;
    assert (quiet st S) as HS by hush;
    generalize dependent (stopSlideshow S)
  end.
  intros stopped Hstop. eapply quiet_trans; [exact HS|]. clear HS.
  eapply quiet_trans; [exact Hstop|]. clear Hstop.
  case_bool_decide.
  - unfold generate_finally, showErrorPopup, emit. hush.
  - unfold suspend, emit. hush.
Qed.

Lemma generate_catch_quietly (e : jsstring) (st : State) : quiet st (generate_catch e st).
Proof. unfold generate_catch, showErrorPopup. state. case_bool_decide; hush. Qed.

Lemma startBackgroundMusic_track (beat : jsstring) (st : State) :
  current_track_only st → current_track_only (startBackgroundMusic beat st).
Proof.
  intros H. unfold current_track_only, startBackgroundMusic.
  assert (∀ old, backgroundAudio st = Some old →
                 filter (λ a, a ≠ old) (audible (log st)) = []) as Hpaused.
  { intros old Hold.
    destruct (filter (λ a, a ≠ old) (audible (log st))) as [|a l] eqn:Hf; [done|].
    assert (a ∈ filter (λ a, a ≠ old) (audible (log st))) as Ha by (rewrite Hf; left).
    apply list_elem_of_filter in Ha as [Hne Ha]. specialize (H a Ha). congruence. }
  destruct (backgroundAudio st) as [old|] eqn:Hold.
  - specialize (Hpaused old eq_refl).
    case_bool_decide; unfold emit; state; intros audio;
      rewrite ?audible_snoc, ?Hpaused; cbn [filter list_filter].
    + intros ->%list_elem_of_singleton. done.
    + intros []%elem_of_nil.
  - assert (audible (log st) = []) as Hnone.
    { destruct (audible (log st)) as [|a l] eqn:Ha; [done|].
      specialize (H a). rewrite Ha in H. specialize (H ltac:(left)). congruence. }
    case_bool_decide; unfold emit; state; intros audio;
      rewrite ?audible_snoc, ?Hnone; cbn [filter list_filter].
    + intros ->%list_elem_of_singleton. done.
    + intros []%elem_of_nil.
Qed.

Lemma set_inflight_quietly (rest : list Suspended) (st : State) :
  quiet st (set_inflight rest st).
Proof. hush. Qed.

Lemma generate_images_quietly (m v c : jsstring) (song : list SongSlide)
    (beat : jsstring) (respond : nat → ImageResult) (now : N) (st : State) :
  quiet st (generate_images m v c song beat respond now st).
Proof.
  unfold generate_images. destruct (promiseAll _) as [images|e].
  - cbv zeta. case_bool_decide.
    + unfold saveAndRender_start, saveTikTokToDB_request. state.
      destruct (db st); unfold generate_finally, saveAndRender_catch, showErrorPopup,
        suspend, emit; hush.
    + eapply quiet_trans; [apply generate_catch_quietly|apply generate_finally_quietly].
  - unfold generate_finally, images_catch, showErrorPopup, emit. hush.
Qed.

Lemma generate_saved_quietly (tiktok : TikTok) (r : PutResult) (st : State) :
  quiet st (generate_saved tiktok r st).
Proof.
  unfold generate_saved. eapply quiet_trans; [|apply generate_finally_quietly].
  unfold saveAndRender_resume, saveTikTokToDB_settle. destruct r as [|e].
  - cbv zeta.
    match goal with |- context [addTikTokToFeed 0 ?S] =>
      assert (quiet st (addTikTokToFeed 0 S)) as Hfed
        by (unfold addTikTokToFeed; state; destruct (savedTikToks st !! 0%nat); hush);
      generalize dependent (addTikTokToFeed 0 S)
    end.
    intros fed Hfed. eapply quiet_trans; [exact Hfed|].
    unfold renderHistoryGallery. destruct (appendThumbnails _ _) as [gallery []];
      unfold saveAndRender_catch, showErrorPopup, emit; hush.
  - unfold saveAndRender_catch, showErrorPopup, emit. hush.
Qed.

Lemma generate_song_track (m v c : jsstring) (r : SongResult) (st : State) :
  current_track_only st → current_track_only (generate_song m v c r st).
Proof.
  intros H.
  assert (∀ e, current_track_only (generate_finally (generate_catch e st))) as Hfailed.
  { intros e. eapply quiet_keeps_track; [|exact H].
    eapply quiet_trans; [apply generate_catch_quietly|apply generate_finally_quietly]. }
  unfold generate_song. destruct r as [e|text e|[songData|]]; try apply Hfailed.
  destruct (song_slides songData) as [[|slide rest]|]; try apply Hfailed.
  cbv zeta.
  match goal with |- context [foldl ?f ?S ?l] =>
    destruct (requests_frame l S) as [Hreq Hlog]; cbv zeta in Hreq, Hlog;
    pose proof (startBackgroundMusic_track (selectBeatForStyle (musicStyle songData)) st H)
      as Hmusic;
    assert (quiet S (foldl f S l)) as Hquiet
  end.
  { split; [by rewrite Hreq|]. eexists. split; [exact Hlog|].
    destruct (ai _); [|constructor]. apply Forall_fmap, Forall_forall. by intros. }
  match goal with |- context [foldl ?f ?S ?l] =>
    generalize dependent (foldl f S l)
  end.
  intros requested _ _ Hquiet.
  eapply quiet_keeps_track; [|exact Hmusic].
  eapply quiet_trans; [exact Hquiet|].
  destruct (ai _); unfold generate_finally, images_catch, showErrorPopup, suspend, emit;
    hush.
Qed.

Lemma step_track (st : State) (i : Input) :
  current_track_only st → current_track_only (step st i).
Proof.
  intros H. destruct i as [|r|respond now|r].
  - rewrite step_click. eapply quiet_keeps_track; [apply generate_quietly|done].
  - unfold step. destruct (inflight st) as [|[m v c|m v c song beat|t] rest]; try done.
    apply generate_song_track. eapply quiet_keeps_track; [apply set_inflight_quietly|done].
  - unfold step. destruct (inflight st) as [|[m v c|m v c song beat|t] rest]; try done.
    eapply quiet_keeps_track; [|exact H].
    eapply quiet_trans; [apply (set_inflight_quietly rest)|].
    apply generate_images_quietly.
  - unfold step. destruct (inflight st) as [|[m v c|m v c song beat|t] rest]; try done.
    eapply quiet_keeps_track; [|exact H].
    eapply quiet_trans; [apply (set_inflight_quietly rest)|].
    apply generate_saved_quietly.
Qed.

Lemma step_quietly (st : State) (i : Input) :
  (∀ r, i = SongArrives r → NoSong r) → quiet st (step st i).
Proof.
  intros Hsong. destruct i as [|r|respond now|r].
  - rewrite step_click. apply generate_quietly.
  - unfold step.
    destruct (inflight st) as [|[m v c|m v c song beat|t] rest];
      try apply quiet_refl.
    destruct (generate_song_NoSong m v c r (set_inflight rest st) (Hsong r eq_refl))
      as [e ->].
    eapply quiet_trans; [apply (set_inflight_quietly rest)|].
    eapply quiet_trans; [apply generate_catch_quietly|apply generate_finally_quietly].
  - unfold step.
    destruct (inflight st) as [|[m v c|m v c song beat|t] rest];
      try apply quiet_refl.
    eapply quiet_trans; [apply (set_inflight_quietly rest)|].
    apply generate_images_quietly.
  - unfold step.
    destruct (inflight st) as [|[m v c|m v c song beat|t] rest];
      try apply quiet_refl.
    eapply quiet_trans; [apply (set_inflight_quietly rest)|].
    apply generate_saved_quietly.
Qed.

Lemma run_quietly (st : State) (inputs : list Input) :
  Forall (λ i, ∀ r, i = SongArrives r → NoSong r) inputs → quiet st (run st inputs).
Proof.
  revert st. induction inputs as [|i inputs IH]; intros st Hinputs.
  - apply quiet_refl.
  - apply Forall_cons in Hinputs as [Hi Hinputs]. cbn [run foldl].
    eapply quiet_trans; [by apply step_quietly|]. by apply IH.
Qed.

(** X24.  At most one background track plays at a time, and it is the
    one [backgroundAudio] points to: from a page where this holds,
    whatever the clicks and the answers that follow, every track that
    has been started and not paused since is the current one, so there
    is at most one.  Only the arrival of a song changes what plays:
    over clicks and answers among which every answer to the text
    request is one without a song, the tracks playing and
    [backgroundAudio] stay as they were. *)
Theorem one_background_track (st : State) (inputs : list Input) :
  current_track_only st →
  let after := run st inputs in
  current_track_only after ∧ (length (audible (log after)) ≤ 1)%nat
  ∧ (Forall (λ i, ∀ r, i = SongArrives r → NoSong r) inputs →
     audible (log after) = audible (log st)
     ∧ backgroundAudio after = backgroundAudio st).
Proof.
  intros H after.
  assert (current_track_only after) as Hafter.
  { subst after. revert st H. induction inputs as [|i inputs IH]; intros st H; [done|].
    cbn [run foldl]. apply IH. by apply step_track. }
  split_and!; [done| |].
  - pose proof (audible_NoDup (log after)) as Hnodup.
    unfold current_track_only in Hafter. revert Hafter Hnodup.
    generalize (audible (log after)).
    intros [|a [|b l]] Hafter Hnodup; cbn [length]; [lia..|].
    assert (a = b); [|subst; apply NoDup_cons in Hnodup as [[] _]; left].
    pose proof (Hafter a ltac:(left)). pose proof (Hafter b ltac:(right; left)).
    congruence.
  - intros Hinputs.
    destruct (run_quietly st inputs Hinputs) as [Hsame (extra & Hlog & Hsilent)].
    fold after in Hsame, Hlog. split; [|done].
    rewrite Hlog. by apply audible_silent.
Qed.

(** ** Start-up *)

Lemma appendThumbnails_completed (l : list TikTok) (gallery : list Thumbnail) :
  (appendThumbnails l gallery).2 = true ↔ Forall (λ t, slides t ≠ []) l.
Proof.
  revert gallery. induction l as [|t l IH]; intros gallery; cbn [appendThumbnails].
  - split; [constructor|done].
  - unfold thumbnail. destruct (slides t) eqn:Hslides.
    + split; [done|]. by intros [? _]%Forall_cons.
    + rewrite IH. split; [|by intros [_ ?]%Forall_cons].
      intros Hl. constructor; [by rewrite Hslides|done].
Qed.

Lemma load_settles (st : State) :
  db st = true →
  (loadHistoryFromDB GetAllSucceeds st).2
  = if (appendThumbnails (merge_sort newer_first (getAll st)) []).2 then Resolves
    else NeverSettles.
Proof.
  intros Hdb. unfold loadHistoryFromDB. rewrite Hdb. cbn [negb]. cbv zeta.
  change (getAll (emit StoreGetAll st)) with (getAll st).
  cbn [savedTikToks set_savedTikToks set_initialMessageHidden set_slideshowHidden].
  generalize (emit StoreGetAll st). intros S.
  generalize (merge_sort newer_first (getAll st)). intros loaded.
  case_bool_decide as Hlen.
  - match goal with |- context [foldr addTikTokToFeed ?S' _] =>
      rewrite (feed_built loaded (length loaded) 0 S') by done
    end.
    unfold renderHistoryGallery. state. rewrite take_0, drop_0. cbn [app].
    assert (∀ l g g', (appendThumbnails (shown_in_feed <$> l) g).2
                      = (appendThumbnails l g').2) as Hsame.
    { induction l as [|t l IH]; intros g g'; [done|].
      rewrite fmap_cons. cbn [appendThumbnails].
      change (thumbnail (shown_in_feed t)) with (thumbnail t).
      destruct (thumbnail t); [apply IH|done]. }
    specialize (Hsame loaded [] []).
    destruct (appendThumbnails (shown_in_feed <$> loaded) []) as [g1 c1].
    destruct (appendThumbnails loaded []) as [g2 c2].
    cbn [snd] in *. subst c2. by destruct c1.
  - assert (loaded = []) as -> by (destruct loaded; [done|simpl in Hlen; lia]).
    done.
Qed.

Lemma initializeGenAI_store (construct : jsstring → option jsstring)
    (API_KEY : option jsstring) (localStorage : gmap jsstring jsstring) (st : State) :
  store (initializeGenAI construct API_KEY localStorage st) = store st
  ∧ db (initializeGenAI construct API_KEY localStorage st) = db st.
Proof.
  unfold initializeGenAI. destruct (getApiKey _ _) as [[|c key]|]; try done.
  by destruct (construct _).
Qed.

(** X25.  The start-up stops at the first failure.  When the database
    does not open, nothing is set up: no client, no listeners, no theme,
    no voices; the popup says that the application failed to start.
    When the load of the history is rejected, the listeners are there
    but the stored theme is not applied and the voice selector is not
    filled, and the same popup is shown.  When the load succeeds, the
    theme is applied and the voices are offered if every record of the
    store has a slide; a single record without one leaves the start-up
    waiting for ever, with neither theme nor voices. *)
Theorem startup_stops_at_the_first_failure (construct : jsstring → option jsstring)
    (API_KEY : option jsstring) (localStorage : gmap jsstring jsstring)
    (getVoices : list Voice) (p : Page) :
  let stopped := lit "Application failed to start. Could not access storage." in
  (∀ e r,
     let started := init (OpenFails e) construct API_KEY localStorage r getVoices p in
     page_listening started.1 = page_listening p
     ∧ page_theme started.1 = page_theme p ∧ page_voices started.1 = page_voices p
     ∧ ai (page_state started.1) = ai (page_state p)
     ∧ savedTikToks (page_state started.1) = savedTikToks (page_state p)
     ∧ errorModal (page_state started.1) = Some stopped)
  ∧ (∀ e,
     let started := init OpenSucceeds construct API_KEY localStorage (GetAllFails e)
                      getVoices p in
     page_listening started.1 = true
     ∧ page_theme started.1 = page_theme p ∧ page_voices started.1 = page_voices p
     ∧ page_watching started.1 = page_watching p
     ∧ errorModal (page_state started.1) = Some stopped)
  ∧ (let started := init OpenSucceeds construct API_KEY localStorage GetAllSucceeds
                      getVoices p in
     page_listening started.1 = true
     ∧ (Forall (λ t, slides t ≠ []) (getAll (page_state p)) →
        started.2 = Resolves
        ∧ page_theme started.1 = setupTheme localStorage (page_theme p)
        ∧ page_voices started.1 = populateVoices getVoices
        ∧ page_watching started.1 = true)
     ∧ (¬ Forall (λ t, slides t ≠ []) (getAll (page_state p)) →
        started.2 = NeverSettles
        ∧ page_theme started.1 = page_theme p ∧ page_voices started.1 = page_voices p
        ∧ page_watching started.1 = page_watching p)).
Proof.
  cbv zeta. split; [|split].
  - intros e r. unfold init. cbn [fst page_listening page_theme page_voices page_state].
    done.
  - intros e. unfold init.
    destruct (initializeGenAI_store construct API_KEY localStorage
                (set_db true (page_state p))) as [_ Hdb].
    generalize dependent (initializeGenAI construct API_KEY localStorage
                            (set_db true (page_state p))).
    intros st Hdb. unfold loadHistoryFromDB. rewrite Hdb. cbn [negb]. done.
  - unfold init.
    destruct (initializeGenAI_store construct API_KEY localStorage
                (set_db true (page_state p))) as [Hstore Hdb].
    assert (getAll (initializeGenAI construct API_KEY localStorage
                      (set_db true (page_state p))) = getAll (page_state p)) as Hall
      by (unfold getAll; by rewrite Hstore).
    generalize dependent (initializeGenAI construct API_KEY localStorage
                            (set_db true (page_state p))).
    intros st _ Hdb Hall.
    pose proof (load_settles st Hdb) as Hsettles. rewrite Hall in Hsettles.
    pose proof (appendThumbnails_completed
                  (merge_sort newer_first (getAll (page_state p))) []) as Hcompleted.
    assert (Forall (λ t, slides t ≠ []) (merge_sort newer_first (getAll (page_state p)))
            ↔ Forall (λ t, slides t ≠ []) (getAll (page_state p))) as Hperm
      by (by rewrite merge_sort_Permutation).
    rewrite Hperm in Hcompleted. clear Hperm.
    destruct (loadHistoryFromDB GetAllSucceeds st) as [st' settled].
    cbn [snd] in Hsettles. subst settled.
    destruct (appendThumbnails _ _).2;
      cbn [fst snd page_listening page_theme page_voices page_watching page_state].
    + split_and!; [done|done|]. intros Hnot. destruct Hnot. by apply Hcompleted.
    + split_and!; [done| |done]. intros Hall'. apply Hcompleted in Hall'. done.
Qed.

(** ** A save undone after the put *)

Lemma saveAndRender_resume_undone (new : TikTok) (rest : list TikTok) (st : State) :
  savedTikToks st = new :: rest →
  ¬ Forall (λ t, slides t ≠ []) (new :: rest) →
  ∃ gallery,
    saveAndRender_resume new PutSucceeds st
    = saveAndRender_catch
        (set_historyGallery gallery
           (set_savedTikToks (set_element (feedItem new) new :: rest)
              (set_slideshow (feedItem new :: slideshow st)
                 (set_store (<[id new := savable new]> (store st)) st)))).
Proof.
  intros Hsaved Hbad.
  pose proof (appendThumbnails_completed (new :: rest) []) as Hcompleted.
  assert ((appendThumbnails (set_element (feedItem new) new :: rest) []).2
          = (appendThumbnails (new :: rest) []).2) as Hsame.
  { cbn [appendThumbnails].
    change (thumbnail (set_element (feedItem new) new)) with (thumbnail new).
    done. }
  unfold saveAndRender_resume, saveTikTokToDB_settle, addTikTokToFeed. state.
  rewrite Hsaved. cbn [lookup list_lookup]. fold (feedItem new). state.
  cbn [insert list_insert]. unfold renderHistoryGallery. state.
  destruct (appendThumbnails (set_element _ _ :: _) []) as [gallery completed].
  cbn [snd] in Hsame. subst completed. exists gallery.
  destruct (appendThumbnails (new :: rest) []).2; [|done].
  destruct Hbad. by apply Hcompleted.
Qed.

Lemma undone (gallery : list Thumbnail) (new : TikTok) (rest : list TikTok)
    (feed : list Container) (m : gmap N TikTok) (S : State) :
  let after :=
    saveAndRender_catch
      (set_historyGallery gallery
         (set_savedTikToks (new :: rest) (set_slideshow feed (set_store m S)))) in
  store after = m ∧ slideshow after = feed ∧ savedTikToks after = rest
  ∧ log after = log S ++ [Console (lit "Failed to save TikTok:")]
  ∧ errorModal after
    = Some (lit "Failed to save your new Short. Storage might be full or corrupted.").
Proof. cbv zeta. split_and!; reflexivity. Qed.

(** X26.  The [catch] of [saveAndRenderNewTikTok] also catches what
    the rendering of the gallery throws on a short without slides, the
    new one or one already in the list.  The put has succeeded by then:
    the record is in the store and its item at the head of the feed,
    yet the short is taken off the list again and the popup says that
    the save failed. *)
Theorem save_undone_after_the_put (tiktok : TikTok) (st : State) :
  db st = true →
  ¬ Forall (λ t, slides t ≠ []) (tiktok :: savedTikToks st) →
  let after := saveAndRenderNewTikTok tiktok PutSucceeds st in
  store after = <[id tiktok := savable tiktok]> (store st)
  ∧ slideshow after = feedItem tiktok :: slideshow st
  ∧ savedTikToks after = savedTikToks st
  ∧ storePuts (log after) = storePuts (log st) ++ [savable tiktok]
  ∧ errorModal after
    = Some (lit "Failed to save your new Short. Storage might be full or corrupted.").
Proof.
  intros Hdb Hbad. cbv zeta.
  unfold saveAndRenderNewTikTok, saveAndRender_start, saveTikTokToDB_request. state.
  rewrite Hdb.
  match goal with |- context [saveAndRender_resume tiktok PutSucceeds ?S] =>
    destruct (saveAndRender_resume_undone tiktok (savedTikToks st) S) as [gallery ->];
      [done..|]
  end.
  match goal with |- context [saveAndRender_catch (set_historyGallery ?g (set_savedTikToks (?n :: ?r) (set_slideshow ?f (set_store ?m ?S))))] =>
    destruct (undone g n r f m S) as (-> & -> & -> & -> & ->)
  end.
  unfold emit. state. rewrite !storePuts_app.
  change (storePuts [StorePut ?t]) with [t].
  change (storePuts [Console ?m]) with (@nil TikTok).
  rewrite app_nil_r. done.
Qed.

End Flow.

(** ** Instances *)

Lemma generate_sends_the_question_witness :
  isGenerating (generate (U := BasicLatin) (freshPage ∅)) = true.
Proof.
  refine (proj1 (proj2 (proj2 (proj2
            (generate_sends_the_question (U := BasicLatin) (freshPage ∅)
               eq_refl eq_refl _ _))))).
  - vm_compute. discriminate.
  - vm_compute. discriminate.
Defined.

Lemma generate_needs_a_narrator_witness :
  errorModal (generate (U := BasicLatin) (set_characterSelector [] (freshPage ∅)))
  = Some (lit "Please enter or select a narrator.").
Proof.
  refine (proj1 (generate_needs_a_narrator (U := BasicLatin)
                   (set_characterSelector [] (freshPage ∅)) eq_refl eq_refl _ _)).
  - vm_compute. discriminate.
  - vm_compute. reflexivity.
Defined.

Lemma generation_shows_the_short_witness :
  isGenerating
    (run (U := BasicLatin) (freshPage ∅)
       [ClickGenerate; SongArrives (SongParsed (Some sampleSong));
        ImagesArrive (λ _, okImage) 1700000000000; PutSettles PutSucceeds])
  = false.
Proof.
  refine (proj1 (proj2 (proj2 (proj2 (proj2 (proj2 (proj2 (proj2
            (generation_shows_the_short (U := BasicLatin) (freshPage ∅) sampleSong
               (default [] (song_slides sampleSong)) (λ _, okImage) (λ _, sampleImage)
               1700000000000 eq_refl eq_refl eq_refl eq_refl _ _ eq_refl _ _ _))))))))).
  - vm_compute. discriminate.
  - vm_compute. discriminate.
  - discriminate.
  - intros i _. vm_compute. reflexivity.
  - constructor.
Defined.

Lemma failed_generation_page_witness :
  isGenerating
    (run (U := BasicLatin) (freshPage ∅) [ClickGenerate; SongArrives (SongParsed None)])
  = false.
Proof.
  refine (proj1 (proj1 (failed_generation_page (U := BasicLatin) (freshPage ∅)
                          (SongParsed None) sampleSong [] (λ _, okImage) 0
                          eq_refl eq_refl eq_refl _ _)
                   (parsed_null))).
  - vm_compute. discriminate.
  - vm_compute. discriminate.
Defined.

Lemma custom_narrator_must_be_typed_witness :
  narratorOf (characterChange (lit "custom") (freshPage ∅)) = [].
Proof.
  refine (proj1 (proj2 (custom_narrator_must_be_typed (U := BasicLatin) (freshPage ∅)
                          eq_refl eq_refl _))).
  vm_compute. discriminate.
Defined.

Lemma style_is_read_when_the_song_arrives_witness :
  imageRequests
    (log (step (U := BasicLatin) (styleClick (Some (lit "photoreal")) awaitingSong)
            (SongArrives (SongParsed (Some sampleSong)))))
  = imageRequests (log awaitingSong)
    ++ ((λ part, lit "A photorealistic, high-detail, cinematic 4K photo:"
                 ++ lit " A 9:16 aspect ratio image of: " ++ image_prompt part)
        <$> default [] (song_slides sampleSong)).
Proof.
  refine (proj1 (style_is_read_when_the_song_arrives (U := BasicLatin) awaitingSong
                   sampleQuestion (lit "Alice") (lit "cat") (lit "photoreal")
                   (lit "A photorealistic, high-detail, cinematic 4K photo:") sampleSong
                   (default [] (song_slides sampleSong)) _ _ eq_refl _ _)).
  - vm_compute. reflexivity.
  - vm_compute. reflexivity.
  - discriminate.
  - apply list_elem_of_lookup. exists 2%nat. reflexivity.
Defined.

Lemma example_is_asked_witness :
  examplesChange (U := BasicLatin) (lit "How do volcanoes work?") awaitingSong
  = typed (lit "How do volcanoes work?") awaitingSong.
Proof.
  refine (proj1 (proj2 (example_is_asked (U := BasicLatin)
                          (lit "How do volcanoes work?") awaitingSong _)) _).
  - vm_compute. discriminate.
  - vm_compute. reflexivity.
Defined.

Lemma playback_starts_at_the_first_slide_witness :
  ∃ s st', startSlideshow watching = (Some s, st')
    ∧ playing s = set_element sampleItem threeSlides ∧ playingIn s = sampleItem
    ∧ ∀ n, (length (slides (set_element sampleItem threeSlides)) ≤ n)%nat →
        let ended := completions n s st' in
        spoken (log ended.2)
        = spoken (log watching)
          ++ filter (λ text, whitespaceOnly text = false)
               (lyrics <$> slides (set_element sampleItem threeSlides))
        ∧ isPlaying ended.2 = false.
Proof.
  refine (playback_starts_at_the_first_slide sampleItem 0
            (set_element sampleItem threeSlides) watching eq_refl _ _).
  - vm_compute. reflexivity.
  - vm_compute. discriminate.
Defined.

Lemma late_onend_is_ignored_witness :
  (utterance_onend fromTheStart (freshPage ∅)).1 = advance fromTheStart.
Proof.
  exact (proj1 (late_onend_is_ignored fromTheStart (freshPage ∅) eq_refl)).
Defined.

Lemma replay_restarts_from_the_first_slide_witness :
  slideshowClick OtherAction watching = (None, watching, false).
Proof.
  refine (proj2 (proj2 (proj2 (proj2
            (replay_restarts_from_the_first_slide sampleItem 0
               (set_element sampleItem threeSlides) watching eq_refl _ _))))).
  - vm_compute. reflexivity.
  - vm_compute. discriminate.
Defined.

Lemma load_fills_the_feed_witness :
  slideshow
    (loadHistoryFromDB (U := BasicLatin) GetAllSucceeds
       (freshPage {[ 1700000000000 := sampleShort 1700000000000 ]})).1
  = (feedItem (U := BasicLatin)
     <$> merge_sort newer_first
           (getAll (freshPage {[ 1700000000000 := sampleShort 1700000000000 ]})))
    ++ slideshow (freshPage {[ 1700000000000 := sampleShort 1700000000000 ]}).
Proof.
  exact (proj1 (proj2 (load_fills_the_feed (U := BasicLatin)
                         (freshPage {[ 1700000000000 := sampleShort 1700000000000 ]})
                         eq_refl))).
Defined.

Lemma failed_load_leaves_the_page_witness :
  savedTikToks
    (loadHistoryFromDB (U := BasicLatin) (GetAllFails (lit "UnknownError")) watching).1
  = savedTikToks watching.
Proof.
  exact (proj1 (failed_load_leaves_the_page (U := BasicLatin)
                  (GetAllFails (lit "UnknownError")) (lit "UnknownError") watching
                  (or_intror eq_refl))).
Defined.

Lemma feed_stays_in_step_witness :
  let after := performAll (U := BasicLatin) (freshPage ∅)
                 [ Save (sampleShort 1700000005000) PutSucceeds;
                   Save (sampleShort 1700000009000) (PutFails (lit "QuotaExceededError"));
                   LoadFromStore (GetAllFails (lit "UnknownError")) ] in
  tiktokId <$> slideshow after = id <$> savedTikToks after.
Proof.
  refine (proj1 (proj2 (feed_stays_in_step (U := BasicLatin)
            [ Save (sampleShort 1700000005000) PutSucceeds;
              Save (sampleShort 1700000009000) (PutFails (lit "QuotaExceededError"));
              LoadFromStore (GetAllFails (lit "UnknownError")) ]
            (freshPage ∅) _ _ _ _))).
  - split; [reflexivity|constructor].
  - constructor.
  - repeat constructor; discriminate.
  - repeat constructor; discriminate.
Defined.

Lemma gallery_click_finds_the_item_witness :
  ∃ item, galleryClick 1700000000000 watching = Some item
    ∧ item ∈ slideshow watching
    ∧ tiktokId item = 1700000000000.
Proof.
  refine (gallery_click_finds_the_item
            {| thumb_tiktokId := 1700000000000;
               thumb_src := lit "data:image/png;base64,AAAA";
               thumb_prompt := lit "Why is the sky blue?" |}
            (set_historyGallery
               [ {| thumb_tiktokId := 1700000000000;
                    thumb_src := lit "data:image/png;base64,AAAA";
                    thumb_prompt := lit "Why is the sky blue?" |} ] watching) _ _ _).
  - split; [reflexivity|]. constructor; [|constructor].
    intros item [= <-]. split; reflexivity.
  - vm_compute. reflexivity.
  - left.
Defined.

Lemma one_background_track_witness :
  (length (audible (log (run (U := BasicLatin) (freshPage ∅)
                           [ClickGenerate; SongArrives (SongParsed (Some sampleSong))])))
   ≤ 1)%nat
  ∧ audible (log (run (U := BasicLatin) (freshPage ∅)
                    [ClickGenerate; SongArrives (SongParsed None)]))
    = audible (log (freshPage ∅)).
Proof.
  assert (current_track_only (freshPage ∅)) as H
    by (intros audio Hin; by apply elem_of_nil in Hin).
  split.
  - exact (proj1 (proj2 (one_background_track (U := BasicLatin) (freshPage ∅)
                           [ClickGenerate; SongArrives (SongParsed (Some sampleSong))]
                           H))).
  - refine (proj1 (proj2 (proj2 (one_background_track (U := BasicLatin) (freshPage ∅)
                                   [ClickGenerate; SongArrives (SongParsed None)] H))
                     _)).
    repeat constructor; [discriminate|]. intros r [= <-]. constructor.
Defined.

Lemma save_undone_after_the_put_witness :
  savedTikToks (saveAndRenderNewTikTok (U := BasicLatin) emptyShort PutSucceeds
                  (freshPage ∅))
  = savedTikToks (freshPage ∅).
Proof.
  refine (proj1 (proj2 (proj2 (save_undone_after_the_put (U := BasicLatin) emptyShort
                                 (freshPage ∅) eq_refl _)))).
  intros [Hslides _]%Forall_cons. by destruct Hslides.
Defined.
